(** * imagehoster: key codec, canonicaliser, fetch ladder, upload and proxy

  A shallow embedding of the TypeScript sources of the image hoster
  (utils.ts, constants.ts, fetch-image.ts, upload.ts, proxy.ts,
  legacy-proxy.ts, serve.ts, avatar.ts, image-resizer.ts) together with the
  properties its design document states about them and further properties
  of the code.

  Conventions of the embedding:
  - a JavaScript string is the list of its UTF-16 code units ([jsstring]);
  - a [Buffer] is the list of its octets ([bytes]);
  - a JavaScript number that the code only ever uses as an integer
    ([width], [height], status codes) is a [Z]; [undefined] and [NaN] are
    [None] where the code distinguishes them;
  - [throw] is the [inl] of a sum, or [None] where the code only catches. *)

From Stdlib Require Import ZArith List String Ascii Bool Lia.
From Stdlib Require Import Numbers.DecimalString.
From Stdlib Require Numbers.DecimalPos Numbers.DecimalZ.
From stdpp Require Import gmap.
Import ListNotations.

Local Open Scope Z_scope.

(** ** JavaScript strings *)

Module JS.

(** A string value: UTF-16 code units, each in [0, 65536). *)
Abbreviation jsstring := (list Z).

(** A [Buffer]: octets, each in [0, 256). *)
Abbreviation bytes := (list Z).

(** A string literal of the source (all of them are ASCII). *)
Definition lit (s : string) : jsstring :=
  map (fun a => Z.of_N (N_of_ascii a)) (list_ascii_of_string s).

(** [a === b] on strings. *)
Definition streq (a b : jsstring) : bool := bool_decide (a = b).

(** [Array.prototype.includes] on an array of strings. *)
Definition includes (l : list jsstring) (x : jsstring) : bool :=
  existsb (streq x) l.

(** [String.prototype.startsWith]. *)
Fixpoint startsWith (s p : jsstring) : bool :=
  match p, s with
  | [], _ => true
  | _ :: _, [] => false
  | c :: p', d :: s' => (c =? d) && startsWith s' p'
  end.

(** [String.prototype.endsWith]. *)
Definition endsWith (s p : jsstring) : bool :=
  startsWith (rev s) (rev p).

(** [String.prototype.indexOf]: [None] stands for [-1]. *)
Fixpoint indexOf (s p : jsstring) : option nat :=
  if startsWith s p then Some O
  else match s with
       | [] => None
       | _ :: s' => option_map S (indexOf s' p)
       end.

(** [String.prototype.includes]. *)
Definition contains (s p : jsstring) : bool :=
  match indexOf s p with Some _ => true | None => false end.

(** [s.replace(p, r)] for a string pattern [p] and a replacement [r]
    without [$]: the first occurrence of [p] is replaced. *)
Fixpoint replace (s p r : jsstring) : jsstring :=
  if startsWith s p then r ++ skipn (length p) s
  else match s with
       | [] => []
       | c :: s' => c :: replace s' p r
       end.

(** [Array.prototype.join]. *)
Fixpoint join (sep : jsstring) (l : list jsstring) : jsstring :=
  match l with
  | [] => []
  | [x] => x
  | x :: l' => x ++ sep ++ join sep l'
  end.

(** Number-to-string conversion of an integer (template literals and
    [toFixed(0)] agree on integers below 1e21). *)
Definition numToString (n : Z) : jsstring :=
  lit (NilZero.string_of_int (Z.to_int n)).

(** White space as [String.prototype.trim] understands it. *)
Definition isWhiteSpace (c : Z) : bool :=
  ((9 <=? c) && (c <=? 13)) || (c =? 32) || (c =? 160) || (c =? 5760)
  || ((8192 <=? c) && (c <=? 8202)) || (c =? 8232) || (c =? 8233)
  || (c =? 8239) || (c =? 8287) || (c =? 12288) || (c =? 65279).

Fixpoint trimStart (s : jsstring) : jsstring :=
  match s with
  | c :: s' => if isWhiteSpace c then trimStart s' else s
  | [] => []
  end.

Definition trim (s : jsstring) : jsstring :=
  rev (trimStart (rev (trimStart s))).

End JS.

Import JS.

(** ** utils.ts: image keys *)

Module Utils.

Inductive ScalingMode := Cover | Fit.

(** Modelled from the spec: the [AVIF] member of [OutputFormat].  The enum
    declaration in utils.ts lists [Match], [JPEG], [PNG] and [WEBP]; the
    callers (proxy.ts, cover.ts, image-resizer.ts) and the unit tests use
    [OutputFormat.AVIF], and the design document fixes the member names
    as Match, JPEG, PNG, WEBP, AVIF. *)
Inductive OutputFormat := Match | JPEG | PNG | WEBP | AVIF.

(** The reverse mapping [ScalingMode[m]] of the TypeScript enum. *)
Definition ScalingMode_name (m : ScalingMode) : jsstring :=
  match m with Cover => lit "Cover" | Fit => lit "Fit" end.

(** The reverse mapping [OutputFormat[f]]. *)
Definition OutputFormat_name (f : OutputFormat) : jsstring :=
  match f with
  | Match => lit "Match" | JPEG => lit "JPEG" | PNG => lit "PNG"
  | WEBP => lit "WEBP" | AVIF => lit "AVIF"
  end.

Record ProxyOptions := {
  width : option Z;
  height : option Z;
  mode : ScalingMode;
  format : OutputFormat;
  ignorecache : option Z;
  invalidate : option Z;
  refetch : option Z;
}.

(** Truthiness of an optional number ([undefined] and [0] are falsy). *)
Definition truthy (x : option Z) : bool :=
  match x with Some n => negb (n =? 0) | None => false end.

(** [x || 0]. *)
Definition orZero (x : option Z) : Z :=
  match x with Some n => n | None => 0 end.

Definition isFit (m : ScalingMode) : bool :=
  match m with Fit => true | Cover => false end.

Definition isMatch (f : OutputFormat) : bool :=
  match f with Match => true | _ => false end.

(** [rv.push(x.toFixed(0))] guarded by [if (x)]. *)
Definition pushDim (rv : list jsstring) (x : option Z) : list jsstring :=
  if truthy x then rv ++ [numToString (orZero x)] else rv.

Definition getImageKey (origKey : jsstring) (options : ProxyOptions) : jsstring :=
  if isFit (mode options) && isMatch (format options) then
    origKey ++ lit "_" ++ numToString (orZero (width options))
            ++ lit "x" ++ numToString (orZero (height options))
  else
    let rv := [origKey; ScalingMode_name (mode options);
               OutputFormat_name (format options)] in
    let rv := pushDim rv (width options) in
    let rv := pushDim rv (height options) in
    join (lit "_") rv.

(** The keys the unit tests of [getImageKey] expect. *)
Definition opts w h m f : ProxyOptions :=
  {| width := w; height := h; mode := m; format := f;
     ignorecache := None; invalidate := None; refetch := None |}.

Example getImageKey_fit_match :
  getImageKey (lit "Uabc123") (opts (Some 100) (Some 200) Fit Match)
  = lit "Uabc123_100x200".
Proof. reflexivity. Qed.

Example getImageKey_zero :
  getImageKey (lit "Uabc123") (opts (Some 0) (Some 0) Fit Match)
  = lit "Uabc123_0x0".
Proof. reflexivity. Qed.

Example getImageKey_cover_webp :
  getImageKey (lit "Uabc123") (opts (Some 512) (Some 512) Cover WEBP)
  = lit "Uabc123_Cover_WEBP_512_512".
Proof. reflexivity. Qed.

Example getImageKey_fit_webp_width_only :
  getImageKey (lit "Uabc123") (opts (Some 100) None Fit WEBP)
  = lit "Uabc123_Fit_WEBP_100".
Proof. reflexivity. Qed.

Example getImageKey_no_dims :
  getImageKey (lit "Uabc123") (opts None None Cover JPEG)
  = lit "Uabc123_Cover_JPEG".
Proof. reflexivity. Qed.

(** The suffix a dimension contributes to a non-legacy key. *)
Definition dimSuffix (x : option Z) : jsstring :=
  if truthy x then lit "_" ++ numToString (orZero x) else [].

(** The compact legacy shape ["{origKey}_{W}x{H}"]. *)
Definition legacyKey (origKey : jsstring) (W H : Z) : jsstring :=
  origKey ++ lit "_" ++ numToString W ++ lit "x" ++ numToString H.

Lemma numToString_head (n : Z) :
  exists c rest, numToString n = c :: rest /\ (c = 45 \/ 48 <= c <= 57).
Proof.
  unfold numToString.
  destruct (Z.to_int n) as [d | d].
  - destruct d; cbn; eexists; eexists; (split; [reflexivity | lia]).
  - cbn. eexists; eexists; (split; [reflexivity | lia]).
Qed.

Lemma join_three (sep a b c : jsstring) (l : list jsstring) :
  join sep (a :: b :: c :: l) = a ++ sep ++ b ++ sep ++ join sep (c :: l).
Proof. reflexivity. Qed.

Lemma extended_key_shape (origKey : jsstring) (o : ProxyOptions) :
  join (lit "_")
       (pushDim (pushDim [origKey; ScalingMode_name (mode o);
                          OutputFormat_name (format o)] (width o)) (height o))
  = origKey ++ lit "_" ++ ScalingMode_name (mode o) ++ lit "_"
            ++ OutputFormat_name (format o)
            ++ dimSuffix (width o) ++ dimSuffix (height o).
Proof.
  unfold pushDim, dimSuffix.
  destruct (truthy (width o)), (truthy (height o)); cbn [app join];
    rewrite ?app_nil_r; reflexivity.
Qed.


End Utils.

(** ** constants.ts: the URL canonicaliser *)

Module Constants.

(** Domain replacements: [oldDomain, newDomain]. *)
Definition DOMAIN_REPLACEMENTS : list (jsstring * jsstring) :=
  [ (lit "https://img.3speakcontent.online/", lit "https://img.3speakcontent.co/");
    (lit "https://img.inleo.io/D", lit "https://img.leopedia.io/D") ].

(** Path replacements: [domain, oldPath, newPath]. *)
Definition PATH_REPLACEMENTS : list (jsstring * jsstring * jsstring) :=
  [ (lit "https://img.3speakcontent.co/", lit "/post.png",
     lit "/thumbnails/default.png") ].

(** [EMPTY_IMAGE_URL_PATTERNS], for a configured [service_url]. *)
Definition EMPTY_IMAGE_URL_PATTERNS (SERVICE_BASE_URL : jsstring) : list jsstring :=
  [ SERVICE_BASE_URL ++ lit "/0x0/"; SERVICE_BASE_URL ++ lit "/0x0" ].

(** Default 1x1 transparent pixel fallback image. *)
Definition DEFAULT_FALLBACK_IMAGE_URL (SERVICE_BASE_URL : jsstring) : jsstring :=
  SERVICE_BASE_URL
  ++ lit "/DQmY4YngD8ByBgpFtcTRR6wvqYfM1owqtjS6NXyYhKtxv4u/1x1_000000.png".

Definition isEmptyImageUrl (SERVICE_BASE_URL url : jsstring) : bool :=
  streq url (SERVICE_BASE_URL ++ lit "/0x0/")
  || streq url (SERVICE_BASE_URL ++ lit "/0x0").

Definition startsWithEmptyImagePrefix (SERVICE_BASE_URL url : jsstring) : bool :=
  startsWith url (SERVICE_BASE_URL ++ lit "/0x0/").

Definition applyDomain (result : jsstring) (r : jsstring * jsstring) : jsstring :=
  let '(oldDomain, newDomain) := r in replace result oldDomain newDomain.

Definition applyPath (result : jsstring) (r : jsstring * jsstring * jsstring)
  : jsstring :=
  let '(domain, oldPath, newPath) := r in
  if contains result domain then replace result oldPath newPath else result.

Definition applyUrlReplacements (urlString : jsstring) : jsstring :=
  let result := fold_left applyDomain DOMAIN_REPLACEMENTS urlString in
  fold_left applyPath PATH_REPLACEMENTS result.

Example replaces_3speak_domain :
  applyUrlReplacements (lit "https://img.3speakcontent.online/foo.jpg")
  = lit "https://img.3speakcontent.co/foo.jpg".
Proof. reflexivity. Qed.

Example replaces_inleo_domain :
  applyUrlReplacements (lit "https://img.inleo.io/DQmABC123")
  = lit "https://img.leopedia.io/DQmABC123".
Proof. reflexivity. Qed.

Example replaces_3speak_path :
  applyUrlReplacements (lit "https://img.3speakcontent.co/post.png")
  = lit "https://img.3speakcontent.co/thumbnails/default.png".
Proof. reflexivity. Qed.

Example domain_before_path :
  applyUrlReplacements (lit "https://img.3speakcontent.online/post.png")
  = lit "https://img.3speakcontent.co/thumbnails/default.png".
Proof. reflexivity. Qed.

Example unrelated_untouched :
  applyUrlReplacements (lit "https://example.com/image.jpg")
  = lit "https://example.com/image.jpg".
Proof. reflexivity. Qed.

(** A string on which no replacement of the table fires any more. *)
Definition settled (y : jsstring) : Prop :=
  contains y (lit "https://img.3speakcontent.online/") = false
  /\ contains y (lit "https://img.inleo.io/D") = false
  /\ (contains y (lit "https://img.3speakcontent.co/") = false
      \/ contains y (lit "/post.png") = false).

Lemma startsWith_app (s p : jsstring) :
  startsWith s p = true -> s = p ++ skipn (length p) s.
Proof.
  revert s. induction p as [| c p IH]; intros s H; [reflexivity |].
  destruct s as [| d s]; [discriminate |]. cbn in H.
  apply andb_true_iff in H as [Hc Hp]. apply Z.eqb_eq in Hc. subst d.
  cbn. f_equal. apply IH, Hp.
Qed.

Lemma replace_absent (s p r : jsstring) :
  contains s p = false -> replace s p r = s.
Proof.
  unfold contains. induction s as [| c s IH]; cbn [indexOf replace].
  - destruct (startsWith [] p); [discriminate | reflexivity].
  - destruct (startsWith (c :: s) p); [discriminate |].
    intros H. f_equal. apply IH.
    destruct (indexOf s p); [discriminate | reflexivity].
Qed.

Lemma replace_present_length (s p r : jsstring) :
  contains s p = true ->
  (length (replace s p r) + length p = length s + length r)%nat.
Proof.
  unfold contains. induction s as [| c s IH]; cbn [indexOf replace].
  - destruct p as [| d p]; cbn; [intros _; rewrite length_app; cbn; lia |].
    discriminate.
  - destruct (startsWith (c :: s) p) eqn:E.
    + intros _. apply startsWith_app in E.
      rewrite length_app.
      assert (L : length (c :: s) = length (p ++ skipn (length p) (c :: s)))
        by (rewrite <- E; reflexivity).
      rewrite length_app in L. cbn [length] in L |- *. lia.
    + intros H. cbn [length].
      assert (H' : match indexOf s p with Some _ => true | None => false end = true)
        by (destruct (indexOf s p); [reflexivity | discriminate]).
      specialize (IH H'). lia.
Qed.

(** The length change of one replacement, as a signed number. *)
Lemma replace_length (s p r : jsstring) :
  Z.of_nat (length (replace s p r))
  = Z.of_nat (length s)
    + (if contains s p then Z.of_nat (length r) - Z.of_nat (length p) else 0).
Proof.
  destruct (contains s p) eqn:E.
  - pose proof (replace_present_length s p r E). lia.
  - rewrite replace_absent by exact E. lia.
Qed.

Lemma settled_fixed (y : jsstring) : settled y -> applyUrlReplacements y = y.
Proof.
  intros (H1 & H2 & H3).
  unfold applyUrlReplacements, DOMAIN_REPLACEMENTS, PATH_REPLACEMENTS.
  cbn [fold_left applyDomain applyPath].
  rewrite (replace_absent y _ _ H1), (replace_absent y _ _ H2).
  destruct H3 as [H3 | H3].
  - rewrite H3. reflexivity.
  - destruct (contains y (lit "https://img.3speakcontent.co/"));
      [apply replace_absent, H3 | reflexivity].
Qed.

Lemma fixed_settled (y : jsstring) : applyUrlReplacements y = y -> settled y.
Proof.
  unfold applyUrlReplacements, DOMAIN_REPLACEMENTS, PATH_REPLACEMENTS, settled.
  cbn [fold_left applyDomain applyPath].
  pose proof (replace_length y (lit "https://img.3speakcontent.online/")
                (lit "https://img.3speakcontent.co/")) as L1.
  remember (replace y (lit "https://img.3speakcontent.online/")
              (lit "https://img.3speakcontent.co/")) as y1 eqn:Ey1.
  pose proof (replace_length y1 (lit "https://img.inleo.io/D")
                (lit "https://img.leopedia.io/D")) as L2.
  remember (replace y1 (lit "https://img.inleo.io/D")
              (lit "https://img.leopedia.io/D")) as y2 eqn:Ey2.
  pose proof (replace_length y2 (lit "/post.png")
                (lit "/thumbnails/default.png")) as L3.
  change (Z.of_nat (length (lit "https://img.3speakcontent.co/"))) with 29 in L1.
  change (Z.of_nat (length (lit "https://img.3speakcontent.online/"))) with 33 in L1.
  change (Z.of_nat (length (lit "https://img.leopedia.io/D"))) with 25 in L2.
  change (Z.of_nat (length (lit "https://img.inleo.io/D"))) with 22 in L2.
  change (Z.of_nat (length (lit "/thumbnails/default.png"))) with 23 in L3.
  change (Z.of_nat (length (lit "/post.png"))) with 9 in L3.
  intros Hfix.
  assert (Hlen : Z.of_nat (length y)
    = Z.of_nat (length (if contains y2 (lit "https://img.3speakcontent.co/")
                        then replace y2 (lit "/post.png")
                                     (lit "/thumbnails/default.png")
                        else y2))) by (rewrite Hfix; reflexivity).
  destruct (contains y (lit "https://img.3speakcontent.online/")) eqn:E1.
  { exfalso.
    destruct (contains y1 (lit "https://img.inleo.io/D")),
      (contains y2 (lit "https://img.3speakcontent.co/")),
      (contains y2 (lit "/post.png")); lia. }
  rewrite (replace_absent _ _ _ E1) in Ey1. subst y1.
  destruct (contains y (lit "https://img.inleo.io/D")) eqn:E2.
  { exfalso.
    destruct (contains y2 (lit "https://img.3speakcontent.co/")),
      (contains y2 (lit "/post.png")); lia. }
  rewrite (replace_absent _ _ _ E2) in Ey2. subst y2.
  split; [reflexivity | split; [reflexivity |]].
  destruct (contains y (lit "https://img.3speakcontent.co/"));
    [right | left; reflexivity].
  destruct (contains y (lit "/post.png")); [lia | reflexivity].
Qed.

(** A URL that names the retired 3speak domain twice: in its host and in a
    query parameter. *)
Definition twice_3speak : jsstring :=
  lit "https://img.3speakcontent.online/a.png?src=https://img.3speakcontent.online/a.png".

Example twice_3speak_first_pass :
  applyUrlReplacements twice_3speak
  = lit "https://img.3speakcontent.co/a.png?src=https://img.3speakcontent.online/a.png".
Proof. reflexivity. Qed.

Example twice_3speak_second_pass :
  applyUrlReplacements (applyUrlReplacements twice_3speak)
  = lit "https://img.3speakcontent.co/a.png?src=https://img.3speakcontent.co/a.png".
Proof. reflexivity. Qed.

(** C4, as stated, fails: a second pass over the canonical form of
    [twice_3speak] still rewrites the second occurrence of the old domain. *)
Lemma applyUrlReplacements_not_idempotent :
  applyUrlReplacements (applyUrlReplacements twice_3speak)
  <> applyUrlReplacements twice_3speak.
Proof. intros H. vm_compute in H. discriminate H. Qed.

(** C4, amended. A second pass changes nothing exactly when the first pass
    left no pattern of the tables behind: neither old domain and, under the
    3speak host, no [/post.png]. *)
Theorem applyUrlReplacements_idempotent_iff (x : jsstring) :
  applyUrlReplacements (applyUrlReplacements x) = applyUrlReplacements x
  <-> settled (applyUrlReplacements x).
Proof. split; [apply fixed_settled | apply settled_fixed]. Qed.

End Constants.

(** ** Effects: the world the handlers run in

    The handlers are [async] functions over blob stores, the network and
    the RPC node.  They are embedded in a state-and-exception monad over a
    [World]; every call that leaves the process is recorded in the world's
    [trace], and the answers of the outside are functions of that trace, so
    that the same request may be answered differently at different times.
    Of the log only the error lines of proxy.ts, of fallback.ts and of
    [getSharpMetadataWithRetry] are kept, as [EvLog] events; the other log
    calls have no influence on stores or responses and are left out. *)

Module Eff.

(** Modelled from the spec: the codes of [APIError.Code].  error.ts is not
    among the sources; the design document lists the codes, and the
    handlers name the ones they use. *)
Inductive Code :=
| BadRequest | Blacklisted | Deplorable | FileMissing | InternalError
| InvalidImage | InvalidMethod | InvalidParam | InvalidProxyUrl
| InvalidSignature | LengthRequired | MissingParam | NoSuchAccount
| NotFound | PayloadTooLarge | QoutaExceeded | UpstreamError.

(** A thrown value: an [APIError] with its code, or any other error. *)
Inductive Exn :=
| APIError (code : Code)
| JsError (what : jsstring).

(** [needle] options as the sources pass them. *)
Record NeedleOptions := {
  parse_response : bool;
  follow_max : Z;
  open_timeout : option Z;
  response_timeout : option Z;
  read_timeout : option Z;
  user_agent : jsstring;
}.

(** The body of a response is a [Buffer] when [parse_response] is off and
    data arrived; anything else fails [Buffer.isBuffer]. *)
Inductive Body := BufferBody (b : bytes) | OtherBody.

Record NeedleResponse := {
  statusCode : option Z;
  body : Body;
  res_bytes : Z;
}.

Record Request := { req_url : jsstring; req_options : NeedleOptions }.

(** The outcome of one [needle.get]: the callback's error or its response. *)
Inductive FetchOutcome := Rejected | Resolved (res : option NeedleResponse).

Inductive StoreName := UploadStore | ProxyStore.

Inductive Event :=
| EvFetch (req : Request)
| EvStoreExists (s : StoreName) (key : jsstring)
| EvStoreRead (s : StoreName) (key : jsstring)
| EvStoreWrite (s : StoreName) (key : jsstring) (data : bytes)
| EvStoreRemove (s : StoreName) (key : jsstring)
| EvPurge (url : jsstring)
| EvGetAccount (name : jsstring)
| EvGetProfile (name : jsstring)
| EvRatelimit (account : jsstring)
| EvVerify (publicKey : jsstring) (hash : bytes) (signature : jsstring)
| EvRecover (hash : bytes) (signature : jsstring)
| EvLog (msg : jsstring).

Record World := {
  uploadStore : gmap (list Z) (list Z);
  proxyStore : gmap (list Z) (list Z);
  trace : list Event;
}.

Definition M (A : Type) : Type := World -> (Exn + A) * World.

Definition ret {A} (a : A) : M A := fun w => (inr a, w).

Definition throw {A} (e : Exn) : M A := fun w => (inl e, w).

Definition bind {A B} (m : M A) (k : A -> M B) : M B :=
  fun w => match m w with
           | (inl e, w') => (inl e, w')
           | (inr a, w') => k a w'
           end.

(** [try { m } catch (e) { h e }]. *)
Definition tryCatch {A} (m : M A) (h : Exn -> M A) : M A :=
  fun w => match m w with
           | (inl e, w') => h e w'
           | (inr a, w') => (inr a, w')
           end.

Definition record (w : World) (e : Event) : World :=
  {| uploadStore := uploadStore w; proxyStore := proxyStore w;
     trace := trace w ++ [e] |}.

Definition emit (e : Event) : M unit := fun w => (inr tt, record w e).

Definition history : M (list Event) := fun w => (inr (trace w), w).

(** Modelled from the spec: [APIError.assert(condition, code)] of error.ts
    throws an [APIError] with the code when the condition does not hold. *)
Definition assert (condition : bool) (code : Code) : M unit :=
  if condition then ret tt else throw (APIError code).

End Eff.

Import Eff.

Notation "'let*' x ':=' m 'in' k" := (bind m (fun x => k))
  (at level 10, x name, k at level 200).

(** ** fetch-image.ts: the fallback ladder *)

Module FetchImage.

Section Ladder.

(** The network: what [needle.get] answers to a request, given everything
    that happened before it. *)
Variable net : list Event -> Request -> FetchOutcome.

(** [fetchUrl] of utils.ts: a promise around [needle.get]. *)
Definition fetchUrl (url : jsstring) (options : NeedleOptions)
  : M (option NeedleResponse) :=
  let* h := history in
  let req := {| req_url := url; req_options := options |} in
  let* _ := emit (EvFetch req) in
  match net h req with
  | Rejected => throw (JsError url)
  | Resolved res => ret res
  end.

Definition fallbackDomains : list jsstring :=
  [ lit "";
    lit "https://images.hive.blog/0x0/";
    lit "https://steemitimages.com/0x0/";
    lit "https://wsrv.nl/?url=";
    lit "https://img.leopedia.io/0x0/";
    lit "https://images.hive.blog/p/";
    lit "https://steemitimages.com/p/" ].

Definition isEmpty (s : jsstring) : bool :=
  match s with [] => true | _ => false end.

Definition buildFallbackUrls (urlString urlParams : jsstring) : list jsstring :=
  map (fun domain =>
         if isEmpty domain then urlString
         else if endsWith domain (lit "/p/") then domain ++ urlParams
         else domain ++ urlString)
      fallbackDomains.

Record FetchOptions := {
  timeout : option Z;
  skipUrls : option (list jsstring);
}.

(** The acceptance test of a response: a status in the 2xx range and a
    [Buffer] body. *)
Definition isBuffer (b : Body) : bool :=
  match b with BufferBody _ => true | OtherBody => false end.

Definition accepted (res : option NeedleResponse) : bool :=
  match res with
  | Some r =>
      match statusCode r with
      | Some code => negb (code =? 0) && (code / 100 =? 2) && isBuffer (body r)
      | None => false
      end
  | None => false
  end.

Definition ladderOptions (timeout : Z) (userAgent : jsstring) : NeedleOptions :=
  {| parse_response := false; follow_max := 5;
     open_timeout := Some timeout; response_timeout := Some timeout;
     read_timeout := Some timeout; user_agent := userAgent |}.

(** One turn of the [for] loop: [Some res] is the [return] out of it. *)
Definition attempt (candidate : jsstring) (o : NeedleOptions)
  : M (option NeedleResponse) :=
  tryCatch
    (let* res := fetchUrl candidate o in
     if accepted res then ret res else ret None)
    (fun _ => ret None).

Fixpoint tryCandidates (urls : list jsstring) (o : NeedleOptions)
  : M (option NeedleResponse) :=
  match urls with
  | [] => ret None
  | candidate :: rest =>
      let* r := attempt candidate o in
      match r with
      | Some res => ret (Some res)
      | None => tryCandidates rest o
      end
  end.

Definition candidateUrls (urlString urlParams : jsstring)
  (skip : list jsstring) : list jsstring :=
  List.filter (fun url => negb (includes skip (trim url)))
              (buildFallbackUrls urlString urlParams).

Definition fetchImageWithFallbacks
  (urlString urlParams userAgent defaultUrl : jsstring) (options : FetchOptions)
  : M (NeedleResponse * bool) :=
  let timeout := match timeout options with Some t => t | None => 10000 end in
  let skipUrls := match skipUrls options with Some l => l | None => [] end in
  let urls := candidateUrls urlString urlParams skipUrls in
  let o := ladderOptions timeout userAgent in
  let* r := tryCandidates urls o in
  match r with
  | Some res => ret (res, false)
  | None =>
      let* d := attempt defaultUrl o in
      match d with
      | Some def => ret (def, true)
      | None => throw (JsError (lit "All fallbacks failed, including default image"))
      end
  end.

(** The request the ladder sends for a candidate. *)
Definition ask (o : NeedleOptions) (url : jsstring) : Event :=
  EvFetch {| req_url := url; req_options := o |}.

(** What the network answers when [url] is asked after history [h]:
    the accepted response, if it is one. *)
Definition answer (h : list Event) (o : NeedleOptions) (url : jsstring)
  : option NeedleResponse :=
  match net h {| req_url := url; req_options := o |} with
  | Resolved res => if accepted res then res else None
  | Rejected => None
  end.

(** Every candidate of [urls], asked in order after the history [h], fails. *)
Definition allFail (h : list Event) (o : NeedleOptions) (urls : list jsstring)
  : Prop :=
  forall pre c post, urls = pre ++ c :: post ->
                     answer (h ++ map (ask o) pre) o c = None.

Lemma attempt_run (c : jsstring) (o : NeedleOptions) (w : World) :
  attempt c o w = (inr (answer (trace w) o c), record w (ask o c)).
Proof.
  unfold attempt, tryCatch, bind, fetchUrl, history, emit, answer, ask.
  cbn. destruct (net (trace w) _) as [| res]; cbn; [reflexivity |].
  destruct (accepted res); reflexivity.
Qed.

Lemma allFail_nil (h : list Event) (o : NeedleOptions) : allFail h o [].
Proof. intros pre c post H. destruct pre; discriminate H. Qed.

Lemma allFail_cons (h : list Event) (o : NeedleOptions) (c : jsstring)
  (urls : list jsstring) :
  answer h o c = None -> allFail (h ++ [ask o c]) o urls ->
  allFail h o (c :: urls).
Proof.
  intros Hc Hrest pre c' post E. destruct pre as [| p pre]; cbn in E.
  - injection E as -> _. cbn. rewrite app_nil_r. exact Hc.
  - injection E as -> E. cbn [map].
    specialize (Hrest pre c' post E).
    rewrite <- app_assoc in Hrest. exact Hrest.
Qed.

(** The loop stops at the first candidate that answers, having asked the
    candidates before it in order, or asks all of them. *)
Lemma tryCandidates_run (urls : list jsstring) (o : NeedleOptions) (w : World) :
  exists r w1,
    tryCandidates urls o w = (inr r, w1)
    /\ uploadStore w1 = uploadStore w /\ proxyStore w1 = proxyStore w
    /\ match r with
       | Some res =>
           exists pre c post,
             urls = pre ++ c :: post
             /\ allFail (trace w) o pre
             /\ answer (trace w ++ map (ask o) pre) o c = Some res
             /\ trace w1 = trace w ++ map (ask o) (pre ++ [c])
       | None =>
           allFail (trace w) o urls
           /\ trace w1 = trace w ++ map (ask o) urls
       end.
Proof.
  revert w. induction urls as [| c urls IH]; intros w.
  - exists None, w. cbn. rewrite app_nil_r.
    repeat split; auto using allFail_nil.
  - cbn [tryCandidates]. unfold bind at 1. rewrite attempt_run.
    destruct (answer (trace w) o c) as [res |] eqn:Hc.
    + exists (Some res), (record w (ask o c)).
      repeat split.
      exists [], c, urls. cbn. rewrite app_nil_r.
      repeat split; auto using allFail_nil.
    + destruct (IH (record w (ask o c))) as (r & w1 & Hrun & Hu & Hp & Hr).
      exists r, w1. rewrite Hrun. cbn in Hu, Hp.
      repeat split; [exact Hu | exact Hp |].
      destruct r as [res |].
      * destruct Hr as (pre & c' & post & E & Hpre & Hans & Htr).
        exists (c :: pre), c', post. cbn [record trace] in *.
        rewrite <- app_assoc in Hans, Htr.
        subst urls. repeat split; auto using allFail_cons.
      * destruct Hr as [Hall Htr]. cbn [record trace] in *.
        rewrite <- app_assoc in Htr.
        split; auto using allFail_cons.
Qed.

(** The candidate list in its declared order. *)
Definition declaredForms (urlString urlParams : jsstring) : list jsstring :=
  [ urlString;
    lit "https://images.hive.blog/0x0/" ++ urlString;
    lit "https://steemitimages.com/0x0/" ++ urlString;
    lit "https://wsrv.nl/?url=" ++ urlString;
    lit "https://img.leopedia.io/0x0/" ++ urlString;
    lit "https://images.hive.blog/p/" ++ urlParams;
    lit "https://steemitimages.com/p/" ++ urlParams ].

Lemma buildFallbackUrls_forms (urlString urlParams : jsstring) :
  buildFallbackUrls urlString urlParams = declaredForms urlString urlParams.
Proof. reflexivity. Qed.

Lemma includes_In (l : list jsstring) (x : jsstring) :
  includes l x = true <-> In x l.
Proof.
  unfold includes, streq. rewrite existsb_exists. split.
  - intros (y & Hy & E). apply bool_decide_eq_true_1 in E. subst y. exact Hy.
  - intros H. exists x. split; [exact H | apply bool_decide_eq_true_2; reflexivity].
Qed.

(** A response the ladder accepts: a status in [200, 299] and a byte body. *)
Definition okResponse (res : NeedleResponse) : Prop :=
  exists code b, statusCode res = Some code /\ 200 <= code <= 299
                 /\ body res = BufferBody b.

Lemma accepted_ok (res : NeedleResponse) :
  accepted (Some res) = true <-> okResponse res.
Proof.
  unfold accepted, okResponse. split.
  - destruct (statusCode res) as [code |]; [| discriminate].
    intros H. apply andb_true_iff in H as [H Hb].
    apply andb_true_iff in H as [_ H]. apply Z.eqb_eq in H.
    destruct (body res) as [b |]; [| discriminate].
    exists code, b. repeat split; try reflexivity;
      Z.to_euclidean_division_equations; lia.
  - intros (code & b & -> & Hc & ->).
    assert (code / 100 = 2) by (Z.to_euclidean_division_equations; lia).
    apply andb_true_iff. split; [apply andb_true_iff; split |].
    + apply negb_true_iff, Z.eqb_neq. lia.
    + apply Z.eqb_eq. assumption.
    + reflexivity.
Qed.

Lemma answer_Some (h : list Event) (o : NeedleOptions) (url : jsstring)
  (res : NeedleResponse) :
  answer h o url = Some res
  <-> net h {| req_url := url; req_options := o |} = Resolved (Some res)
      /\ okResponse res.
Proof.
  unfold answer. rewrite <- accepted_ok. split.
  - destruct (net h _) as [| r]; [discriminate |].
    destruct (accepted r) eqn:Ha; [| discriminate].
    intros ->. split; [reflexivity | exact Ha].
  - intros [-> Ha]. rewrite Ha. reflexivity.
Qed.


End Ladder.

End FetchImage.

(** ** proxy.ts: query options *)

Module ProxyOptions.

Import Utils.

(** A value of [ctx.query]: a string, or an array of strings when the
    parameter is repeated. *)
Inductive QueryValue := QString (s : jsstring) | QArray (l : list jsstring).

(** [String(v)] for a query value or [undefined]. *)
Definition toString (v : option QueryValue) : jsstring :=
  match v with
  | None => lit "undefined"
  | Some (QString s) => s
  | Some (QArray l) => join (lit ",") l
  end.

(** The value of a digit in a radix up to 36. *)
Definition digitValue (radix c : Z) : option Z :=
  let v := if (48 <=? c) && (c <=? 57) then Some (c - 48)
           else if (97 <=? c) && (c <=? 122) then Some (c - 87)
           else if (65 <=? c) && (c <=? 90) then Some (c - 55)
           else None in
  match v with
  | Some d => if d <? radix then Some d else None
  | None => None
  end.

(** The longest prefix of digits, as a number; [None] when there is none. *)
Fixpoint digitsPrefix (radix : Z) (s : jsstring) (acc : option Z) : option Z :=
  match s with
  | c :: s' =>
      match digitValue radix c with
      | Some d => digitsPrefix radix s'
                    (Some (match acc with Some a => a * radix + d | None => d end))
      | None => acc
      end
  | [] => acc
  end.

(** [Number.parseInt(s)] without a radix; [None] is [NaN].  Exact on the
    integers a double represents exactly. *)
Definition parseInt (s : jsstring) : option Z :=
  let s := trimStart s in
  let '(sign, s) := match s with
                    | 45 :: s' => (-1, s')
                    | 43 :: s' => (1, s')
                    | _ => (1, s)
                    end in
  let '(radix, s) := match s with
                     | 48 :: x :: s' =>
                         if (x =? 120) || (x =? 88) then (16, s') else (10, s)
                     | _ => (10, s)
                     end in
  option_map (Z.mul sign) (digitsPrefix radix s None).

(** [Number.parseInt(v) || undefined]. *)
Definition intOrUndefined (v : option QueryValue) : option Z :=
  match parseInt (toString v) with
  | Some n => if n =? 0 then None else Some n
  | None => None
  end.

(** [String.prototype.toLowerCase] on the letters A to Z.  No character
    outside that range lower-cases to a character sequence in which the
    patterns searched below can start or continue. *)
Definition toLowerCase (s : jsstring) : jsstring :=
  map (fun c => if (65 <=? c) && (c <=? 90) then c + 32 else c) s.

Definition supportsWebP (acceptHeader : jsstring) : bool :=
  contains (toLowerCase acceptHeader) (lit "image/webp").

(** Modelled from the spec: [supportsAvif] of utils.ts, which proxy.ts
    imports; the design document defines it as the case-insensitive
    substring test for [image/avif], like [supportsWebP]. *)
Definition supportsAvif (acceptHeader : jsstring) : bool :=
  contains (toLowerCase acceptHeader) (lit "image/avif").

Definition isString (v : option QueryValue) (s : string) : bool :=
  match v with
  | Some (QString x) => streq x (lit s)
  | _ => false
  end.

Definition isUndefined (v : option QueryValue) : bool :=
  match v with None => true | Some _ => false end.

Definition parseMode (v : option QueryValue) : Exn + ScalingMode :=
  if isUndefined v || isString v "cover" then inr Cover
  else if isString v "fit" then inr Fit
  else inl (APIError InvalidParam).

Definition parseFormat (v : option QueryValue) (acceptHeader : jsstring)
  : OutputFormat :=
  if isUndefined v || isString v "match" then
    if supportsAvif acceptHeader then AVIF
    else if supportsWebP acceptHeader then WEBP
    else Match
  else if isString v "jpeg" || isString v "jpg" then JPEG
  else if isString v "png" then PNG
  else if isString v "webp" then WEBP
  else if isString v "avif" then AVIF
  else Match.

Definition parseOptions (query : gmap (list Z) QueryValue)
  (acceptHeader : jsstring) : Exn + ProxyOptions :=
  let width := intOrUndefined (query !! lit "width") in
  let height := intOrUndefined (query !! lit "height") in
  let ignorecache := intOrUndefined (query !! lit "ignorecache") in
  let invalidate := intOrUndefined (query !! lit "invalidate") in
  let refetch := intOrUndefined (query !! lit "refetch") in
  match parseMode (query !! lit "mode") with
  | inl e => inl e
  | inr mode =>
      let format := parseFormat (query !! lit "format") acceptHeader in
      inr {| width := width; height := height; mode := mode; format := format;
             ignorecache := ignorecache; invalidate := invalidate;
             refetch := refetch |}
  end.

Example parseInt_decimal : parseInt (lit "500") = Some 500.
Proof. reflexivity. Qed.

Example parseInt_trailing_text : parseInt (lit " 12px") = Some 12.
Proof. reflexivity. Qed.

Example parseInt_hex : parseInt (lit "0x1f") = Some 31.
Proof. reflexivity. Qed.

Example parseInt_negative : parseInt (lit "-7") = Some (-7).
Proof. reflexivity. Qed.

Example parseInt_nan : parseInt (lit "wide") = None.
Proof. reflexivity. Qed.

(** The mode values the parser knows. *)
Definition knownMode (v : option QueryValue) : Prop :=
  v = None \/ v = Some (QString (lit "cover")) \/ v = Some (QString (lit "fit")).

(** The format values the parser knows. *)
Definition knownFormat (v : option QueryValue) : Prop :=
  v = None
  \/ exists s, v = Some (QString (lit s))
               /\ In s ["match"; "jpeg"; "jpg"; "png"; "webp"; "avif"]%string.

Lemma isString_true (v : option QueryValue) (s : string) :
  isString v s = true <-> v = Some (QString (lit s)).
Proof.
  unfold isString, streq. destruct v as [[x | l] |]; split; try discriminate.
  - intros H. apply bool_decide_eq_true_1 in H. subst x. reflexivity.
  - intros H. injection H as ->. apply bool_decide_eq_true_2. reflexivity.
Qed.

Lemma isString_false (v : option QueryValue) (s : string) :
  v <> Some (QString (lit s)) -> isString v s = false.
Proof.
  intros H. destruct (isString v s) eqn:E; [| reflexivity].
  apply isString_true in E. contradiction.
Qed.

(** C10. An unrecognised [mode] makes the parser throw [InvalidParam]; with
    a recognised mode, an unrecognised [format] throws nothing and the
    options carry [format = Match]. *)
Theorem parseOptions_unrecognized (query : gmap (list Z) QueryValue)
  (acceptHeader : jsstring) :
  (~ knownMode (query !! lit "mode") ->
   parseOptions query acceptHeader = inl (APIError InvalidParam))
  /\ (knownMode (query !! lit "mode") ->
      ~ knownFormat (query !! lit "format") ->
      exists o, parseOptions query acceptHeader = inr o /\ format o = Match).
Proof.
  unfold parseOptions, knownMode, knownFormat. split.
  - intros Hm. unfold parseMode.
    destruct (query !! lit "mode") as [m |] eqn:E.
    + cbn [isUndefined orb].
      rewrite !isString_false; [reflexivity | |]; intros H; apply Hm; auto.
    + exfalso. apply Hm. auto.
  - intros Hm Hf.
    assert (Hmode : exists m, parseMode (query !! lit "mode") = inr m).
    { unfold parseMode.
      destruct Hm as [-> | [-> | ->]]; cbn; eauto. }
    destruct Hmode as [m ->]. eexists. split; [reflexivity |].
    cbn [format]. unfold parseFormat.
    destruct (query !! lit "format") as [f |] eqn:E.
    + cbn [isUndefined orb].
      rewrite !isString_false; [reflexivity | | | | | |];
        intros H; apply Hf; right; eexists; (split; [exact H |]);
        cbn; tauto.
    + exfalso. apply Hf. auto.
Qed.

(** A query with [mode=stretch], and one with [mode=fit&format=gif]. *)
Definition query_stretch : gmap (list Z) QueryValue :=
  {[ lit "mode" := QString (lit "stretch") ]}.

Definition query_fit_gif : gmap (list Z) QueryValue :=
  <[ lit "mode" := QString (lit "fit") ]>
    {[ lit "format" := QString (lit "gif") ]}.

Lemma parseOptions_unrecognized_witness :
  parseOptions query_stretch (lit "image/webp") = inl (APIError InvalidParam)
  /\ exists o, parseOptions query_fit_gif (lit "image/webp") = inr o
               /\ format o = Match.
Proof.
  split.
  - apply (proj1 (parseOptions_unrecognized query_stretch (lit "image/webp"))).
    unfold knownMode. vm_compute.
    intros [H | [H | H]]; discriminate H.
  - apply (proj2 (parseOptions_unrecognized query_fit_gif (lit "image/webp"))).
    + unfold knownMode. right. right. vm_compute. reflexivity.
    + unfold knownFormat. intros [H | (s & H & Hs)].
      * vm_compute in H. discriminate H.
      * cbn in Hs.
        destruct Hs as [<- | [<- | [<- | [<- | [<- | [<- | []]]]]]];
          vm_compute in H; discriminate H.
Defined.

End ProxyOptions.

(** ** Base58: [multihash.toB58String] and [multihash.fromB58String]

    Both are thin wrappers around [bs58] with the Bitcoin alphabet.  The
    codec is embedded by what it computes: leading zero octets map to
    leading ['1']s, the rest of the buffer is the big-endian number written
    in base 58, and decoding throws on a character outside the alphabet. *)

Module Base58.

Definition ALPHABET : jsstring :=
  lit "123456789ABCDEFGHJKLMNPQRSTUVWXYZabcdefghijkmnopqrstuvwxyz".

(** The value of a big-endian digit list in base [b]. *)
Definition valueOf (b : Z) (ds : list Z) : Z :=
  fold_left (fun acc d => acc * b + d) ds 0.

(** The digits of [n] in base [b], least significant first. *)
Fixpoint digitsLE (fuel : nat) (b n : Z) : list Z :=
  match fuel with
  | O => []
  | S f => if n <=? 0 then [] else (n mod b) :: digitsLE f b (n / b)
  end.

(** The digits of [n] in base [b], most significant first and without
    leading zeros; [n] has at most [log2 n + 1] digits in any base. *)
Definition digitsOf (b n : Z) : list Z :=
  rev (digitsLE (S (Z.to_nat (Z.log2 n))) b n).

Fixpoint leadingZeros (ds : list Z) : nat :=
  match ds with
  | d :: ds' => if d =? 0 then S (leadingZeros ds') else O
  | [] => O
  end.

Definition encodeChar (d : Z) : Z := nth (Z.to_nat d) ALPHABET 0.

Fixpoint indexIn (c : Z) (l : list Z) (i : Z) : option Z :=
  match l with
  | x :: l' => if x =? c then Some i else indexIn c l' (i + 1)
  | [] => None
  end.

Definition decodeChar (c : Z) : option Z := indexIn c ALPHABET 0.

Fixpoint decodeChars (s : jsstring) : option (list Z) :=
  match s with
  | [] => Some []
  | c :: s' =>
      match decodeChar c, decodeChars s' with
      | Some d, Some ds => Some (d :: ds)
      | _, _ => None
      end
  end.

(** [bs58.encode]. *)
Definition encode (buffer : bytes) : jsstring :=
  let zeroes := leadingZeros buffer in
  repeat 49 zeroes ++ map encodeChar (digitsOf 58 (valueOf 256 buffer)).

(** [bs58.decode]; [None] is the thrown [Error('Non-base58 character')]. *)
Definition decode (s : jsstring) : option bytes :=
  match decodeChars s with
  | Some ds =>
      let zeroes := leadingZeros ds in
      Some (repeat 0 zeroes ++ digitsOf 256 (valueOf 58 ds))
  | None => None
  end.

Example encode_example_url :
  encode (lit "https://example.com/image.jpg")
  = lit "5k2tWE6P7gjtG9og3eA1nP8mr8JxG35bvjZA5eqc".
Proof. vm_compute. reflexivity. Qed.

Example decode_default_avatar :
  decode (lit "vM1pGHgNcyCbee5hzZJ19JZfuFzCeUv7mVFKdbzGrntDxJQjefptCVeKGsJnTRuspM7ZCQNsZPYavwqkqhFzqyp8hgu9UfPdQtqjeZ5vtuTMwqp59vtT39W12n1qMu1EXZwzJpN")
  = Some (lit "https://images.ecency.com/DQmUVRvAmChYcJqBifekwpR9UTsxSbbbnEi9kJXRWEGzX47/ecency_default_avatar.png").
Proof. vm_compute. reflexivity. Qed.

Example decode_rejects_punctuation :
  decode (lit "not-valid-base58!!!") = None.
Proof. reflexivity. Qed.

(** *** The codec is a bijection between buffers and their encodings *)

(** Value of a digit list given least significant digit first. *)
Fixpoint valueLE (b : Z) (ds : list Z) : Z :=
  match ds with
  | [] => 0
  | d :: ds' => d + b * valueLE b ds'
  end.

(** Digits of base [b]. *)
Definition digitsIn (b : Z) (ds : list Z) : Prop :=
  Forall (fun d => 0 <= d < b) ds.

(** No zero in the most significant place (the last of the list). *)
Fixpoint canonicalLE (ds : list Z) : Prop :=
  match ds with
  | [] => True
  | [d] => d <> 0
  | _ :: ds' => canonicalLE ds'
  end.

Lemma fold_value_app (b : Z) (ds : list Z) (acc : Z) :
  fold_left (fun a d => a * b + d) ds acc
  = valueLE b (rev ds) + acc * b ^ Z.of_nat (length ds).
Proof.
  revert acc. induction ds as [| d ds IH]; intros acc; cbn [fold_left rev length].
  - cbn. lia.
  - rewrite IH. clear IH.
    assert (Happ : forall l x, valueLE b (l ++ [x])
                               = valueLE b l + x * b ^ Z.of_nat (length l)).
    { induction l as [| y l IHl]; intros x; cbn [app valueLE length].
      - cbn. lia.
      - rewrite IHl, Nat2Z.inj_succ, Z.pow_succ_r by lia. ring. }
    rewrite Happ, length_rev, Nat2Z.inj_succ, Z.pow_succ_r by lia. ring.
Qed.

Lemma valueOf_LE (b : Z) (ds : list Z) : valueOf b ds = valueLE b (rev ds).
Proof. unfold valueOf. rewrite fold_value_app. lia. Qed.

Lemma valueLE_nonneg (b : Z) (ds : list Z) :
  0 < b -> digitsIn b ds -> 0 <= valueLE b ds.
Proof.
  intros Hb H. induction H as [| d ds Hd _ IH]; cbn [valueLE]; [lia | nia].
Qed.

Lemma valueLE_pos (b : Z) (ds : list Z) :
  0 < b -> digitsIn b ds -> canonicalLE ds -> ds <> [] -> 0 < valueLE b ds.
Proof.
  intros Hb H. induction H as [| d ds Hd Hds IH]; intros Hc Hne; [congruence |].
  cbn [valueLE]. destruct ds as [| e ds].
  - cbn in *. lia.
  - assert (0 < valueLE b (e :: ds)) by (apply IH; [exact Hc | discriminate]).
    nia.
Qed.

Lemma digitsLE_value (fuel : nat) (b n : Z) :
  2 <= b -> 0 <= n < 2 ^ Z.of_nat fuel -> valueLE b (digitsLE fuel b n) = n.
Proof.
  intros Hb. revert n. induction fuel as [| f IH]; intros n Hn.
  - cbn in *. lia.
  - cbn [digitsLE]. destruct (Z.leb_spec n 0) as [H0 | H0]; [cbn; lia |].
    cbn [valueLE]. rewrite IH.
    + pose proof (Z.div_mod n b). lia.
    + rewrite Nat2Z.inj_succ, Z.pow_succ_r in Hn by lia.
      split; [apply Z.div_pos; lia |].
      apply Z.div_lt_upper_bound; nia.
Qed.

Lemma digitsLE_range (fuel : nat) (b n : Z) :
  0 < b -> digitsIn b (digitsLE fuel b n).
Proof.
  intros Hb. revert n. induction fuel as [| f IH]; intros n; cbn [digitsLE].
  - constructor.
  - destruct (n <=? 0); constructor; [apply Z.mod_pos_bound; lia | apply IH].
Qed.

Lemma digitsLE_unique (fuel : nat) (b : Z) (ds : list Z) :
  2 <= b -> digitsIn b ds -> canonicalLE ds ->
  valueLE b ds < 2 ^ Z.of_nat fuel ->
  digitsLE fuel b (valueLE b ds) = ds.
Proof.
  intros Hb. revert ds. induction fuel as [| f IH]; intros ds Hds Hc Hlt.
  - destruct ds as [| d ds]; [reflexivity |].
    assert (0 < valueLE b (d :: ds))
      by (apply valueLE_pos; [lia | assumption | assumption | discriminate]).
    change (2 ^ Z.of_nat 0) with 1 in Hlt. lia.
  - destruct ds as [| d ds]; [reflexivity |].
    assert (Hpos : 0 < valueLE b (d :: ds))
      by (apply valueLE_pos; [lia | assumption | assumption | discriminate]).
    cbn [digitsLE]. destruct (Z.leb_spec (valueLE b (d :: ds)) 0); [lia |].
    cbn [valueLE] in *. inversion Hds as [| ? ? Hd Hds']; subst.
    assert (Hv : 0 <= valueLE b ds) by (apply valueLE_nonneg; [lia | assumption]).
    assert (Hmod : (d + b * valueLE b ds) mod b = d).
    { symmetry. apply Z.mod_unique with (q := valueLE b ds); lia. }
    assert (Hdiv : (d + b * valueLE b ds) / b = valueLE b ds).
    { symmetry. apply Z.div_unique with (r := d); lia. }
    rewrite Hmod, Hdiv. f_equal. apply IH.
    + assumption.
    + destruct ds; [exact I | exact Hc].
    + rewrite Nat2Z.inj_succ, Z.pow_succ_r in Hlt by lia. nia.
Qed.

(** Canonical big-endian digit lists: in range, no leading zero. *)
Definition canonical (b : Z) (ds : list Z) : Prop :=
  digitsIn b ds /\ canonicalLE (rev ds).

Lemma log2_fuel (n : Z) : 0 <= n -> n < 2 ^ Z.of_nat (S (Z.to_nat (Z.log2 n))).
Proof.
  intros Hn. rewrite Nat2Z.inj_succ, Z2Nat.id by apply Z.log2_nonneg.
  destruct (Z.eq_dec n 0) as [-> | Hne]; [cbn; lia |].
  apply Z.log2_spec. lia.
Qed.

Lemma digitsOf_value (b n : Z) :
  2 <= b -> 0 <= n -> valueOf b (digitsOf b n) = n.
Proof.
  intros Hb Hn. unfold digitsOf. rewrite valueOf_LE, rev_involutive.
  apply digitsLE_value; [exact Hb | split; [exact Hn | apply log2_fuel, Hn]].
Qed.

Lemma digitsOf_unique (b : Z) (ds : list Z) :
  2 <= b -> canonical b ds -> digitsOf b (valueOf b ds) = ds.
Proof.
  intros Hb [Hr Hc]. unfold digitsOf. rewrite valueOf_LE.
  assert (Hr' : digitsIn b (rev ds)) by (apply Forall_rev, Hr).
  rewrite digitsLE_unique; [apply rev_involutive | assumption .. |].
  apply log2_fuel, valueLE_nonneg; [lia | assumption].
Qed.

Lemma digitsLE_canonical (fuel : nat) (b n : Z) :
  2 <= b -> 0 <= n < 2 ^ Z.of_nat fuel -> canonicalLE (digitsLE fuel b n).
Proof.
  intros Hb. revert n. induction fuel as [| f IH]; intros n Hn; [exact I |].
  cbn [digitsLE]. destruct (Z.leb_spec n 0) as [H0 | H0]; [exact I |].
  assert (Hq : 0 <= n / b < 2 ^ Z.of_nat f).
  { rewrite Nat2Z.inj_succ, Z.pow_succ_r in Hn by lia.
    split; [apply Z.div_pos; lia | apply Z.div_lt_upper_bound; nia]. }
  specialize (IH (n / b) Hq).
  destruct (digitsLE f b (n / b)) as [| e ds] eqn:E; [| exact IH].
  cbn. assert (Hz : n / b = 0).
  { pose proof (digitsLE_value f b (n / b) Hb Hq) as Hv.
    rewrite E in Hv. cbn in Hv. lia. }
  pose proof (Z.div_mod n b). lia.
Qed.

Lemma digitsOf_canonical (b n : Z) : 2 <= b -> 0 <= n -> canonical b (digitsOf b n).
Proof.
  intros Hb Hn. unfold canonical, digitsOf. split.
  - apply Forall_rev, digitsLE_range. lia.
  - rewrite rev_involutive. apply digitsLE_canonical;
      [exact Hb | split; [exact Hn | apply log2_fuel, Hn]].
Qed.

Lemma canonicalLE_snoc (l : list Z) (d : Z) : d <> 0 -> canonicalLE (l ++ [d]).
Proof.
  intros Hd. induction l as [| x l IH]; [exact Hd |].
  cbn [app canonicalLE]. destruct (l ++ [d]) eqn:E; [| exact IH].
  destruct l; discriminate E.
Qed.

Lemma canonicalLE_snoc_inv (l : list Z) (d : Z) : canonicalLE (l ++ [d]) -> d <> 0.
Proof.
  induction l as [| x l IH]; [intros H; exact H |].
  cbn [app canonicalLE]. destruct (l ++ [d]) eqn:E; [| exact IH].
  destruct l; discriminate E.
Qed.

Lemma leadingZeros_repeat (z : nat) (ds : list Z) :
  leadingZeros ds = O -> leadingZeros (repeat 0 z ++ ds) = z.
Proof. intros H. induction z as [| z IH]; cbn; [exact H | f_equal; exact IH]. Qed.

Lemma leadingZeros_canonical (b : Z) (ds : list Z) :
  canonical b ds -> leadingZeros ds = O.
Proof.
  intros [_ Hc]. destruct ds as [| d ds]; [reflexivity |].
  cbn [rev] in Hc. apply canonicalLE_snoc_inv in Hc.
  cbn. destruct (Z.eqb_spec d 0); [contradiction | reflexivity].
Qed.

Lemma valueOf_repeat (b : Z) (z : nat) (ds : list Z) :
  valueOf b (repeat 0 z ++ ds) = valueOf b ds.
Proof.
  unfold valueOf. induction z as [| z IH]; [reflexivity |].
  cbn [repeat app fold_left]. exact IH.
Qed.

(** A buffer is its leading zeros followed by a canonical base-256 numeral. *)
Lemma buffer_split (buffer : bytes) :
  digitsIn 256 buffer ->
  exists rest, buffer = repeat 0 (leadingZeros buffer) ++ rest
               /\ canonical 256 rest.
Proof.
  intros H. induction H as [| d ds Hd Hds IH].
  - exists []. repeat split. constructor.
  - cbn [leadingZeros]. destruct (Z.eqb_spec d 0) as [-> | Hne].
    + destruct IH as (rest & E & Hc). exists rest. split; [| exact Hc].
      cbn [repeat app]. f_equal. exact E.
    + exists (d :: ds). repeat split.
      * constructor; assumption.
      * cbn [rev]. apply canonicalLE_snoc, Hne.
Qed.

Lemma decodeChar_encodeChar (d : Z) :
  0 <= d < 58 -> decodeChar (encodeChar d) = Some d.
Proof.
  intros Hd. rewrite <- (Z2Nat.id d) by lia.
  assert (Hn : (Z.to_nat d < 58)%nat) by lia.
  generalize dependent (Z.to_nat d). clear d Hd. intros n Hn.
  do 58 (destruct n as [| n]; [reflexivity |]). lia.
Qed.

Lemma decodeChars_encoded (ds : list Z) :
  digitsIn 58 ds -> decodeChars (map encodeChar ds) = Some ds.
Proof.
  intros H. induction H as [| d ds Hd _ IH]; [reflexivity |].
  cbn [map decodeChars]. rewrite decodeChar_encodeChar, IH by exact Hd.
  reflexivity.
Qed.

Lemma decodeChars_ones (z : nat) (s : jsstring) (ds : list Z) :
  decodeChars s = Some ds ->
  decodeChars (repeat 49 z ++ s) = Some (repeat 0 z ++ ds).
Proof.
  intros H. induction z as [| z IH]; [exact H |].
  cbn [repeat app decodeChars]. rewrite IH. reflexivity.
Qed.

(** Decoding inverts encoding on every buffer. *)
Lemma b58_decode_encode (buffer : bytes) :
  digitsIn 256 buffer -> decode (encode buffer) = Some buffer.
Proof.
  intros Hb. destruct (buffer_split buffer Hb) as (rest & E & Hrest).
  assert (Hn : 0 <= valueOf 256 buffer).
  { rewrite valueOf_LE. apply valueLE_nonneg; [lia | apply Forall_rev, Hb]. }
  pose proof (digitsOf_canonical 58 (valueOf 256 buffer) ltac:(lia) Hn) as Hc.
  unfold decode, encode.
  rewrite (decodeChars_ones _ _ _ (decodeChars_encoded _ (proj1 Hc))).
  rewrite leadingZeros_repeat by (apply leadingZeros_canonical with 58, Hc).
  rewrite valueOf_repeat, digitsOf_value by lia.
  rewrite E at 2. rewrite valueOf_repeat.
  rewrite digitsOf_unique by (lia || exact Hrest).
  rewrite <- E. reflexivity.
Qed.

End Base58.

(** ** UTF-8: [Buffer.from(s, 'utf8')] and [buf.toString('utf8')] *)

Module Utf8.

(** High and low surrogate code units. *)
Definition isHigh (c : Z) : bool := (55296 <=? c) && (c <=? 56319).
Definition isLow (c : Z) : bool := (56320 <=? c) && (c <=? 57343).

(** The encoding of U+FFFD, written for a surrogate without its partner. *)
Definition REPLACEMENT : bytes := [239; 191; 189].

Definition encodeScalar (cp : Z) : bytes :=
  if cp <? 128 then [cp]
  else if cp <? 2048 then [192 + cp / 64; 128 + cp mod 64]
  else if cp <? 65536 then
    [224 + cp / 64 / 64; 128 + (cp / 64) mod 64; 128 + cp mod 64]
  else
    [240 + cp / 64 / 64 / 64; 128 + (cp / 64 / 64) mod 64;
     128 + (cp / 64) mod 64; 128 + cp mod 64].

(** [Buffer.from(s, 'utf8')]. *)
Fixpoint encode (s : jsstring) : bytes :=
  match s with
  | [] => []
  | c :: s' =>
      if isHigh c then
        match s' with
        | lo :: s'' =>
            if isLow lo
            then encodeScalar (65536 + (c - 55296) * 1024 + (lo - 56320))
                 ++ encode s''
            else REPLACEMENT ++ encode s'
        | [] => REPLACEMENT
        end
      else if isLow c then REPLACEMENT ++ encode s'
      else encodeScalar c ++ encode s'
  end.

Definition isCont (b : Z) : bool := (128 <=? b) && (b <=? 191).

Definition between (lo hi b : Z) : bool := (lo <=? b) && (b <=? hi).

(** The code units of a code point. *)
Definition unitsOf (cp : Z) : jsstring :=
  if cp <? 65536 then [cp]
  else [55296 + (cp - 65536) / 1024; 56320 + (cp - 65536) mod 1024].

(** [buf.toString('utf8')]: an ill-formed sequence decodes to U+FFFD and
    decoding resumes at the octet that broke it. *)
Fixpoint decode (bs : bytes) : jsstring :=
  match bs with
  | [] => []
  | b0 :: r0 =>
      if b0 <? 128 then b0 :: decode r0
      else if between 194 223 b0 then
        match r0 with
        | b1 :: r1 =>
            if isCont b1
            then ((b0 - 192) * 64 + (b1 - 128)) :: decode r1
            else 65533 :: decode r0
        | [] => [65533]
        end
      else if between 224 239 b0 then
        match r0 with
        | b1 :: r1 =>
            if between (if b0 =? 224 then 160 else 128)
                       (if b0 =? 237 then 159 else 191) b1
            then
              match r1 with
              | b2 :: r2 =>
                  if isCont b2
                  then (((b0 - 224) * 64 + (b1 - 128)) * 64 + (b2 - 128))
                       :: decode r2
                  else 65533 :: decode r1
              | [] => [65533]
              end
            else 65533 :: decode r0
        | [] => [65533]
        end
      else if between 240 244 b0 then
        match r0 with
        | b1 :: r1 =>
            if between (if b0 =? 240 then 144 else 128)
                       (if b0 =? 244 then 143 else 191) b1
            then
              match r1 with
              | b2 :: r2 =>
                  if isCont b2
                  then
                    match r2 with
                    | b3 :: r3 =>
                        if isCont b3
                        then unitsOf ((((b0 - 240) * 64 + (b1 - 128)) * 64
                                       + (b2 - 128)) * 64 + (b3 - 128))
                             ++ decode r3
                        else 65533 :: decode r2
                    | [] => [65533]
                    end
                  else 65533 :: decode r1
              | [] => [65533]
              end
            else 65533 :: decode r0
        | [] => [65533]
        end
      else 65533 :: decode r0
  end.

(** A string without an unpaired surrogate. *)
Inductive WellFormed : jsstring -> Prop :=
| wf_empty : WellFormed []
| wf_unit (c : Z) (s : jsstring) :
    0 <= c < 65536 -> isHigh c = false -> isLow c = false ->
    WellFormed s -> WellFormed (c :: s)
| wf_pair (hi lo : Z) (s : jsstring) :
    isHigh hi = true -> isLow lo = true ->
    WellFormed s -> WellFormed (hi :: lo :: s).

(** The same as a test. *)
Fixpoint wellFormedb (s : jsstring) : bool :=
  match s with
  | [] => true
  | c :: s' =>
      if isHigh c then
        match s' with
        | lo :: s'' => isLow lo && wellFormedb s''
        | [] => false
        end
      else negb (isLow c) && (0 <=? c) && (c <? 65536) && wellFormedb s'
  end.

Lemma wellFormedb_sound (s : jsstring) : wellFormedb s = true -> WellFormed s.
Proof.
  enough (H : (wellFormedb s = true -> WellFormed s)
              /\ (forall c, wellFormedb (c :: s) = true -> WellFormed (c :: s)))
    by exact (proj1 H).
  induction s as [| d s [IH1 IH2]].
  - split; [constructor |]. intros c. cbn [wellFormedb].
    destruct (isHigh c) eqn:Hh; [discriminate |].
    rewrite !andb_true_iff, negb_true_iff, Z.leb_le, Z.ltb_lt.
    intros [[[Hl H0] H1] _]. apply wf_unit; auto using wf_empty with zarith.
  - split; [apply IH2 |]. intros c. cbn [wellFormedb].
    destruct (isHigh c) eqn:Hh.
    + rewrite andb_true_iff. intros [Hl Hs]. apply wf_pair; auto.
    + fold (wellFormedb (d :: s)).
      rewrite !andb_true_iff, negb_true_iff, Z.leb_le, Z.ltb_lt.
      intros [[[Hl H0] H1] Hs]. apply wf_unit; auto with zarith.
Qed.

Example encode_kanji :
  encode [26085; 26412; 35486] = [230; 151; 165; 230; 156; 172; 232; 170; 158].
Proof. reflexivity. Qed.

Example decode_kanji :
  decode [230; 151; 165; 230; 156; 172; 232; 170; 158] = [26085; 26412; 35486].
Proof. reflexivity. Qed.

Example encode_emoji : encode [55357; 56832] = [240; 159; 152; 128].
Proof. reflexivity. Qed.

Example decode_emoji : decode [240; 159; 152; 128] = [55357; 56832].
Proof. reflexivity. Qed.

Example encode_lone_surrogate : encode [55296] = [239; 191; 189].
Proof. reflexivity. Qed.

Example decode_replacement : decode [239; 191; 189] = [65533].
Proof. reflexivity. Qed.

(** *** Decoding inverts encoding on well-formed strings *)

Lemma split64 (n : Z) :
  0 <= n ->
  exists q r, n / 64 = q /\ n mod 64 = r /\ n = 64 * q + r
              /\ 0 <= r < 64 /\ 0 <= q.
Proof.
  intros Hn. exists (n / 64), (n mod 64).
  pose proof (Z.div_mod n 64). pose proof (Z.mod_pos_bound n 64).
  assert (0 <= n / 64) by (apply Z.div_pos; lia).
  repeat split; lia.
Qed.

(** Settle every comparison of the goal by linear arithmetic. *)
Ltac settle_tests :=
  unfold between, isCont;
  repeat match goal with
    | |- context [?a <? ?b] =>
        first [ replace (a <? b) with true by (symmetry; apply Z.ltb_lt; lia)
              | replace (a <? b) with false by (symmetry; apply Z.ltb_ge; lia) ]
    | |- context [?a <=? ?b] =>
        first [ replace (a <=? b) with true by (symmetry; apply Z.leb_le; lia)
              | replace (a <=? b) with false by (symmetry; apply Z.leb_gt; lia) ]
    | |- context [?a =? ?b] =>
        first [ replace (a =? b) with true by (symmetry; apply Z.eqb_eq; lia)
              | replace (a =? b) with false by (symmetry; apply Z.eqb_neq; lia)
              | destruct (Z.eqb_spec a b) ]
    end;
  cbn [andb orb negb].

Lemma decode_ascii (cp : Z) (rest : bytes) :
  0 <= cp < 128 -> decode (encodeScalar cp ++ rest) = unitsOf cp ++ decode rest.
Proof.
  intros H. unfold encodeScalar, unitsOf. settle_tests.
  cbn [app decode]. settle_tests. reflexivity.
Qed.

Lemma decode_two (cp : Z) (rest : bytes) :
  128 <= cp < 2048 -> decode (encodeScalar cp ++ rest) = unitsOf cp ++ decode rest.
Proof.
  intros H. unfold encodeScalar, unitsOf. settle_tests.
  destruct (split64 cp) as (q & r & -> & -> & E & Hr & Hq); [lia |].
  cbn [app decode]. settle_tests. f_equal. lia.
Qed.

Lemma decode_three (cp : Z) (rest : bytes) :
  2048 <= cp < 65536 -> ~ (55296 <= cp <= 57343) ->
  decode (encodeScalar cp ++ rest) = unitsOf cp ++ decode rest.
Proof.
  intros H Hs. unfold encodeScalar, unitsOf. settle_tests.
  destruct (split64 cp) as (q1 & r1 & -> & -> & E1 & Hr1 & Hq1); [lia |].
  destruct (split64 q1) as (q2 & r2 & -> & -> & E2 & Hr2 & Hq2); [lia |].
  assert (Hb0 : 0 <= q2 <= 15) by lia.
  assert (Hlo : q2 = 0 -> 32 <= r2) by lia.
  assert (Hhi : q2 = 13 -> r2 <= 31) by lia.
  assert (Ecp : (q2 * 64 + r2) * 64 + r1 = cp) by lia.
  clear H Hs E1 E2 Hq1 Hq2.
  cbn [app decode].
  replace (224 + q2 <? 128) with false by (symmetry; apply Z.ltb_ge; lia).
  replace (between 194 223 (224 + q2)) with false
    by (unfold between; symmetry; apply andb_false_iff; right; apply Z.leb_gt; lia).
  replace (between 224 239 (224 + q2)) with true
    by (unfold between; symmetry; apply andb_true_iff; split; apply Z.leb_le; lia).
  replace (isCont (128 + r1)) with true
    by (unfold isCont; symmetry; apply andb_true_iff; split; apply Z.leb_le; lia).
  replace (between (if 224 + q2 =? 224 then 160 else 128)
                   (if 224 + q2 =? 237 then 159 else 191) (128 + r2)) with true.
  - rewrite <- Ecp. f_equal. lia.
  - unfold between. symmetry. apply andb_true_iff.
    destruct (Z.eqb_spec (224 + q2) 224), (Z.eqb_spec (224 + q2) 237);
      split; apply Z.leb_le; lia.
Qed.

Lemma decode_four (cp : Z) (rest : bytes) :
  65536 <= cp < 1114112 ->
  decode (encodeScalar cp ++ rest) = unitsOf cp ++ decode rest.
Proof.
  intros H. unfold encodeScalar. settle_tests.
  destruct (split64 cp) as (q1 & r1 & -> & -> & E1 & Hr1 & Hq1); [lia |].
  destruct (split64 q1) as (q2 & r2 & -> & -> & E2 & Hr2 & Hq2); [lia |].
  destruct (split64 q2) as (q3 & r3 & -> & -> & E3 & Hr3 & Hq3); [lia |].
  assert (Hb0 : 0 <= q3 <= 4) by lia.
  assert (Hlo : q3 = 0 -> 16 <= r3) by lia.
  assert (Hhi : q3 = 4 -> r3 <= 15) by lia.
  assert (Ecp : ((q3 * 64 + r3) * 64 + r2) * 64 + r1 = cp) by lia.
  clear H E1 E2 E3 Hq1 Hq2 Hq3.
  cbn [app decode].
  replace (240 + q3 <? 128) with false by (symmetry; apply Z.ltb_ge; lia).
  replace (between 194 223 (240 + q3)) with false
    by (unfold between; symmetry; apply andb_false_iff; right; apply Z.leb_gt; lia).
  replace (between 224 239 (240 + q3)) with false
    by (unfold between; symmetry; apply andb_false_iff; right; apply Z.leb_gt; lia).
  replace (between 240 244 (240 + q3)) with true
    by (unfold between; symmetry; apply andb_true_iff; split; apply Z.leb_le; lia).
  replace (isCont (128 + r2)) with true
    by (unfold isCont; symmetry; apply andb_true_iff; split; apply Z.leb_le; lia).
  replace (isCont (128 + r1)) with true
    by (unfold isCont; symmetry; apply andb_true_iff; split; apply Z.leb_le; lia).
  replace (between (if 240 + q3 =? 240 then 144 else 128)
                   (if 240 + q3 =? 244 then 143 else 191) (128 + r3)) with true.
  - rewrite <- Ecp. do 2 f_equal. lia.
  - unfold between. symmetry. apply andb_true_iff.
    destruct (Z.eqb_spec (240 + q3) 240), (Z.eqb_spec (240 + q3) 244);
      split; apply Z.leb_le; lia.
Qed.

Lemma unitsOf_pair (hi lo : Z) :
  isHigh hi = true -> isLow lo = true ->
  unitsOf (65536 + (hi - 55296) * 1024 + (lo - 56320)) = [hi; lo].
Proof.
  unfold isHigh, isLow. intros Hh Hl.
  apply andb_true_iff in Hh as [Hh1 Hh2]. apply andb_true_iff in Hl as [Hl1 Hl2].
  apply Z.leb_le in Hh1, Hh2, Hl1, Hl2.
  unfold unitsOf. settle_tests.
  assert (Hq : (65536 + (hi - 55296) * 1024 + (lo - 56320) - 65536) / 1024
               = hi - 55296)
    by (symmetry; apply Z.div_unique with (r := lo - 56320); lia).
  assert (Hr : (65536 + (hi - 55296) * 1024 + (lo - 56320) - 65536) mod 1024
               = lo - 56320)
    by (symmetry; apply Z.mod_unique with (q := hi - 55296); lia).
  rewrite Hq, Hr. f_equal; [lia | f_equal; lia].
Qed.

Lemma utf8_decode_encode (s : jsstring) :
  WellFormed s -> decode (encode s) = s.
Proof.
  induction 1 as [| c s Hc Hh Hl _ IH | hi lo s Hh Hl _ IH]; [reflexivity | |].
  - cbn [encode]. rewrite Hh, Hl.
    assert (Hns : ~ (55296 <= c <= 57343)).
    { unfold isHigh, isLow in Hh, Hl. intros Hs.
      destruct (Z.leb_spec 55296 c), (Z.leb_spec c 56319),
        (Z.leb_spec 56320 c), (Z.leb_spec c 57343); cbn in Hh, Hl;
        try discriminate; lia. }
    assert (Hu : unitsOf c = [c]) by (unfold unitsOf; settle_tests; reflexivity).
    assert (Hd : decode (encodeScalar c ++ encode s) = unitsOf c ++ decode (encode s)).
    { destruct (Z.lt_ge_cases c 128); [apply decode_ascii; lia |].
      destruct (Z.lt_ge_cases c 2048); [apply decode_two; lia |].
      apply decode_three; [lia | exact Hns]. }
    rewrite Hd, Hu, IH. reflexivity.
  - cbn [encode]. rewrite Hh, Hl.
    rewrite decode_four;
      [rewrite unitsOf_pair by assumption; rewrite IH; reflexivity |].
    unfold isHigh, isLow in Hh, Hl.
    apply andb_true_iff in Hh as [Hh1 Hh2]. apply andb_true_iff in Hl as [Hl1 Hl2].
    apply Z.leb_le in Hh1, Hh2, Hl1, Hl2. lia.
Qed.

(** The encoder writes octets. *)
Lemma encodeScalar_octets (cp : Z) :
  0 <= cp < 1114112 -> Forall (fun b => 0 <= b < 256) (encodeScalar cp).
Proof.
  intros H. unfold encodeScalar.
  destruct (split64 cp) as (q1 & r1 & -> & -> & E1 & Hr1 & Hq1); [lia |].
  destruct (split64 q1) as (q2 & r2 & -> & -> & E2 & Hr2 & Hq2); [lia |].
  destruct (split64 q2) as (q3 & r3 & -> & -> & E3 & Hr3 & Hq3); [lia |].
  destruct (Z.ltb_spec cp 128); [repeat constructor; lia |].
  destruct (Z.ltb_spec cp 2048); [repeat constructor; lia |].
  destruct (Z.ltb_spec cp 65536); repeat constructor; lia.
Qed.

Lemma encode_octets (s : jsstring) :
  WellFormed s -> Forall (fun b => 0 <= b < 256) (encode s).
Proof.
  induction 1 as [| c s Hc Hh Hl _ IH | hi lo s Hh Hl _ IH]; [constructor | |].
  - cbn [encode]. rewrite Hh, Hl. apply Forall_app. split; [| exact IH].
    apply encodeScalar_octets. lia.
  - cbn [encode]. rewrite Hh, Hl. apply Forall_app. split; [| exact IH].
    apply encodeScalar_octets.
    unfold isHigh, isLow in Hh, Hl.
    apply andb_true_iff in Hh as [Hh1 Hh2]. apply andb_true_iff in Hl as [Hl1 Hl2].
    apply Z.leb_le in Hh1, Hh2, Hl1, Hl2. lia.
Qed.

End Utf8.

(** ** utils.ts: proxied URL tokens *)

Module UrlCodec.

Definition base58Enc (value : jsstring) : jsstring :=
  Base58.encode (Utf8.encode value).

(** [None] is the error [fromB58String] throws. *)
Definition base58Dec (value : jsstring) : option jsstring :=
  option_map Utf8.decode (Base58.decode value).

Fixpoint dropSlashes (s : jsstring) : jsstring :=
  match s with
  | c :: s' => if c =? 47 then dropSlashes s' else s
  | [] => []
  end.

(** [s.replace(/\/+$/, '')]. *)
Definition stripTrailingSlashes (s : jsstring) : jsstring :=
  rev (dropSlashes (rev s)).

Example base58Enc_example :
  base58Enc (lit "https://example.com/image.jpg")
  = lit "5k2tWE6P7gjtG9og3eA1nP8mr8JxG35bvjZA5eqc".
Proof. vm_compute. reflexivity. Qed.

Example base58_unicode_roundtrip :
  base58Dec (base58Enc (lit "https://example.com/image-" ++ [26085; 26412; 35486]
                        ++ lit ".jpg"))
  = Some (lit "https://example.com/image-" ++ [26085; 26412; 35486] ++ lit ".jpg").
Proof. vm_compute. reflexivity. Qed.

Section Urls.

(** The WHATWG URL class of Node: [url_parse s] is [new URL(s)], with [None]
    for the [TypeError] of an invalid URL, and [url_href u] is
    [u.toString()]. *)
Variable URL : Type.
Variable url_parse : jsstring -> option URL.
Variable url_href : URL -> jsstring.

(** The configured [service_url]. *)
Variable SERVICE_BASE_URL : jsstring.

(** [None] is an exception leaving the function. *)
Definition parseProxiedUrl (value : jsstring) : option URL :=
  let attempt :=
    match base58Dec value with
    | Some decoded => url_parse (stripTrailingSlashes decoded)
    | None => None
    end in
  match attempt with
  | Some url => Some url
  | None => url_parse (Constants.DEFAULT_FALLBACK_IMAGE_URL SERVICE_BASE_URL)
  end.

Lemma base58Dec_base58Enc (S : jsstring) :
  Utf8.WellFormed S -> base58Dec (base58Enc S) = Some S.
Proof.
  intros H. unfold base58Dec, base58Enc.
  rewrite Base58.b58_decode_encode by (apply Utf8.encode_octets, H).
  cbn [option_map]. rewrite Utf8.utf8_decode_encode by exact H. reflexivity.
Qed.

(** C5, as stated, fails: a string holding a surrogate without its partner
    comes back as U+FFFD. *)
Lemma base58_roundtrip_lone_surrogate :
  base58Dec (base58Enc [55296]) = Some [65533]
  /\ base58Dec (base58Enc [55296]) <> Some [55296].
Proof. split; [reflexivity | intros H; vm_compute in H; discriminate H]. Qed.

(** C5, amended. Every well-formed string (one without an unpaired
    surrogate) survives the base58 round trip, and the token of a URL's
    serialisation parses to the URL that serialisation denotes once its
    trailing slashes are trimmed. *)
Theorem base58_roundtrip :
  (forall S, Utf8.WellFormed S -> base58Dec (base58Enc S) = Some S)
  /\ (forall U U',
        Utf8.WellFormed (url_href U) ->
        url_parse (stripTrailingSlashes (url_href U)) = Some U' ->
        parseProxiedUrl (base58Enc (url_href U)) = Some U').
Proof.
  split; [exact base58Dec_base58Enc |].
  intros U U' Hwf Hparse. unfold parseProxiedUrl.
  rewrite base58Dec_base58Enc by exact Hwf. rewrite Hparse. reflexivity.
Qed.

(** C6. With a configured fallback URL that parses, [parseProxiedUrl]
    returns a URL for every input, and it is the fallback whenever the token
    is not base58 or its decoded form is not a URL. *)
Theorem parseProxiedUrl_never_raises (fallback : URL) (value : jsstring) :
  url_parse (Constants.DEFAULT_FALLBACK_IMAGE_URL SERVICE_BASE_URL)
  = Some fallback ->
  (exists url, parseProxiedUrl value = Some url)
  /\ (base58Dec value = None -> parseProxiedUrl value = Some fallback)
  /\ (forall decoded,
        base58Dec value = Some decoded ->
        url_parse (stripTrailingSlashes decoded) = None ->
        parseProxiedUrl value = Some fallback).
Proof.
  intros Hcfg. unfold parseProxiedUrl. repeat split.
  - destruct (base58Dec value) as [decoded |]; [| eauto].
    destruct (url_parse (stripTrailingSlashes decoded)); eauto.
  - intros ->. exact Hcfg.
  - intros decoded -> ->. exact Hcfg.
Qed.

End Urls.

(** A stand-in for the URL class, enough to run the functions above: the
    URLs are the strings with an http or https scheme, unchanged. *)
Definition schemeOnly (s : jsstring) : option jsstring :=
  if startsWith s (lit "https://") || startsWith s (lit "http://")
  then Some s else None.

Definition ecency : jsstring := lit "https://images.ecency.com".

Example parseProxiedUrl_decodes :
  parseProxiedUrl jsstring schemeOnly ecency
    (base58Enc (lit "https://example.com/image.jpg"))
  = Some (lit "https://example.com/image.jpg").
Proof. vm_compute. reflexivity. Qed.

Lemma base58_roundtrip_witness :
  base58Dec (base58Enc (lit "https://example.com/image.jpg"))
  = Some (lit "https://example.com/image.jpg")
  /\ parseProxiedUrl jsstring schemeOnly ecency
       (base58Enc (lit "https://example.com/image.jpg///"))
     = Some (lit "https://example.com/image.jpg").
Proof.
  destruct (base58_roundtrip jsstring schemeOnly (fun u => u) ecency)
    as [Hstr Hurl].
  split.
  - apply Hstr. apply Utf8.wellFormedb_sound. vm_compute. reflexivity.
  - apply (Hurl (lit "https://example.com/image.jpg///")).
    + apply Utf8.wellFormedb_sound. vm_compute. reflexivity.
    + vm_compute. reflexivity.
Defined.

Lemma parseProxiedUrl_never_raises_witness :
  parseProxiedUrl jsstring schemeOnly ecency (lit "not-valid-base58!!!")
  = Some (Constants.DEFAULT_FALLBACK_IMAGE_URL ecency)
  /\ parseProxiedUrl jsstring schemeOnly ecency (base58Enc (lit "not a url"))
     = Some (Constants.DEFAULT_FALLBACK_IMAGE_URL ecency).
Proof.
  split.
  - destruct (parseProxiedUrl_never_raises jsstring schemeOnly ecency
                (Constants.DEFAULT_FALLBACK_IMAGE_URL ecency)
                (lit "not-valid-base58!!!")) as (_ & Hdec & _).
    + vm_compute. reflexivity.
    + apply Hdec. vm_compute. reflexivity.
  - destruct (parseProxiedUrl_never_raises jsstring schemeOnly ecency
                (Constants.DEFAULT_FALLBACK_IMAGE_URL ecency)
                (base58Enc (lit "not a url"))) as (_ & _ & Hurl).
    + vm_compute. reflexivity.
    + apply (Hurl (lit "not a url")); vm_compute; reflexivity.
Defined.

End UrlCodec.

(** ** SHA-256 ([createHash('sha256')]) and the multihash framing *)

Module Sha256.

(** The round constants. *)
Definition K : list Z :=
  [
    1116352408; 1899447441; 3049323471; 3921009573; 961987163; 1508970993;
    2453635748; 2870763221; 3624381080; 310598401; 607225278; 1426881987;
    1925078388; 2162078206; 2614888103; 3248222580; 3835390401; 4022224774;
    264347078; 604807628; 770255983; 1249150122; 1555081692; 1996064986;
    2554220882; 2821834349; 2952996808; 3210313671; 3336571891; 3584528711;
    113926993; 338241895; 666307205; 773529912; 1294757372; 1396182291;
    1695183700; 1986661051; 2177026350; 2456956037; 2730485921; 2820302411;
    3259730800; 3345764771; 3516065817; 3600352804; 4094571909; 275423344;
    430227734; 506948616; 659060556; 883997877; 958139571; 1322822218;
    1537002063; 1747873779; 1955562222; 2024104815; 2227730452; 2361852424;
    2428436474; 2756734187; 3204031479; 3329325298 ].

(** The initial hash value. *)
Definition H0 : list Z :=
  [
    1779033703; 3144134277; 1013904242; 2773480762;
    1359893119; 2600822924; 528734635; 1541459225 ].

Definition word (x : Z) : Z := x mod 4294967296.

Definition add32 (x y : Z) : Z := word (x + y).

Definition rotr (n x : Z) : Z :=
  Z.lor (Z.shiftr x n) (word (Z.shiftl x (32 - n))).

Definition not32 (x : Z) : Z := 4294967295 - x.

Definition Ch (x y z : Z) : Z := Z.lxor (Z.land x y) (Z.land (not32 x) z).

Definition Maj (x y z : Z) : Z :=
  Z.lxor (Z.lxor (Z.land x y) (Z.land x z)) (Z.land y z).

Definition Sigma0 (x : Z) : Z := Z.lxor (Z.lxor (rotr 2 x) (rotr 13 x)) (rotr 22 x).
Definition Sigma1 (x : Z) : Z := Z.lxor (Z.lxor (rotr 6 x) (rotr 11 x)) (rotr 25 x).
Definition sigma0 (x : Z) : Z := Z.lxor (Z.lxor (rotr 7 x) (rotr 18 x)) (Z.shiftr x 3).
Definition sigma1 (x : Z) : Z := Z.lxor (Z.lxor (rotr 17 x) (rotr 19 x)) (Z.shiftr x 10).

(** Big-endian words of a block of octets. *)
Fixpoint wordsOf (block : bytes) : list Z :=
  match block with
  | a :: b :: c :: d :: rest =>
      (((a * 256 + b) * 256 + c) * 256 + d) :: wordsOf rest
  | _ => []
  end.

(** The big-endian octets of a number, [n] of them. *)
Fixpoint octetsOf (n : nat) (x : Z) : bytes :=
  match n with
  | O => []
  | S n' => octetsOf n' (x / 256) ++ [x mod 256]
  end.

(** The message schedule, latest word first: one more word. *)
Definition extend (ws : list Z) : list Z :=
  add32 (add32 (sigma1 (nth 1 ws 0)) (nth 6 ws 0))
        (add32 (sigma0 (nth 14 ws 0)) (nth 15 ws 0)) :: ws.

Definition schedule (block : list Z) : list Z :=
  rev (Nat.iter 48 extend (rev block)).

Record Regs := { ra : Z; rb : Z; rc : Z; rd : Z; re : Z; rf : Z; rg : Z; rh : Z }.

Definition round (s : Regs) (kw : Z * Z) : Regs :=
  let t1 := add32 (add32 (add32 (rh s) (Sigma1 (re s)))
                         (add32 (Ch (re s) (rf s) (rg s)) (fst kw))) (snd kw) in
  let t2 := add32 (Sigma0 (ra s)) (Maj (ra s) (rb s) (rc s)) in
  {| ra := add32 t1 t2; rb := ra s; rc := rb s; rd := rc s;
     re := add32 (rd s) t1; rf := re s; rg := rf s; rh := rg s |}.

Definition regsOf (h : list Z) : Regs :=
  {| ra := nth 0 h 0; rb := nth 1 h 0; rc := nth 2 h 0; rd := nth 3 h 0;
     re := nth 4 h 0; rf := nth 5 h 0; rg := nth 6 h 0; rh := nth 7 h 0 |}.

Definition compress (h : list Z) (block : bytes) : list Z :=
  let s := fold_left round (combine K (schedule (wordsOf block))) (regsOf h) in
  [ add32 (nth 0 h 0) (ra s); add32 (nth 1 h 0) (rb s);
    add32 (nth 2 h 0) (rc s); add32 (nth 3 h 0) (rd s);
    add32 (nth 4 h 0) (re s); add32 (nth 5 h 0) (rf s);
    add32 (nth 6 h 0) (rg s); add32 (nth 7 h 0) (rh s) ].

(** The message followed by the bit 1, zeros, and its length in bits, up
    to a multiple of 64 octets. *)
Definition pad (message : bytes) : bytes :=
  let len := Z.of_nat (length message) in
  let zeros := Z.to_nat ((55 - len) mod 64) in
  message ++ [128] ++ repeat 0 zeros ++ octetsOf 8 (len * 8).

Fixpoint blocks (fuel : nat) (h : list Z) (data : bytes) : list Z :=
  match fuel with
  | O => h
  | S f =>
      match data with
      | [] => h
      | _ => blocks f (compress h (firstn 64 data)) (skipn 64 data)
      end
  end.

(** [createHash('sha256').update(message).digest()]. *)
Definition sha256 (message : bytes) : bytes :=
  let data := pad message in
  flat_map (octetsOf 4) (blocks (length data) H0 data).

Example sha256_empty :
  sha256 [] = [227; 176; 196; 66; 152; 252; 28; 20; 154; 251; 244; 200; 153; 111; 185; 36; 39; 174; 65; 228; 100; 155; 147; 76; 164; 149; 153; 27; 120; 82; 184; 85].
Proof. vm_compute. reflexivity. Qed.

Example sha256_abc :
  sha256 (lit "abc") = [186; 120; 22; 191; 143; 1; 207; 234; 65; 65; 64; 222; 93; 174; 34; 35; 176; 3; 97; 163; 150; 23; 122; 156; 180; 16; 255; 97; 242; 0; 21; 173].
Proof. vm_compute. reflexivity. Qed.

Example sha256_two_blocks :
  sha256 (lit "abcdbcdecdefdefgefghfghighijhijkijkljklmklmnlmnomnopnopq")
  = [36; 141; 106; 97; 210; 6; 56; 184; 229; 192; 38; 147; 12; 62; 96; 57; 163; 60; 228; 89; 100; 255; 33; 103; 246; 236; 237; 212; 25; 219; 6; 193].
Proof. vm_compute. reflexivity. Qed.

(** [multihash.encode(digest, 'sha2-256')]: the code 0x12, the length of the
    digest, the digest. *)
Definition multihash_sha2_256 (digest : bytes) : bytes :=
  18 :: Z.of_nat (length digest) :: digest.

End Sha256.

(** ** SHA-1, as proxy.ts takes it of the URL to fetch *)

Module Sha1.

Import Sha256.

Definition H0 : list Z :=
  [ 1732584193; 4023233417; 2562383102; 271733878; 3285377520 ].

Definition rotl (n x : Z) : Z := rotr (32 - n) x.

(** The message schedule, latest word first: one more word. *)
Definition extend (ws : list Z) : list Z :=
  rotl 1 (Z.lxor (Z.lxor (nth 2 ws 0) (nth 7 ws 0))
                 (Z.lxor (nth 13 ws 0) (nth 15 ws 0))) :: ws.

Definition schedule (block : list Z) : list Z :=
  rev (Nat.iter 64 extend (rev block)).

Definition f (t : nat) (b c d : Z) : Z :=
  if (t <? 20)%nat then Z.lor (Z.land b c) (Z.land (not32 b) d)
  else if (t <? 40)%nat then Z.lxor (Z.lxor b c) d
  else if (t <? 60)%nat then Z.lor (Z.lor (Z.land b c) (Z.land b d)) (Z.land c d)
  else Z.lxor (Z.lxor b c) d.

Definition k (t : nat) : Z :=
  if (t <? 20)%nat then 1518500249
  else if (t <? 40)%nat then 1859775393
  else if (t <? 60)%nat then 2400959708
  else 3395469782.

Record Regs := { ra : Z; rb : Z; rc : Z; rd : Z; re : Z }.

Definition round (s : Regs) (tw : nat * Z) : Regs :=
  let temp := add32 (add32 (add32 (rotl 5 (ra s)) (f (fst tw) (rb s) (rc s) (rd s)))
                           (add32 (re s) (k (fst tw)))) (snd tw) in
  {| ra := temp; rb := ra s; rc := rotl 30 (rb s); rd := rc s; re := rd s |}.

Definition regsOf (h : list Z) : Regs :=
  {| ra := nth 0 h 0; rb := nth 1 h 0; rc := nth 2 h 0; rd := nth 3 h 0;
     re := nth 4 h 0 |}.

Definition compress (h : list Z) (block : bytes) : list Z :=
  let s := fold_left round (combine (seq 0 80) (schedule (wordsOf block)))
                     (regsOf h) in
  [ add32 (nth 0 h 0) (ra s); add32 (nth 1 h 0) (rb s);
    add32 (nth 2 h 0) (rc s); add32 (nth 3 h 0) (rd s);
    add32 (nth 4 h 0) (re s) ].

Fixpoint blocks (fuel : nat) (h : list Z) (data : bytes) : list Z :=
  match fuel with
  | O => h
  | S fuel' =>
      match data with
      | [] => h
      | _ => blocks fuel' (compress h (firstn 64 data)) (skipn 64 data)
      end
  end.

(** [createHash('sha1').update(message).digest()]. *)
Definition sha1 (message : bytes) : bytes :=
  let data := pad message in
  flat_map (octetsOf 4) (blocks (length data) H0 data).

Example sha1_empty :
  sha1 [] = [218; 57; 163; 238; 94; 107; 75; 13; 50; 85; 191; 239; 149; 96; 24; 144; 175; 216; 7; 9].
Proof. vm_compute. reflexivity. Qed.

Example sha1_abc :
  sha1 (lit "abc") = [169; 153; 62; 54; 71; 6; 129; 106; 186; 62; 37; 113; 120; 80; 194; 108; 156; 208; 216; 157].
Proof. vm_compute. reflexivity. Qed.

Example sha1_two_blocks :
  sha1 (lit "abcdbcdecdefdefgefghfghighijhijkijkljklmklmnlmnomnopnopq")
  = [132; 152; 62; 68; 28; 59; 210; 110; 186; 174; 74; 161; 249; 81; 41; 229; 229; 70; 112; 241].
Proof. vm_compute. reflexivity. Qed.

(** [multihash.encode(digest, 'sha1')]: the code 0x11, the length of the
    digest, the digest. *)
Definition multihash_sha1 (digest : bytes) : bytes :=
  17 :: Z.of_nat (length digest) :: digest.

End Sha1.

(** ** JSON values as the upload handlers read them *)

Module Json.

(** The result of [JSON.parse].  Numbers are kept as integers; the handlers
    only test them for truthiness.  A property absent from an object, and
    [undefined] in general, is [None] of [option Json]. *)
#[local] Unset Elimination Schemes.

Inductive Json :=
| JNull
| JBool (b : bool)
| JNumber (n : Z)
| JString (s : jsstring)
| JArray (items : list Json)
| JObject (fields : list (jsstring * Json)).

#[local] Set Elimination Schemes.

(** ToBoolean. *)
Definition truthy (v : option Json) : bool :=
  match v with
  | None | Some JNull => false
  | Some (JBool b) => b
  | Some (JNumber n) => negb (n =? 0)
  | Some (JString s) => match s with [] => false | _ => true end
  | Some (JArray _) | Some (JObject _) => true
  end.

Fixpoint lookupField (fields : list (jsstring * Json)) (k : jsstring)
  : option Json :=
  match fields with
  | [] => None
  | (k', v) :: rest => if streq k' k then Some v else lookupField rest k
  end.

(** [v.k] for a named property [k] of a value that is neither [null] nor
    [undefined]; only objects have the properties the handlers ask for. *)
Definition prop (v : option Json) (k : string) : option Json :=
  match v with
  | Some (JObject fields) => lookupField fields (lit k)
  | _ => None
  end.

(** [v[0]]. *)
Definition first (v : option Json) : option Json :=
  match v with
  | Some (JArray (x :: _)) => Some x
  | Some (JString (c :: _)) => Some (JString [c])
  | Some (JObject fields) => lookupField fields (lit "0")
  | _ => None
  end.

(** [l.includes(v)] for an array [l] of string literals. *)
Definition oneOf (l : list string) (v : option Json) : bool :=
  match v with
  | Some (JString s) => includes (map lit l) s
  | _ => false
  end.

End Json.

(** ** Blob stores *)

Module Store.

Section Faults.

(** Whether the store operation issued after the given history fails with
    a transport error. *)
Variable storeFails : list Event -> bool.

Definition contents (s : StoreName) (w : World) : gmap (list Z) (list Z) :=
  match s with UploadStore => uploadStore w | ProxyStore => proxyStore w end.

Definition update (s : StoreName) (f : gmap (list Z) (list Z) -> gmap (list Z) (list Z))
  (w : World) : World :=
  match s with
  | UploadStore => {| uploadStore := f (uploadStore w);
                      proxyStore := proxyStore w; trace := trace w |}
  | ProxyStore => {| uploadStore := uploadStore w;
                     proxyStore := f (proxyStore w); trace := trace w |}
  end.

(** An operation on a store: recorded, then failing or performed. *)
Definition operation {A} (e : Event) (run : World -> A * World) : M A :=
  fun w =>
    let w' := record w e in
    if storeFails (trace w) then (inl (JsError (lit "store")), w')
    else let '(a, w'') := run w' in (inr a, w'').

Definition storeExists (s : StoreName) (key : jsstring) : M bool :=
  operation (EvStoreExists s key)
            (fun w => (bool_decide (is_Some (contents s w !! key)), w)).

Definition storeWrite (s : StoreName) (key : jsstring) (data : bytes) : M unit :=
  operation (EvStoreWrite s key data)
            (fun w => (tt, update s (insert key data) w)).

Definition storeRemove (s : StoreName) (key : jsstring) : M unit :=
  operation (EvStoreRemove s key)
            (fun w => (tt, update s (delete key) w)).

(** [readStream(store.createReadStream(key))]: a missing key is an error. *)
Definition storeRead (s : StoreName) (key : jsstring) : M bytes :=
  fun w =>
    let w' := record w (EvStoreRead s key) in
    if storeFails (trace w) then (inl (JsError (lit "store")), w')
    else match contents s w !! key with
         | Some data => (inr data, w')
         | None => (inl (JsError (lit "store")), w')
         end.

End Faults.

End Store.

(** ** Reasoning about computations: what they may record *)

Module Frame.

(** [m] leaves the stores alone and records only events satisfying [P]. *)
Definition emits (P : Event -> Prop) {A} (m : M A) : Prop :=
  forall w r w',
    m w = (r, w') ->
    uploadStore w' = uploadStore w /\ proxyStore w' = proxyStore w
    /\ exists evs, trace w' = trace w ++ evs /\ Forall P evs.

(** [m] does not change the world at all. *)
Definition silent {A} (m : M A) : Prop :=
  forall w r w', m w = (r, w') -> w' = w.

Section Rules.

Variable P : Event -> Prop.

Lemma emits_ret {A} (a : A) : emits P (ret a).
Proof.
  intros w r w' H. injection H as _ <-.
  repeat split. exists []. rewrite app_nil_r. split; [reflexivity | constructor].
Qed.

Lemma emits_throw {A} (e : Exn) : emits P (@throw A e).
Proof.
  intros w r w' H. injection H as _ <-.
  repeat split. exists []. rewrite app_nil_r. split; [reflexivity | constructor].
Qed.

Lemma emits_history : emits P history.
Proof.
  intros w r w' H. injection H as _ <-.
  repeat split. exists []. rewrite app_nil_r. split; [reflexivity | constructor].
Qed.

Lemma emits_assert (c : bool) (code : Code) : emits P (assert c code).
Proof. unfold assert. destruct c; [apply emits_ret | apply emits_throw]. Qed.

Lemma emits_emit (e : Event) : P e -> emits P (emit e).
Proof.
  intros He w r w' H. injection H as _ <-. cbn.
  repeat split. exists [e]. split; [reflexivity | repeat constructor; exact He].
Qed.

Lemma emits_bind {A B} (m : M A) (k : A -> M B) :
  emits P m -> (forall a, emits P (k a)) -> emits P (bind m k).
Proof.
  intros Hm Hk w r w'. unfold bind.
  destruct (m w) as [[e | a] w1] eqn:E; intros H.
  - injection H as _ <-. exact (Hm w _ _ E).
  - destruct (Hm w _ _ E) as (Hu & Hp & evs & Ht & Hevs).
    destruct (Hk a w1 _ _ H) as (Hu' & Hp' & evs' & Ht' & Hevs').
    repeat split; [congruence | congruence |].
    exists (evs ++ evs'). rewrite Ht', Ht, app_assoc.
    split; [reflexivity | apply Forall_app; split; assumption].
Qed.

Lemma emits_tryCatch {A} (m : M A) (h : Exn -> M A) :
  emits P m -> (forall e, emits P (h e)) -> emits P (tryCatch m h).
Proof.
  intros Hm Hh w r w'. unfold tryCatch.
  destruct (m w) as [[e | a] w1] eqn:E; intros H.
  - destruct (Hm w _ _ E) as (Hu & Hp & evs & Ht & Hevs).
    destruct (Hh e w1 _ _ H) as (Hu' & Hp' & evs' & Ht' & Hevs').
    repeat split; [congruence | congruence |].
    exists (evs ++ evs'). rewrite Ht', Ht, app_assoc.
    split; [reflexivity | apply Forall_app; split; assumption].
  - injection H as _ <-. exact (Hm w _ _ E).
Qed.

End Rules.

Lemma silent_ret {A} (a : A) : silent (ret a).
Proof. intros w r w' H. injection H as _ <-. reflexivity. Qed.

Lemma silent_throw {A} (e : Exn) : silent (@throw A e).
Proof. intros w r w' H. injection H as _ <-. reflexivity. Qed.

Lemma silent_history : silent history.
Proof. intros w r w' H. injection H as _ <-. reflexivity. Qed.

Lemma silent_assert (c : bool) (code : Code) : silent (assert c code).
Proof. unfold assert. destruct c; [apply silent_ret | apply silent_throw]. Qed.

Lemma silent_bind {A B} (m : M A) (k : A -> M B) :
  silent m -> (forall a, silent (k a)) -> silent (bind m k).
Proof.
  intros Hm Hk w r w'. unfold bind.
  destruct (m w) as [[e | a] w1] eqn:E; intros H.
  - injection H as _ <-. exact (Hm w _ _ E).
  - rewrite (Hm w _ _ E) in H. exact (Hk a w _ _ H).
Qed.

(** [w'] is [w] after some more events, all satisfying [P], with the
    stores as they were. *)
Definition extends (P : Event -> Prop) (w w' : World) : Prop :=
  uploadStore w' = uploadStore w /\ proxyStore w' = proxyStore w
  /\ exists evs, trace w' = trace w ++ evs /\ Forall P evs.

Lemma extends_refl (P : Event -> Prop) (w : World) : extends P w w.
Proof.
  repeat split. exists []. rewrite app_nil_r. split; [reflexivity | constructor].
Qed.

Lemma extends_trans (P : Event -> Prop) (w1 w2 w3 : World) :
  extends P w1 w2 -> extends P w2 w3 -> extends P w1 w3.
Proof.
  intros (Hu & Hp & evs & Ht & He) (Hu' & Hp' & evs' & Ht' & He').
  repeat split; [congruence | congruence |].
  exists (evs ++ evs'). rewrite Ht', Ht, app_assoc.
  split; [reflexivity | apply Forall_app; split; assumption].
Qed.

Lemma extends_record (P : Event -> Prop) (w : World) (e : Event) :
  P e -> extends P w (record w e).
Proof.
  intros He. repeat split. exists [e].
  split; [reflexivity | repeat constructor; exact He].
Qed.

Lemma emits_run (P : Event -> Prop) {A} (m : M A) (w w' : World) (r : Exn + A) :
  emits P m -> m w = (r, w') -> extends P w w'.
Proof. intros Hm H. exact (Hm w r w' H). Qed.

(** Inversion of a successful run. *)
Lemma bind_ok {A B} (m : M A) (k : A -> M B) (w w' : World) (b : B) :
  bind m k w = (inr b, w') ->
  exists a w1, m w = (inr a, w1) /\ k a w1 = (inr b, w').
Proof.
  unfold bind. destruct (m w) as [[e | a] w1]; [discriminate |].
  intros H. exists a, w1. split; [reflexivity | exact H].
Qed.

Lemma assert_ok (c : bool) (code : Code) (w w' : World) (u : unit) :
  assert c code w = (inr u, w') -> c = true /\ w' = w.
Proof.
  unfold assert. destruct c; [| discriminate].
  intros H. injection H as _ <-. split; reflexivity.
Qed.

Lemma ret_ok {A} (a b : A) (w w' : World) :
  ret a w = (inr b, w') -> b = a /\ w' = w.
Proof. intros H. injection H as <- <-. split; reflexivity. Qed.

End Frame.

(** ** upload.ts: the two upload handlers *)

Module Upload.

Import Json Store.

Record Authority := {
  weight_threshold : Z;
  account_auths : list (jsstring * Z);
  key_auths : list (jsstring * Z);
}.

(** An [ExtendedAccount] as far as the handlers read it.  An authority the
    RPC answer lacks is [None]; reading a property of it throws. *)
Record Account := {
  name : jsstring;
  posting : option Authority;
  active : option Authority;
  owner : option Authority;
}.

Record Profile := { reputation : Z }.

(** The [upload_limits] section of the configuration. *)
Record UploadLimits := {
  duration : Z;
  max : Z;
  min_reputation : Z;
  app_account : jsstring;
  app_posting_wif : jsstring;
}.

(** The first file of the multipart form, as busboy hands it over. *)
Record FilePart := {
  file_name : jsstring;
  file_mime : jsstring;
  file_data : bytes;
  file_truncated : bool;
}.

(** What parsing the request body yields: a file, a form without one, or
    a parse error. *)
Inductive Form := FormFile (f : FilePart) | FormEmpty | FormBroken.

Record Request := {
  method : jsstring;
  params : gmap (list Z) (list Z);
  content_type : jsstring;
  content_length : jsstring;
  form : Form;
}.

(** [ctx.status] and [ctx.body] when the handler returns; [body] is the
    [url] of [{url}]. *)
Record Response (URL : Type) := {
  status : option Z;
  body : option URL;
}.

Arguments status {URL} _.
Arguments body {URL} _.

(** Everything the handlers consult outside the process.  Answers that can
    change over time take the history so far. *)
Record Outside (URL : Type) := {
  (** [new URL(relative, base)]; [None] is its [TypeError]. *)
  url_resolve : jsstring -> URL -> option URL;
  SERVICE_URL : URL;
  MAX_IMAGE_SIZE : Z;
  UPLOAD_LIMITS : UploadLimits;
  storeFails : list Event -> bool;
  (** [Date.now()]. *)
  clock : list Event -> Z;
  (** [rpcClient.database.getAccounts([name])]; [None] when the call
      fails. *)
  rpcAccounts : list Event -> jsstring -> option (list Account);
  (** [rpcClient.call('bridge', 'get_profile', ...)]; [None] when the call
      fails or answers [null]. *)
  rpcProfile : list Event -> jsstring -> option Profile;
  (** [getRatelimit(account)]: the remaining quota. *)
  rateRemaining : list Event -> jsstring -> Exn + Z;
  accountBlacklisted : list Event -> jsstring -> bool;
  (** [PublicKey.fromString(k).verify(hash, Signature.fromString(s))];
      [None] when a [fromString] throws. *)
  ecVerify : jsstring -> bytes -> jsstring -> option bool;
  (** [Signature.fromString(s).recover(hash).toString()]. *)
  ecRecover : jsstring -> bytes -> option jsstring;
  (** [PrivateKey.fromString(wif).createPublic()]. *)
  wifPublic : jsstring -> option jsstring;
  (** [Buffer.from(s, 'base64').toString()]. *)
  base64ToString : jsstring -> jsstring;
  (** [JSON.parse]; [None] is its [SyntaxError]. *)
  JSON_parse : jsstring -> option Json;
  JSON_stringify : Json -> jsstring;
}.

Arguments url_resolve {URL} _ _ _.
Arguments SERVICE_URL {URL} _.
Arguments MAX_IMAGE_SIZE {URL} _.
Arguments UPLOAD_LIMITS {URL} _.
Arguments storeFails {URL} _ _.
Arguments clock {URL} _ _.
Arguments rpcAccounts {URL} _ _ _.
Arguments rpcProfile {URL} _ _ _.
Arguments rateRemaining {URL} _ _ _.
Arguments accountBlacklisted {URL} _ _ _.
Arguments ecVerify {URL} _ _ _ _.
Arguments ecRecover {URL} _ _ _.
Arguments wifPublic {URL} _ _.
Arguments base64ToString {URL} _ _.
Arguments JSON_parse {URL} _ _.
Arguments JSON_stringify {URL} _ _.

Definition AcceptedContentTypes : list jsstring :=
  map lit ["image/gif"; "image/jpeg"; "image/png"; "image/webp";
           "image/svg+xml"; "image/svg"; "image/bmp"; "image/apng";
           "image/avif"]%string.

(** *** parseMultipart: the file name busboy reports, cleaned *)

Definition isNameChar (c : Z) : bool :=
  ((97 <=? c) && (c <=? 122)) || ((65 <=? c) && (c <=? 90))
  || ((48 <=? c) && (c <=? 57)) || (c =? 46).

(** [replace(/_{2,}/g, '_')]. *)
Fixpoint squeeze (s : jsstring) : jsstring :=
  match s with
  | c :: s' =>
      match s' with
      | d :: _ => if (c =? 95) && (d =? 95) then squeeze s' else c :: squeeze s'
      | [] => [c]
      end
  | [] => []
  end.

(** [name.replace(/[^a-z0-9.]/gi, '_').replace(/_{2,}/g, '_').toLowerCase()]. *)
Definition cleanName (raw : jsstring) : jsstring :=
  ProxyOptions.toLowerCase
    (squeeze (map (fun c => if isNameChar c then c else 95) raw)).

Example cleanName_example :
  cleanName (lit "My  Photo (1).JPG") = lit "my_photo_1_.jpg".
Proof. reflexivity. Qed.

(** [s.split('/')]. *)
Fixpoint splitSlash (s cur : jsstring) : list jsstring :=
  match s with
  | [] => [rev cur]
  | c :: s' => if c =? 47 then rev cur :: splitSlash s' [] else splitSlash s' (c :: cur)
  end.

(** [file.mime.split('/')[1] || 'png']. *)
Definition extensionOf (mime : jsstring) : jsstring :=
  match nth_error (splitSlash mime []) 1 with
  | Some (c :: ext) => c :: ext
  | _ => lit "png"
  end.

(** The name of a parsed file: its own if that has a dot, a generated one
    otherwise ([now] is [Date.now()]). *)
Definition nameOr (f : FilePart) (now : Z) : jsstring :=
  if FetchImage.isEmpty (file_name f) || negb (contains (file_name f) (lit "."))
  then lit "image-" ++ numToString now ++ lit "." ++ extensionOf (file_mime f)
  else file_name f.

Definition withName (f : FilePart) (n : jsstring) : FilePart :=
  {| file_name := n; file_mime := file_mime f; file_data := file_data f;
     file_truncated := file_truncated f |}.

(** The upload key of a challenge hash. *)
Definition keyOf (imageHash : bytes) : jsstring :=
  lit "D" ++ Base58.encode (Sha256.multihash_sha2_256 imageHash).

(** [sha256('ImageSigningChallenge' || data)]. *)
Definition challengeHash (data : bytes) : bytes :=
  Sha256.sha256 (lit "ImageSigningChallenge" ++ data).

(** The shape the handlers require of a decoded token. *)
Definition tokenShape (tokenObj : Json) : bool :=
  let signedMessage := prop (Some tokenObj) "signed_message" in
  truthy (prop (Some tokenObj) "authors")
  && truthy (first (prop (Some tokenObj) "authors"))
  && truthy (prop (Some tokenObj) "signatures")
  && truthy (first (prop (Some tokenObj) "signatures"))
  && truthy signedMessage
  && truthy (prop signedMessage "type")
  && oneOf ["login"; "posting"; "offline"; "code"; "refresh"]%string
           (prop signedMessage "type")
  && truthy (prop signedMessage "app").

Definition asString (v : option Json) : option jsstring :=
  match v with Some (JString s) => Some s | _ => None end.

Definition orNull (v : option Json) : Json :=
  match v with Some x => x | None => JNull end.

(** The object whose JSON text is signed. *)
Definition signedObject (tokenObj : Json) : Json :=
  JObject
    ([ (lit "signed_message", orNull (prop (Some tokenObj) "signed_message"));
       (lit "authors", orNull (prop (Some tokenObj) "authors")) ]
     ++ match prop (Some tokenObj) "timestamp" with
        | Some t => [ (lit "timestamp", t) ]
        | None => []
        end).

(** [b64uToB64]: the characters [-], [_] and [.] become [+], [/] and [=]. *)
Definition b64uToB64 (str : jsstring) : jsstring :=
  map (fun c => if c =? 45 then 43
                else if c =? 95 then 47
                else if c =? 46 then 61 else c) str.

Section Handlers.

Variable URL : Type.
Variable out : Outside URL.

(** Modelled from the spec: [APIError.assertParams] of error.ts fails with
    [MissingParam] when a required parameter is absent or empty. *)
Definition assertParams (req : Request) (names : list string) : M unit :=
  assert (forallb (fun n => match params req !! lit n with
                            | Some (_ :: _) => true
                            | _ => false
                            end) names)
         MissingParam.

Definition parseMultipart (req : Request) : M FilePart :=
  match form req with
  | FormFile f => ret (withName f (cleanName (file_name f)))
  | FormEmpty => throw (APIError FileMissing)
  | FormBroken => throw (JsError (lit "busboy"))
  end.

Definition isSome {A} (x : option A) : bool :=
  match x with Some _ => true | None => false end.

(** The statements both handlers start with, up to the check that the
    stream was not truncated; they differ in the parameters they require. *)
Definition receiveFile (req : Request) (paramNames : list string) : M FilePart :=
  let* _ := assert (streq (method req) (lit "POST")) InvalidMethod in
  let* _ := assertParams req paramNames in
  let* _ := assert (contains (content_type req) (lit "multipart/form-data"))
                   BadRequest in
  let contentLength := ProxyOptions.parseInt (content_length req) in
  let* _ := assert (isSome contentLength) LengthRequired in
  let* _ := assert (Utils.orZero contentLength <=? MAX_IMAGE_SIZE out)
                   PayloadTooLarge in
  let* file := parseMultipart req in
  let* h := history in
  let file := withName file (nameOr file (clock out h)) in
  let* _ := assert (negb (file_truncated file)) PayloadTooLarge in
  ret file.

(** [getAccount(user, false)] of common.ts: the node is asked only for
    names of at most 16 characters, and a failed call is logged and answers
    [undefined]. *)
Definition getAccount (user : jsstring) : M (option (list Account)) :=
  if (length user <=? 16)%nat then
    let* h := history in
    let* _ := emit (EvGetAccount user) in
    ret (rpcAccounts out h user)
  else ret None.

(** [const [account] = await getAccount(user, false)]: destructuring
    [undefined] throws, an empty answer leaves [account] undefined. *)
Definition firstAccount (user : jsstring) : M (option Account) :=
  let* accounts := getAccount user in
  match accounts with
  | Some l => ret (head l)
  | None => throw (JsError (lit "TypeError"))
  end.

(** [getProfile(user, false)] of common.ts. *)
Definition getProfile (user : jsstring) : M (option Profile) :=
  if (length user <=? 16)%nat then
    let* h := history in
    let* _ := emit (EvGetProfile user) in
    ret (rpcProfile out h user)
  else ret None.

Definition getRatelimit (account : jsstring) : M Z :=
  let* h := history in
  let* _ := emit (EvRatelimit account) in
  match rateRemaining out h account with
  | inl e => throw e
  | inr remaining => ret remaining
  end.

(** [PublicKey.fromString(publicKey).verify(hash, Signature.fromString(s))]. *)
Definition verify (publicKey : jsstring) (hash : bytes)
  (signature : option jsstring) : M bool :=
  match signature with
  | Some s =>
      let* _ := emit (EvVerify publicKey hash s) in
      match ecVerify out publicKey hash s with
      | Some ok => ret ok
      | None => throw (JsError (lit "dhive"))
      end
  | None => throw (JsError (lit "dhive"))
  end.

(** [key_auths.forEach]: a key is tried only while no signature matched. *)
Fixpoint verifyKeys (keys : list (jsstring * Z)) (hash : bytes)
  (signature : option jsstring) (validSignature : bool) : M bool :=
  match keys with
  | [] => ret validSignature
  | key :: rest =>
      let* valid := if validSignature then ret true
                    else verify (fst key) hash signature in
      verifyKeys rest hash signature valid
  end.

(** The loop over [posting], [active] and [owner]; the access-token handler
    also accepts the application account among the [account_auths]. *)
Fixpoint checkAuthorities (withAccountAuths : bool)
  (authorities : list (option Authority)) (hash : bytes)
  (signature : option jsstring) (validSignature : bool) : M bool :=
  match authorities with
  | [] => ret validSignature
  | None :: _ => throw (JsError (lit "TypeError"))
  | Some authority :: rest =>
      let valid :=
        if withAccountAuths
        then validSignature
             || existsb (fun key => streq (fst key)
                                      (app_account (UPLOAD_LIMITS out)))
                        (account_auths authority)
        else validSignature in
      let* valid := verifyKeys (key_auths authority) hash signature valid in
      checkAuthorities withAccountAuths rest hash signature valid
  end.

(** The token branch once the shape check passed: the broadcaster key
    first, then the account's authorities. *)
Definition verifyToken (withAccountAuths : bool) (tokenObj : Json)
  (account : Account) : M bool :=
  let signature := asString (first (prop (Some tokenObj) "signatures")) in
  let message := JSON_stringify out (signedObject tokenObj) in
  let hash := Sha256.sha256 (Utf8.encode message) in
  let* broadcasterPubKey :=
    match wifPublic out (app_posting_wif (UPLOAD_LIMITS out)) with
    | Some k => ret k
    | None => throw (JsError (lit "dhive"))
    end in
  let* valid := verify broadcasterPubKey hash signature in
  match name account with
  | [] => ret valid
  | _ => checkAuthorities withAccountAuths
           [posting account; active account; owner account]
           hash signature valid
  end.

(** [JSON.parse(decoded)] followed by the read of [signed_message], which
    throws on [null]. *)
Definition readToken (decoded : jsstring) : M Json :=
  match JSON_parse out decoded with
  | None => throw (JsError (lit "SyntaxError"))
  | Some JNull => throw (JsError (lit "TypeError"))
  | Some tokenObj => ret tokenObj
  end.

(** The common tail of the handlers: blacklist, quota, reputation, then the
    write under the key of the challenge hash. *)
Definition finishUpload (account : Account) (profileName : jsstring)
  (file : FilePart) (imageHash : bytes) : M (Response URL) :=
  let* h := history in
  let* _ := assert (negb (accountBlacklisted out h (name account)))
                   Blacklisted in
  let* limit := tryCatch (let* r := getRatelimit (name account) in ret (Some r))
                         (fun _ => ret None) in
  let* _ := assert (match limit with Some r => 0 <? r | None => true end)
                   QoutaExceeded in
  let* profile := getProfile profileName in
  let* _ := assert (match profile with
                    | Some p => min_reputation (UPLOAD_LIMITS out) <=? reputation p
                    | None => false
                    end) Deplorable in
  let key := keyOf imageHash in
  let* url := match url_resolve out (key ++ lit "/" ++ file_name file)
                                (SERVICE_URL out) with
              | Some u => ret u
              | None => throw (JsError (lit "TypeError"))
              end in
  let* present := storeExists (storeFails out) UploadStore key in
  let* _ := if present then ret tt
            else tryCatch (storeWrite (storeFails out) UploadStore key
                                      (file_data file))
                          (fun _ => throw (APIError InternalError)) in
  ret {| status := Some 200; body := Some url |}.

Definition orThrow {A} (x : option A) (e : Exn) : M A :=
  match x with Some a => ret a | None => throw e end.

Definition uploadHsHandler (req : Request) : M (Response URL) :=
  let* file := receiveFile req ["accesstoken"]%string in
  let* _ := assert (includes AcceptedContentTypes (file_mime file)) InvalidImage in
  let imageHash := challengeHash (file_data file) in
  let token := match params req !! lit "accesstoken" with
               | Some t => t
               | None => []
               end in
  let decoded := base64ToString out (b64uToB64 token) in
  let* tokenObj := readToken decoded in
  if tokenShape tokenObj then
    let* username := orThrow (asString (first (prop (Some tokenObj) "authors")))
                             (JsError (lit "rpc")) in
    let* found := firstAccount username in
    let* account := orThrow found (APIError NoSuchAccount) in
    let* _ := assert (streq username (name account)) InvalidSignature in
    let* validSignature := verifyToken true tokenObj account in
    let* _ := assert validSignature InvalidSignature in
    finishUpload account username file imageHash
  else
    ret {| status := None; body := None |}.

(** The direct signature: the recovered key must be a posting or an active
    key of the account with enough weight. *)
Definition keyAuthorised (authority : Authority) (publicKey : jsstring) : bool :=
  existsb (fun auth => streq (fst auth) publicKey
                       && (weight_threshold authority <=? snd auth))
          (key_auths authority).

Definition verifyDirect (signature : jsstring) (imageHash : bytes)
  (account : Account) : M bool :=
  let* _ := emit (EvRecover imageHash signature) in
  let* publicKey := orThrow (ecRecover out signature imageHash)
                            (APIError InvalidSignature) in
  let* postingAuth := orThrow (posting account) (JsError (lit "TypeError")) in
  let validPosting := keyAuthorised postingAuth publicKey in
  let* activeAuth := orThrow (active account) (JsError (lit "TypeError")) in
  ret (validPosting || keyAuthorised activeAuth publicKey).

Definition uploadHandler (req : Request) : M (Response URL) :=
  let* file := receiveFile req ["username"; "signature"]%string in
  let imageHash := challengeHash (file_data file) in
  let username := ProxyOptions.toLowerCase
                    (match params req !! lit "username" with
                     | Some u => u
                     | None => []
                     end) in
  let signature := match params req !! lit "signature" with
                   | Some s => s
                   | None => []
                   end in
  let* found := firstAccount username in
  let* account := orThrow found (APIError NoSuchAccount) in
  let* validSignature :=
    if startsWith signature (lit "hive") then
      let decoded := base64ToString out
                       (replace (replace signature (lit "hive") [])
                                (lit "signer") []) in
      let* tokenObj := readToken decoded in
      if tokenShape tokenObj then verifyToken false tokenObj account
      else ret false
    else if startsWith signature (lit "stndt") then
      throw (APIError InvalidSignature)
    else verifyDirect signature imageHash account in
  let* _ := assert validSignature InvalidSignature in
  finishUpload account username file imageHash.

(** *** What an upload records and writes *)

Definition isStoreWrite (e : Event) : bool :=
  match e with EvStoreWrite _ _ _ => true | _ => false end.

(** An event that is not a write to a store. *)
Definition noWrite (e : Event) : Prop := isStoreWrite e = false.

Import Frame.

Ltac emits_step :=
  first
    [ apply emits_ret | apply emits_throw | apply emits_history
    | apply emits_assert
    | apply emits_emit; reflexivity
    | apply emits_bind; [| intros ?]
    | apply emits_tryCatch; [| intros ?]
    | match goal with
      | |- emits _ (match ?x with _ => _ end) => destruct x
      | |- emits _ (if ?b then _ else _) => destruct b
      | |- emits _ (orThrow ?x _) => destruct x; cbn [orThrow]
      end ].

Lemma receiveFile_silent (req : Request) (names : list string) :
  silent (receiveFile req names).
Proof.
  unfold receiveFile, assertParams, parseMultipart.
  repeat first
    [ apply silent_ret | apply silent_throw | apply silent_history
    | apply silent_assert
    | apply silent_bind; [| intros ?]
    | match goal with
      | |- silent (match ?x with _ => _ end) => destruct x
      end ].
Qed.

(** The file a successful [receiveFile] hands on: the form's file, with its
    cleaned or generated name. *)
Lemma receiveFile_ok (req : Request) (names : list string) (w w' : World)
  (file : FilePart) :
  receiveFile req names w = (inr file, w') ->
  w' = w
  /\ exists f, form req = FormFile f
               /\ file_data file = file_data f
               /\ file_mime file = file_mime f
               /\ file_name file
                  = nameOr (withName f (cleanName (file_name f)))
                           (clock out (trace w)).
Proof.
  intros H. split; [exact (receiveFile_silent req names w _ _ H) |].
  unfold receiveFile in H.
  repeat (apply bind_ok in H as (? & ? & Hstep & H);
          first [ apply assert_ok in Hstep as [_ ->]
                | idtac ]).
  unfold parseMultipart in Hstep.
  destruct (form req) as [f | |]; try discriminate Hstep.
  apply ret_ok in Hstep as [-> ->].
  apply bind_ok in H as (h & w1 & Hh & H). apply ret_ok in Hh as [-> ->].
  apply bind_ok in H as (? & w2 & Ha & H). apply assert_ok in Ha as [_ ->].
  apply ret_ok in H as [-> _].
  exists f. repeat split; reflexivity.
Qed.

Lemma firstAccount_emits (u : jsstring) : emits noWrite (firstAccount u).
Proof. unfold firstAccount, getAccount. repeat emits_step. Qed.

Lemma getProfile_emits (u : jsstring) : emits noWrite (getProfile u).
Proof. unfold getProfile. repeat emits_step. Qed.

Lemma getRatelimit_emits (u : jsstring) : emits noWrite (getRatelimit u).
Proof. unfold getRatelimit. repeat emits_step. Qed.

Lemma verify_emits (k : jsstring) (hash : bytes) (s : option jsstring) :
  emits noWrite (verify k hash s).
Proof. unfold verify. repeat emits_step. Qed.

Lemma verifyKeys_emits (keys : list (jsstring * Z)) (hash : bytes)
  (s : option jsstring) (valid : bool) :
  emits noWrite (verifyKeys keys hash s valid).
Proof.
  revert valid. induction keys as [| key keys IH]; intros valid; cbn [verifyKeys].
  - apply emits_ret.
  - apply emits_bind; [| intros ?; apply IH].
    destruct valid; [apply emits_ret | apply verify_emits].
Qed.

Lemma checkAuthorities_emits (b : bool) (auths : list (option Authority))
  (hash : bytes) (s : option jsstring) (valid : bool) :
  emits noWrite (checkAuthorities b auths hash s valid).
Proof.
  revert valid. induction auths as [| [a |] auths IH]; intros valid;
    cbn [checkAuthorities].
  - apply emits_ret.
  - apply emits_bind; [apply verifyKeys_emits | intros ?; apply IH].
  - apply emits_throw.
Qed.

Lemma verifyToken_emits (b : bool) (tokenObj : Json) (account : Account) :
  emits noWrite (verifyToken b tokenObj account).
Proof.
  unfold verifyToken.
  apply emits_bind; [repeat emits_step | intros ?].
  apply emits_bind; [apply verify_emits | intros ?].
  destruct (name account); [apply emits_ret | apply checkAuthorities_emits].
Qed.

Lemma readToken_emits (decoded : jsstring) : emits noWrite (readToken decoded).
Proof. unfold readToken. repeat emits_step. Qed.

Lemma verifyDirect_emits (s : jsstring) (hash : bytes) (account : Account) :
  emits noWrite (verifyDirect s hash account).
Proof. unfold verifyDirect. repeat emits_step. Qed.

Lemma history_ok (w w' : World) (h : list Event) :
  history w = (inr h, w') -> h = trace w /\ w' = w.
Proof. intros H. injection H as <- <-. split; reflexivity. Qed.

(** The world after the store was asked for [key] and, when it was absent,
    written. *)
Definition stored (key : jsstring) (data : bytes) (w : World) : World :=
  let asked := record w (EvStoreExists UploadStore key) in
  if bool_decide (is_Some (uploadStore w !! key)) then asked
  else update UploadStore (insert key data)
              (record asked (EvStoreWrite UploadStore key data)).

(** A successful [finishUpload] resolves the URL from the key of the hash and the
    file name, and touches the store through [stored] only. *)
Lemma finishUpload_ok (account : Account) (profileName : jsstring) (file : FilePart)
  (imageHash : bytes) (w w' : World) (resp : Response URL) :
  finishUpload account profileName file imageHash w = (inr resp, w') ->
  exists url wa,
    url_resolve out (keyOf imageHash ++ lit "/" ++ file_name file)
                (SERVICE_URL out) = Some url
    /\ resp = {| status := Some 200; body := Some url |}
    /\ extends noWrite w wa
    /\ w' = stored (keyOf imageHash) (file_data file) wa.
Proof.
  unfold finishUpload. intros H.
  apply bind_ok in H as (h & w1 & Hh & H). apply history_ok in Hh as [-> ->].
  apply bind_ok in H as (? & w2 & Ha & H). apply assert_ok in Ha as [_ ->].
  apply bind_ok in H as (limit & w3 & Hl & H).
  assert (E3 : extends noWrite w w3).
  { eapply emits_run; [| exact Hl]. repeat emits_step. }
  apply bind_ok in H as (? & w4 & Ha & H). apply assert_ok in Ha as [_ ->].
  apply bind_ok in H as (profile & w5 & Hp & H).
  assert (E5 : extends noWrite w3 w5)
    by (eapply emits_run; [apply getProfile_emits | exact Hp]).
  apply bind_ok in H as (? & w6 & Ha & H). apply assert_ok in Ha as [_ ->].
  apply bind_ok in H as (url & w7 & Hurl & H).
  destruct (url_resolve out _ _) as [u |] eqn:Eurl; [| discriminate Hurl].
  apply ret_ok in Hurl as [-> ->].
  apply bind_ok in H as (present & w8 & He & H).
  unfold storeExists, operation in He.
  destruct (storeFails out (trace w5)); [discriminate He |].
  injection He as <- <-.
  apply bind_ok in H as (? & w9 & Hw & H). apply ret_ok in H as [-> ->].
  exists u, w5. split; [reflexivity |]. split; [reflexivity |].
  split; [exact (extends_trans _ _ _ _ E3 E5) |].
  unfold stored. cbn [contents record uploadStore] in Hw |- *.
  destruct (bool_decide (is_Some (uploadStore w5 !! keyOf imageHash))).
  - apply ret_ok in Hw as [_ ->]. reflexivity.
  - unfold tryCatch, storeWrite, operation in Hw.
    destruct (storeFails out _); [discriminate Hw |].
    injection Hw; intros; subst; reflexivity.
Qed.

(** An upload is accepted when a handler returns with the success status:
    [uploadHandler] sets it whenever it returns, [uploadHsHandler] may
    return without. *)
Definition accepts (req : Request) (w : World) (resp : Response URL)
  (w' : World) : Prop :=
  uploadHandler req w = (inr resp, w')
  \/ (uploadHsHandler req w = (inr resp, w') /\ status resp = Some 200).

(** Every accepted upload ends in [finishUpload], reached without a store write,
    for the file of the form under its cleaned or generated name. *)
Lemma accepts_finish (req : Request) (w w' : World) (resp : Response URL) :
  accepts req w resp w' ->
  exists f file account profileName wa,
    form req = FormFile f
    /\ file_data file = file_data f
    /\ file_name file = nameOr (withName f (cleanName (file_name f)))
                               (clock out (trace w))
    /\ extends noWrite w wa
    /\ finishUpload account profileName file (challengeHash (file_data f)) wa
       = (inr resp, w').
Proof.
  intros [H | [H Hs]].
  - unfold uploadHandler in H.
    apply bind_ok in H as (file & w1 & Hf & H).
    apply receiveFile_ok in Hf as (-> & f & Hform & Hdata & _ & Hname).
    apply bind_ok in H as (found & w2 & Hacc & H).
    assert (E2 : extends noWrite w w2)
      by (eapply emits_run; [apply firstAccount_emits | exact Hacc]).
    apply bind_ok in H as (account & w3 & Ho & H).
    destruct found as [a |]; [| discriminate Ho].
    apply ret_ok in Ho as [-> ->].
    apply bind_ok in H as (valid & w4 & Hv & H).
    assert (E4 : extends noWrite w2 w4).
    { eapply emits_run; [| exact Hv].
      destruct (startsWith _ (lit "hive")).
      - apply emits_bind; [apply readToken_emits | intros tokenObj].
        destruct (tokenShape tokenObj);
          [apply verifyToken_emits | apply emits_ret].
      - destruct (startsWith _ (lit "stndt"));
          [apply emits_throw | apply verifyDirect_emits]. }
    apply bind_ok in H as (? & w5 & Ha & H). apply assert_ok in Ha as [_ ->].
    rewrite Hdata in H.
    eexists f, file, a, _, w4.
    split; [exact Hform |]. split; [exact Hdata |]. split; [exact Hname |].
    split; [exact (extends_trans _ _ _ _ E2 E4) | exact H].
  - unfold uploadHsHandler in H.
    apply bind_ok in H as (file & w1 & Hf & H).
    apply receiveFile_ok in Hf as (-> & f & Hform & Hdata & _ & Hname).
    apply bind_ok in H as (? & w2 & Ha & H). apply assert_ok in Ha as [_ ->].
    apply bind_ok in H as (tokenObj & w3 & Ht & H).
    assert (E3 : extends noWrite w w3)
      by (eapply emits_run; [apply readToken_emits | exact Ht]).
    destruct (tokenShape tokenObj).
    + apply bind_ok in H as (username & w4 & Hu & H).
      destruct (asString _) as [u |]; [| discriminate Hu].
      apply ret_ok in Hu as [-> ->].
      apply bind_ok in H as (found & w5 & Hacc & H).
      assert (E5 : extends noWrite w3 w5)
        by (eapply emits_run; [apply firstAccount_emits | exact Hacc]).
      apply bind_ok in H as (account & w6 & Ho & H).
      destruct found as [a |]; [| discriminate Ho].
      apply ret_ok in Ho as [-> ->].
      apply bind_ok in H as (? & w7 & Ha & H). apply assert_ok in Ha as [_ ->].
      apply bind_ok in H as (valid & w8 & Hv & H).
      assert (E8 : extends noWrite w5 w8)
        by (eapply emits_run; [apply verifyToken_emits | exact Hv]).
      apply bind_ok in H as (? & w9 & Ha & H). apply assert_ok in Ha as [_ ->].
      rewrite Hdata in H.
      exists f, file, a, u, w8.
      split; [exact Hform |]. split; [exact Hdata |]. split; [exact Hname |].
      split; [| exact H].
      exact (extends_trans _ _ _ _ E3 (extends_trans _ _ _ _ E5 E8)).
    + apply ret_ok in H as [-> _]. discriminate Hs.
Qed.

Lemma stored_writes (key : jsstring) (data : bytes) (w wa : World) :
  extends noWrite w wa ->
  forall s k d,
    In (EvStoreWrite s k d) (trace (stored key data wa)) ->
    In (EvStoreWrite s k d) (trace w)
    \/ (s = UploadStore /\ k = key /\ d = data
        /\ uploadStore w !! key = None).
Proof.
  intros (Hu & _ & evs & Ht & Hevs) s k d. unfold stored. rewrite Hu.
  assert (Hno : ~ In (EvStoreWrite s k d) evs).
  { intros Hin. rewrite List.Forall_forall in Hevs.
    specialize (Hevs _ Hin). discriminate Hevs. }
  destruct (bool_decide (is_Some (uploadStore w !! key))) eqn:Hp;
    cbn [update record trace]; rewrite Ht, !in_app_iff; cbn [In].
  - intros [[Hin | Hin] | [Hin | []]]; [left; exact Hin | contradiction |].
    discriminate Hin.
  - apply bool_decide_eq_false_1 in Hp.
    intros [[[Hin | Hin] | [Hin | []]] | [Hin | []]];
      [left; exact Hin | contradiction | discriminate Hin |].
    injection Hin as <- <- <-. right. repeat split.
    destruct (uploadStore w !! key) eqn:E; [| reflexivity].
    exfalso. apply Hp. eauto.
Qed.

Lemma stored_lookup (key : jsstring) (data : bytes) (w wa : World) :
  extends noWrite w wa ->
  uploadStore (stored key data wa)
  = match uploadStore w !! key with
    | Some _ => uploadStore w
    | None => <[key := data]> (uploadStore w)
    end.
Proof.
  intros (Hu & _). unfold stored. rewrite Hu.
  destruct (uploadStore w !! key) as [old |] eqn:E.
  - rewrite bool_decide_eq_true_2 by eauto. cbn. exact Hu.
  - rewrite bool_decide_eq_false_2 by (intros [x Hx]; discriminate Hx).
    cbn. rewrite Hu. reflexivity.
Qed.

(** C1, amended. For every accepted upload with bytes [B] the key written
    to the upload store, and the first segment of the reference the
    returned url is resolved from, is ["D"] followed by the base58 multihash of
    [sha256("ImageSigningChallenge" || B)]; nothing else is written. *)
Theorem upload_key_is_challenge_hash (req : Request) (w w' : World)
  (resp : Response URL) :
  accepts req w resp w' ->
  exists f fileName url,
    form req = FormFile f
    /\ let key := lit "D" ++ Base58.encode (Sha256.multihash_sha2_256
                     (Sha256.sha256 (lit "ImageSigningChallenge" ++ file_data f))) in
       url_resolve out (key ++ lit "/" ++ fileName) (SERVICE_URL out) = Some url
       /\ resp = {| status := Some 200; body := Some url |}
       /\ (forall s k d,
              In (EvStoreWrite s k d) (trace w') ->
              In (EvStoreWrite s k d) (trace w)
              \/ (s = UploadStore /\ k = key /\ d = file_data f))
       /\ uploadStore w'
          = match uploadStore w !! key with
            | Some _ => uploadStore w
            | None => <[key := file_data f]> (uploadStore w)
            end.
Proof.
  intros Hacc.
  destruct (accepts_finish _ _ _ _ Hacc)
    as (f & file & account & pn & wa & Hform & Hdata & Hname & Hext & Hfinish).
  destruct (finishUpload_ok _ _ _ _ _ _ _ Hfinish) as (url & wb & Hurl & Hresp & Hext' & ->).
  pose proof (extends_trans _ _ _ _ Hext Hext') as Hall.
  exists f, (file_name file), url.
  split; [exact Hform |]. split; [exact Hurl |]. split; [exact Hresp |].
  rewrite Hdata. split.
  - intros s k d Hin.
    destruct (stored_writes _ _ _ _ Hall s k d Hin) as [Hold | (-> & -> & -> & _)];
      [left; exact Hold | right; repeat split].
  - apply stored_lookup, Hall.
Qed.


(** The ways a decoded token fails the shape check. *)
Definition shapeFailure (tokenObj : Json) : Prop :=
  let signedMessage := prop (Some tokenObj) "signed_message" in
  truthy (first (prop (Some tokenObj) "authors")) = false
  \/ truthy (first (prop (Some tokenObj) "signatures")) = false
  \/ truthy signedMessage = false
  \/ oneOf ["login"; "posting"; "offline"; "code"; "refresh"]%string
           (prop signedMessage "type") = false
  \/ truthy (prop signedMessage "app") = false.

Lemma shapeFailure_tokenShape (tokenObj : Json) :
  shapeFailure tokenObj -> tokenShape tokenObj = false.
Proof.
  unfold shapeFailure, tokenShape.
  intros [H | [H | [H | [H | H]]]]; rewrite H;
    repeat (rewrite ?andb_false_r, ?andb_false_l); reflexivity.
Qed.

(** C9. When the request passes the checks before the token is read and the
    decoded token fails the shape check, [uploadHsHandler] returns with
    neither status nor body set and without having recorded anything: no
    signature was verified, no account looked up, no store touched. *)
Theorem uploadHs_shape_failure (req : Request) (w : World) (file : FilePart)
  (token : jsstring) (tokenObj : Json) :
  receiveFile req ["accesstoken"]%string w = (inr file, w) ->
  includes AcceptedContentTypes (file_mime file) = true ->
  params req !! lit "accesstoken" = Some token ->
  JSON_parse out (base64ToString out (b64uToB64 token)) = Some tokenObj ->
  tokenObj <> JNull ->
  shapeFailure tokenObj ->
  uploadHsHandler req w = (inr {| status := None; body := None |}, w).
Proof.
  intros Hfile Hmime Htoken Hparse Hnull Hshape.
  unfold uploadHsHandler, bind. rewrite Hfile, Hmime. cbn [assert ret].
  rewrite Htoken. unfold readToken. rewrite Hparse.
  destruct tokenObj; try contradiction;
    cbn [ret]; rewrite (shapeFailure_tokenShape _ Hshape); reflexivity.
Qed.

End Handlers.

(** *** A small outside world to run the handlers in

    One account, [foo], whose posting and active key is [STM-foo]; keys and
    signatures are plain names ([signed-by-K] is the signature of key [K]
    under any hash), URLs are strings, the store never fails, and the only
    token text [JSON.parse] knows is one that lists its authors and nothing
    else. *)

Definition fooAuthority : Authority :=
  {| weight_threshold := 1; account_auths := [];
     key_auths := [(lit "STM-foo", 1)] |}.

Definition foo : Account :=
  {| name := lit "foo"; posting := Some fooAuthority;
     active := Some fooAuthority; owner := Some fooAuthority |}.

Definition authorsOnlyText : jsstring :=
  lit "{" ++ [34] ++ lit "authors" ++ [34] ++ lit ":[" ++ [34] ++ lit "foo"
  ++ [34] ++ lit "]}".

Definition authorsOnly : Json :=
  JObject [ (lit "authors", JArray [JString (lit "foo")]) ].

Definition demo : Outside jsstring :=
  {| url_resolve := fun rel base => Some (base ++ lit "/" ++ rel);
     SERVICE_URL := lit "https://images.ecency.com";
     MAX_IMAGE_SIZE := 30000000;
     UPLOAD_LIMITS := {| duration := 604800000; max := 700;
                         min_reputation := 10;
                         app_account := lit "ecency.app";
                         app_posting_wif := lit "5Kapp" |};
     storeFails := fun _ => false;
     clock := fun h => 1700000000000 + Z.of_nat (length h);
     rpcAccounts := fun _ n => Some (if streq n (lit "foo") then [foo] else []);
     rpcProfile := fun _ n =>
       if streq n (lit "foo") then Some {| reputation := 65 |} else None;
     rateRemaining := fun _ _ => inr 699;
     accountBlacklisted := fun _ _ => false;
     ecVerify := fun k _ s => Some (streq s (lit "signed-by-" ++ k));
     ecRecover := fun s _ =>
       if startsWith s (lit "signed-by-") then Some (skipn 10 s) else None;
     wifPublic := fun _ => Some (lit "STM-app");
     base64ToString := fun s => s;
     JSON_parse := fun s => if streq s authorsOnlyText then Some authorsOnly
                            else None;
     JSON_stringify := fun _ => lit "{}" |}.

Definition world0 : World :=
  {| uploadStore := ∅; proxyStore := ∅; trace := [] |}.

Definition abcFile (fileName : string) : FilePart :=
  {| file_name := lit fileName; file_mime := lit "image/jpeg";
     file_data := lit "abc"; file_truncated := false |}.

(** [POST /foo/signed-by-STM-foo] with the three bytes [abc]. *)
Definition postAbc (fileName : string) : Request :=
  {| method := lit "POST";
     params := <[ lit "username" := lit "foo" ]>
                 {[ lit "signature" := lit "signed-by-STM-foo" ]};
     content_type := lit "multipart/form-data; boundary=x";
     content_length := lit "180";
     form := FormFile (abcFile fileName) |}.

(** [POST /hs/<token>] with a token that decodes to [authorsOnly]. *)
Definition postHs : Request :=
  {| method := lit "POST";
     params := {[ lit "accesstoken" := authorsOnlyText ]};
     content_type := lit "multipart/form-data; boundary=x";
     content_length := lit "180";
     form := FormFile (abcFile "test.jpg") |}.

Definition challengeKey : jsstring :=
  lit "DQmUTzyxtwEy4yVfLDxnhocWwSrW51PMay1DMTrUuHy5YwH".

Definition contentKey : jsstring :=
  lit "DQmatYkNGZnELf8cAGdyJpUca2PyY4szai3RHyyWofNY1pY".

Definition okAt (fileName : string) : Response jsstring :=
  {| status := Some 200;
     body := Some (lit "https://images.ecency.com/" ++ challengeKey
                   ++ lit "/" ++ lit fileName) |}.

(** The world after the first upload of [abc]. *)
Definition world1 : World :=
  {| uploadStore := {[ challengeKey := lit "abc" ]};
     proxyStore := ∅;
     trace := [ EvGetAccount (lit "foo");
                EvRecover (challengeHash (lit "abc")) (lit "signed-by-STM-foo");
                EvRatelimit (lit "foo");
                EvGetProfile (lit "foo");
                EvStoreExists UploadStore challengeKey;
                EvStoreWrite UploadStore challengeKey (lit "abc") ] |}.

Example contentKey_is_plain_hash :
  lit "D" ++ Base58.encode (Sha256.multihash_sha2_256 (Sha256.sha256 (lit "abc")))
  = contentKey.
Proof. vm_compute. reflexivity. Qed.

Example first_upload :
  uploadHandler jsstring demo (postAbc "test.jpg") world0
  = (inr (okAt "test.jpg"), world1).
Proof. vm_compute. reflexivity. Qed.

(** C1, as stated, fails: the accepted upload of [abc] is written under the
    hash of the signing challenge, and the key of [sha256(abc)] stays
    absent. *)
Lemma upload_key_not_content_hash :
  uploadHandler jsstring demo (postAbc "test.jpg") world0
  = (inr (okAt "test.jpg"), world1)
  /\ In (EvStoreWrite UploadStore challengeKey (lit "abc")) (trace world1)
  /\ challengeKey
     <> lit "D" ++ Base58.encode (Sha256.multihash_sha2_256
                                   (Sha256.sha256 (lit "abc")))
  /\ uploadStore world1
       !! (lit "D" ++ Base58.encode (Sha256.multihash_sha2_256
                                      (Sha256.sha256 (lit "abc")))) = None.
Proof.
  split; [vm_compute; reflexivity |]. split; [cbn; tauto |].
  split; [intros H; vm_compute in H; discriminate H | vm_compute; reflexivity].
Qed.

Lemma upload_key_is_challenge_hash_witness :
  exists f fileName url,
    form (postAbc "test.jpg") = FormFile f
    /\ let key := lit "D" ++ Base58.encode (Sha256.multihash_sha2_256
                     (Sha256.sha256 (lit "ImageSigningChallenge" ++ file_data f))) in
       url_resolve demo (key ++ lit "/" ++ fileName) (SERVICE_URL demo) = Some url
       /\ okAt "test.jpg" = {| status := Some 200; body := Some url |}
       /\ (forall s k d,
              In (EvStoreWrite s k d) (trace world1) ->
              In (EvStoreWrite s k d) (trace world0)
              \/ (s = UploadStore /\ k = key /\ d = file_data f))
       /\ uploadStore world1
          = match uploadStore world0 !! key with
            | Some _ => uploadStore world0
            | None => <[key := file_data f]> (uploadStore world0)
            end.
Proof.
  apply (upload_key_is_challenge_hash jsstring demo (postAbc "test.jpg")
           world0 world1 (okAt "test.jpg")).
  left. vm_compute. reflexivity.
Defined.

(** The world after [abc] was uploaded a second time, as [b.jpg]. *)
Definition world2 : World :=
  {| uploadStore := uploadStore world1;
     proxyStore := ∅;
     trace := trace world1
              ++ [ EvGetAccount (lit "foo");
                   EvRecover (challengeHash (lit "abc")) (lit "signed-by-STM-foo");
                   EvRatelimit (lit "foo");
                   EvGetProfile (lit "foo");
                   EvStoreExists UploadStore challengeKey ] |}.

Example second_upload :
  uploadHandler jsstring demo (postAbc "b.jpg") world1
  = (inr (okAt "b.jpg"), world2).
Proof. vm_compute. reflexivity. Qed.



Example hs_upload_without_signatures :
  uploadHsHandler jsstring demo postHs world0
  = (inr {| status := None; body := None |}, world0).
Proof. vm_compute. reflexivity. Qed.

Lemma uploadHs_shape_failure_witness :
  uploadHsHandler jsstring demo postHs world0
  = (inr {| status := None; body := None |}, world0).
Proof.
  apply (uploadHs_shape_failure jsstring demo postHs world0
           (withName (abcFile "test.jpg") (lit "test.jpg"))
           authorsOnlyText authorsOnly).
  - vm_compute. reflexivity.
  - vm_compute. reflexivity.
  - vm_compute. reflexivity.
  - vm_compute. reflexivity.
  - discriminate.
  - right. left. vm_compute. reflexivity.
Defined.

End Upload.

(** ** proxy.ts: the proxy handler *)

Module Proxy.

Import Utils ProxyOptions Store Frame.

(** The WHATWG URL class: [url_parse s] is [new URL(s)], [None] for its
    [TypeError]. *)
Record UrlApi (URL : Type) := {
  url_parse : jsstring -> option URL;
  url_href : URL -> jsstring;
  url_origin : URL -> jsstring;
  url_pathname : URL -> jsstring;
}.

Arguments url_parse {URL} _ _.
Arguments url_href {URL} _ _.
Arguments url_origin {URL} _ _.
Arguments url_pathname {URL} _ _.

(** What [sharp(...).metadata()] reports, as far as it is read. *)
Record Metadata := { meta_width : option Z; meta_height : option Z }.

(** A sharp pipeline at the moment [toBuffer] is called: the input, whether
    the encoder defaults of [buildSharpPipeline] are in place, the resize
    and the forced output format. *)
Record Pipeline := {
  p_input : bytes;
  p_defaults : bool;
  p_fit : ScalingMode;
  p_width : option Z;
  p_height : option Z;
  p_force : option OutputFormat;
}.

Record Request := {
  method : jsstring;
  params : gmap (list Z) (list Z);
  query : gmap (list Z) QueryValue;
  accept : jsstring;
}.

(** The response side of the Koa context, and the tags set on it.  Of the
    tags, [handler], [is_upload], [store] and [refetch] are kept. *)
Record Context := {
  status : option Z;
  headers : gmap (list Z) (list Z);
  body : option bytes;
  tags : gmap (list Z) (list Z);
}.

Definition setHeader (k v : string) (ctx : Context) : Context :=
  {| status := status ctx; headers := <[ lit k := lit v ]> (headers ctx);
     body := body ctx; tags := tags ctx |}.

Definition setHeaderTo (k : string) (v : jsstring) (ctx : Context) : Context :=
  {| status := status ctx; headers := <[ lit k := v ]> (headers ctx);
     body := body ctx; tags := tags ctx |}.

Definition setTag (k v : string) (ctx : Context) : Context :=
  {| status := status ctx; headers := headers ctx; body := body ctx;
     tags := <[ lit k := lit v ]> (tags ctx) |}.

Definition setStatus (s : Z) (ctx : Context) : Context :=
  {| status := Some s; headers := headers ctx; body := body ctx;
     tags := tags ctx |}.

Definition setBody (b : bytes) (ctx : Context) : Context :=
  {| status := status ctx; headers := headers ctx; body := Some b;
     tags := tags ctx |}.

Definition emptyContext : Context :=
  {| status := None; headers := ∅; body := None; tags := ∅ |}.

(** Everything the proxy path consults outside the process. *)
Record Outside (URL : Type) := {
  urls : UrlApi URL;
  SERVICE_URL : URL;
  SERVICE_BASE_URL : jsstring;
  MAX_IMAGE_SIZE : Z;
  DefaultAvatar : jsstring;
  (** [safeParseInt(config.get('proxy_store.max_image_width'))] and so on. *)
  max_image_width : option Z;
  max_image_height : option Z;
  max_custom_image_width : option Z;
  max_custom_image_height : option Z;
  (** Whether [cloudflare_token] and [cloudflare_zone] are configured. *)
  cloudflare : bool;
  net : list Event -> Eff.Request -> FetchOutcome;
  storeFails : list Event -> bool;
  imageBlacklisted : list Event -> jsstring -> bool;
  (** [fileType.fromBuffer]. *)
  fileType : bytes -> option jsstring;
  (** [sharp(data).metadata()]; [None] when it rejects. *)
  sharpMetadata : bytes -> option Metadata;
  (** [pipeline.toBuffer()]; [None] when it rejects. *)
  sharpToBuffer : Pipeline -> option bytes;
  etag : jsstring -> jsstring;
  (** [ctx.fresh] of Koa, for the request and the headers set so far. *)
  fresh : Request -> Context -> bool;
}.

Arguments urls {URL} _.
Arguments SERVICE_URL {URL} _.
Arguments SERVICE_BASE_URL {URL} _.
Arguments MAX_IMAGE_SIZE {URL} _.
Arguments DefaultAvatar {URL} _.
Arguments max_image_width {URL} _.
Arguments max_image_height {URL} _.
Arguments max_custom_image_width {URL} _.
Arguments max_custom_image_height {URL} _.
Arguments cloudflare {URL} _.
Arguments net {URL} _ _ _.
Arguments storeFails {URL} _ _.
Arguments imageBlacklisted {URL} _ _ _.
Arguments fileType {URL} _ _.
Arguments sharpMetadata {URL} _ _.
Arguments sharpToBuffer {URL} _ _.
Arguments etag {URL} _ _.
Arguments fresh {URL} _ _ _.

Definition cacheShort : string := "public,max-age=600".
Definition cacheImmutable : string := "public,max-age=31536000,immutable".

Definition respondDefaultMsg : string := "Responding with default image".
Definition fallbackBuilderMsg : string :=
  "serveOrBuildFallbackImage, falling back to default".

Definition logError (msg : string) : M unit := emit (EvLog (lit msg)).

(** [value.replace(/\.(webp|png)$/, '')]. *)
Definition stripWebpOrPng (value : jsstring) : jsstring :=
  if endsWith value (lit ".webp") then firstn (length value - 5) value
  else if endsWith value (lit ".png") then firstn (length value - 4) value
  else value.

Definition bodyBytes (b : Body) : bytes :=
  match b with BufferBody data => data | OtherBody => [] end.

(** [x || d] for a configured number. *)
Definition orDefault (x : option Z) (d : Z) : Z :=
  match x with Some n => if n =? 0 then d else n | None => d end.

(** What was resolved from the request before any store is asked. *)
Record Target (URL : Type) := {
  t_options : ProxyOptions;
  t_url : URL;
  t_urlString : jsstring;
  t_urlParams : jsstring;
  t_isDefault : bool;
  t_origIsUpload : bool;
  t_origStore : StoreName;
  t_origKey : jsstring;
  t_imageKey : jsstring;
}.

Arguments t_options {URL} _.
Arguments t_url {URL} _.
Arguments t_urlString {URL} _.
Arguments t_urlParams {URL} _.
Arguments t_isDefault {URL} _.
Arguments t_origIsUpload {URL} _.
Arguments t_origStore {URL} _.
Arguments t_origKey {URL} _.
Arguments t_imageKey {URL} _.

Definition userAgent : jsstring :=
  lit "EcencyProxy/1.0 (+https://github.com/ecency)".

Definition defaultUrlParams : jsstring :=
  lit "vM1pGHgNcyCbee5hzZJ19JZfuFzCeUv7mVFKdbzGrntDxJQjefptCVeKGsJnTRuspM7ZCQNsZPYavwqkqhFzqyp8hgu9UfPdQtqjeZ5vtuTMwqp59vtT39W12n1qMu1EXZwzJpN".

Section Handler.

Variable URL : Type.
Variable out : Outside URL.

Definition parseUrl (s : jsstring) : M URL :=
  match url_parse (urls out) s with
  | Some u => ret u
  | None => throw (JsError (lit "TypeError"))
  end.

Definition parseProxiedUrl (value : jsstring) : M URL :=
  match UrlCodec.parseProxiedUrl URL (url_parse (urls out))
          (SERVICE_BASE_URL out) value with
  | Some u => ret u
  | None => throw (JsError (lit "TypeError"))
  end.

(** [purgeCache] of utils.ts: a no-op without Cloudflare credentials, and
    a failed purge is only logged. *)
Definition purgeCache (value : jsstring) : M unit :=
  if cloudflare out then emit (EvPurge value) else ret tt.

(** [mimeMagic] of utils.ts. *)
Definition mimeMagic (data : bytes) : jsstring :=
  match fileType out data with
  | Some mime => mime
  | None =>
      let head := trim (Utf8.decode (firstn 512 data)) in
      if startsWith head (lit "<svg")
         || (startsWith head (lit "<?xml") && contains head (lit "<svg"))
      then lit "image/svg+xml"
      else lit "application/octet-stream"
  end.

Definition fetchImageWithFallbacks (urlString urlParams defaultUrl : jsstring)
  (options : FetchImage.FetchOptions) : M (NeedleResponse * bool) :=
  FetchImage.fetchImageWithFallbacks (net out) urlString urlParams userAgent
    defaultUrl options.

Definition plainFetch : FetchImage.FetchOptions :=
  {| FetchImage.timeout := None; FetchImage.skipUrls := None |}.

(** [fetchUrl(DefaultAvatar, {parse_response: false, follow_max: 3, ...})]. *)
Definition fetchDefaultAvatar : M bytes :=
  let* res := FetchImage.fetchUrl (net out) (DefaultAvatar out)
                {| parse_response := false; follow_max := 3;
                   open_timeout := None; response_timeout := None;
                   read_timeout := None; user_agent := lit "EcencyProxy/1.0" |} in
  match res with
  | Some r => ret (bodyBytes (Eff.body r))
  | None => throw (JsError (lit "TypeError"))
  end.

(** [getSharpMetadataWithRetry] of utils.ts. *)
Definition getSharpMetadataWithRetry (origData : bytes)
  (urlString urlParams fallbackUrl : jsstring) : M (bytes * Metadata * bool) :=
  match sharpMetadata out origData with
  | Some metadata => ret (origData, metadata, false)
  | None =>
      let* _ := logError "Sharp metadata() failed, attempting fallback image fetch" in
      let* fallback :=
        tryCatch
          (fetchImageWithFallbacks urlString urlParams fallbackUrl
             {| FetchImage.timeout := None;
                FetchImage.skipUrls := Some [urlString] |})
          (fun _ =>
             let* _ := logError "metadata fallback fetch also failed" in
             throw (JsError (lit "metadata"))) in
      let data := bodyBytes (Eff.body (fst fallback)) in
      match sharpMetadata out data with
      | Some metadata => ret (data, metadata, snd fallback)
      | None =>
          let* _ := logError "metadata() failed even after fallback fetch" in
          throw (JsError (lit "metadata"))
      end
  end.

(** [serveOrBuildFallbackImage] of fallback.ts. *)
Definition serveOrBuildFallbackImage (ctx : Context) (store : StoreName)
  (fallbackBuffer : bytes) (options : ProxyOptions) : M Context :=
  let ctx := setTag "handler" "fallback" ctx in
  let fallbackKey := getImageKey (lit "default-avatar") options in
  let ctx := setHeaderTo "ETag" (etag out fallbackKey) ctx in
  let* _ := logError fallbackBuilderMsg in
  let* present := storeExists (storeFails out) store fallbackKey in
  if present then
    let* _ := logError "streaming fallback %s from store" in
    let* file := storeRead (storeFails out) store fallbackKey in
    let ctx := setHeaderTo "Content-Type" (mimeMagic (firstn (Z.to_nat 16384) file)) ctx in
    let ctx := setHeader "Cache-Control" cacheShort ctx in
    ret (setBody file ctx)
  else
    let force := match format options with
                 | JPEG => JPEG | PNG => PNG | WEBP => WEBP | _ => JPEG
                 end in
    let contentType := match force with
                       | PNG => lit "image/png"
                       | WEBP => lit "image/webp"
                       | _ => lit "image/jpeg"
                       end in
    let pipeline := {| p_input := fallbackBuffer; p_defaults := false;
                       p_fit := mode options; p_width := width options;
                       p_height := height options; p_force := Some force |} in
    let* rv := match sharpToBuffer out pipeline with
               | Some rv => ret rv
               | None => throw (JsError (lit "sharp"))
               end in
    let* _ := tryCatch (storeWrite (storeFails out) store fallbackKey rv)
                       (fun _ => logError "failed to store fallback image") in
    let ctx := setHeaderTo "Content-Type" contentType ctx in
    let ctx := setHeader "Cache-Control" cacheShort ctx in
    ret (setBody rv ctx).

(** The last statements of the handler. *)
Definition respond (isDefaultImage : bool) (contentType : jsstring) (rv : bytes)
  (ctx : Context) : M Context :=
  let ctx := setHeaderTo "Content-Type" contentType ctx in
  let ctx := setHeader "Vary" "Accept" ctx in
  let* ctx := if isDefaultImage then
                let* _ := logError respondDefaultMsg in
                ret (setHeader "Cache-Control" cacheShort ctx)
              else ret (setHeader "Cache-Control" cacheImmutable ctx) in
  ret (setBody rv ctx).

(** The loop that resolves doubly proxied images.  [fuel] bounds its turns;
    running out of it stands for a loop that never ends, after which no
    response is produced. *)
Fixpoint unwrapProxied (fuel : nat) (url : URL) : M URL :=
  if streq (url_origin (urls out) url) (url_origin (urls out) (SERVICE_URL out))
     && streq (firstn 2 (url_pathname (urls out) url)) (lit "/p")
  then
    match fuel with
    | O => throw (JsError (lit "unending loop"))
    | S fuel' =>
        let cleanUrl2 := stripWebpOrPng (skipn 3 (url_pathname (urls out) url)) in
        let* url' := parseProxiedUrl cleanUrl2 in
        unwrapProxied fuel' url'
    end
  else ret url.

(** [urlString.replace('&flag=1', '').replace('?flag=1', '')]. *)
Definition dropFlag (urlString : jsstring) (flag : string) : jsstring :=
  replace (replace urlString (lit "&" ++ lit flag ++ lit "=1") [])
          (lit "?" ++ lit flag ++ lit "=1") [].

(** Modelled from the spec: an assertion that is given a message instead
    of a code (error.ts is not among the sources) fails with the generic
    [BadRequest].  This is the validation of one dimension; a parsed
    dimension is an integer, hence finite. *)
Definition checkDimension (x : option Z) : M unit :=
  match x with
  | Some n => assert (0 <=? n) BadRequest
  | None => ret tt
  end.

(** [url.pathname.slice(1).split('/')[0]]. *)
Definition firstSegment (pathname : jsstring) : jsstring :=
  match Upload.splitSlash (skipn 1 pathname) [] with
  | seg :: _ => seg
  | [] => []
  end.

(** ['U' + multihash.toB58String(multihash.encode(sha1(urlString), 'sha1'))]. *)
Definition urlKey (urlString : jsstring) : jsstring :=
  let urlHash := Sha1.sha1 (Utf8.encode urlString) in
  lit "U" ++ Base58.encode (Sha1.multihash_sha1 urlHash).

(** From the start of the handler to the [ETag] header: the options, the
    URL to fetch and the keys. *)
Definition resolve (fuel : nat) (req : Request) (ctx : Context)
  : M (Target URL * Context) :=
  let ctx := setTag "handler" "proxy" ctx in
  let* _ := assert (streq (method req) (lit "GET")) InvalidMethod in
  let* _ := assert (match params req !! lit "url" with
                    | Some (_ :: _) => true
                    | _ => false
                    end) MissingParam in
  let* options := match parseOptions (query req) (accept req) with
                  | inl e => throw e
                  | inr o => ret o
                  end in
  let cleanUrl := stripWebpOrPng (match params req !! lit "url" with
                                  | Some u => u
                                  | None => []
                                  end) in
  let* url := parseProxiedUrl cleanUrl in
  let urlParams := cleanUrl in
  let* url := unwrapProxied fuel url in
  let* _ := checkDimension (width options) in
  let* _ := checkDimension (height options) in
  let ctx := setHeader "Cache-Control" cacheShort ctx in
  let urlString := url_href (urls out) url in
  let* url := if truthy (ignorecache options)
              then parseUrl (dropFlag urlString "ignorecache") else ret url in
  let* url := if truthy (invalidate options)
              then let* u := parseUrl (dropFlag urlString "invalidate") in
                   let* _ := purgeCache urlString in
                   ret u
              else ret url in
  let* url := if truthy (refetch options)
              then parseUrl (dropFlag urlString "refetch") else ret url in
  let urlString := url_href (urls out) url in
  let* h := history in
  let* blocked :=
    if imageBlacklisted out h urlString
       || Constants.isEmptyImageUrl (SERVICE_BASE_URL out) urlString
    then
      let* u := parseUrl (DefaultAvatar out) in
      let* _ := logError "Falling back to default image due to blacklist or 0x0 URL" in
      ret (u, defaultUrlParams, true)
    else ret (url, urlParams, false) in
  let '(url, urlParams, isDefaultImage) := blocked in
  let* url :=
    if Constants.startsWithEmptyImagePrefix (SERVICE_BASE_URL out) urlString
    then
      let actualUrl := skipn (length (SERVICE_BASE_URL out ++ lit "/0x0/"))
                             urlString in
      match actualUrl with
      | [] => ret url
      | _ =>
          match url_parse (urls out) actualUrl with
          | Some u => ret u
          | None =>
              let* _ := logError "Failed to parse URL after 0x0 prefix" in
              ret url
          end
      end
    else ret url in
  let urlString := url_href (urls out) url in
  let urlString := Constants.applyUrlReplacements urlString in
  let* url := parseUrl urlString in
  let urlString := if contains urlString (lit "https://img.esteem.ws/")
                   then lit "https://steemitimages.com/0x0/" ++ urlString
                   else urlString in
  let origIsUpload :=
    streq (url_origin (urls out) (SERVICE_URL out)) (url_origin (urls out) url)
    && bool_decide (nth_error (url_pathname (urls out) url) 1 = Some 68) in
  let ctx := setTag "is_upload" (if origIsUpload then "true" else "false") ctx in
  let origStore := if origIsUpload then UploadStore else ProxyStore in
  let origKey := if origIsUpload
                 then firstSegment (url_pathname (urls out) url)
                 else urlKey urlString in
  let imageKey := getImageKey origKey options in
  let ctx := setHeaderTo "ETag" (etag out imageKey) ctx in
  ret ({| t_options := options; t_url := url; t_urlString := urlString;
          t_urlParams := urlParams; t_isDefault := isDefaultImage;
          t_origIsUpload := origIsUpload; t_origStore := origStore;
          t_origKey := origKey; t_imageKey := imageKey |}, ctx).

(** [!options.ignorecache && !options.invalidate && !options.refetch]. *)
Definition cached (options : ProxyOptions) : bool :=
  negb (truthy (ignorecache options)) && negb (truthy (invalidate options))
  && negb (truthy (refetch options)).

(** The options handed to [serveOrBuildFallbackImage]. *)
Definition plainOptions (options : ProxyOptions) : ProxyOptions :=
  {| width := width options; height := height options; mode := mode options;
     format := format options; ignorecache := None; invalidate := None;
     refetch := None |}.

Definition AcceptedContentTypes : list jsstring :=
  [ lit "image/gif"; lit "image/jpeg"; lit "image/png"; lit "image/webp";
    lit "image/svg+xml"; lit "image/svg"; lit "image/bmp"; lit "image/apng";
    lit "image/avif" ].

(** [try { await storeRemove(store, key) } catch (_e) { }]. *)
Definition bestEffortRemove (store : StoreName) (key : jsstring) : M unit :=
  tryCatch (storeRemove (storeFails out) store key) (fun _ => ret tt).

(** A step of the handler that may [return] from it: [inl ctx] is the
    response returned early, [inr a] the value to go on with. *)
Definition orReturn {A} (m : M (Context + A)) (k : A -> M Context) : M Context :=
  let* r := m in
  match r with
  | inl ctx => ret ctx
  | inr a => k a
  end.

(** The removals of a [refetch] request. *)
Definition refetchCleanup (t : Target URL) (ctx : Context) : M Context :=
  if truthy (refetch (t_options t)) then
    let* _ := tryCatch
                (let* _ := storeRemove (storeFails out) ProxyStore (t_imageKey t) in
                 purgeCache (t_urlString t))
                (fun _ => logError "unable to remove on refetch") in
    let* _ := if negb (t_origIsUpload t) then
                tryCatch
                  (let* _ := storeRemove (storeFails out) (t_origStore t)
                               (t_origKey t) in
                   purgeCache (t_urlString t))
                  (fun _ => logError "unable to remove on refetch non orig")
              else ret tt in
    ret (setTag "refetch" "true" ctx)
  else ret ctx.

(** The converted image is in the store.  When the stream fails, its
    [error] listener removes the key and ends the response with status 500
    by itself; the handler then returns no response of its own. *)
Definition serveResized (t : Target URL) (ctx : Context) : M Context :=
  let ctx := setTag "store" "resized" ctx in
  let* file :=
    tryCatch (storeRead (storeFails out) ProxyStore (t_imageKey t))
             (fun err =>
                let* _ := logError "unable to read" in
                let* _ := tryCatch
                            (storeRemove (storeFails out) ProxyStore (t_imageKey t))
                            (fun _ => logError "unable to remove onerror") in
                throw err) in
  let mimeType := mimeMagic (firstn (Z.to_nat 16384) file) in
  let ctx := setHeaderTo "Content-Type" mimeType ctx in
  let ctx := setHeader "Cache-Control" cacheImmutable ctx in
  ret (setBody file ctx).

(** [if (res.bytes <= MAX_IMAGE_SIZE && !isDefaultImage) ... storeWrite]. *)
Definition storeOriginal (t : Target URL) (res : NeedleResponse)
  (isDefaultImage : bool) (origData : bytes) (msg : string) : M unit :=
  if (res_bytes res <=? MAX_IMAGE_SIZE out) && negb isDefaultImage then
    tryCatch (storeWrite (storeFails out) (t_origStore t) (t_origKey t) origData)
             (fun _ => logError msg)
  else ret tt.

(** The original is in the store: read it, or fetch it again when the read
    or the check of what was read fails.  The result is the data, its
    content type and whether it is the default image. *)
Definition readOriginal (t : Target URL) : M (bytes * jsstring * bool) :=
  tryCatch
    (let* origData := storeRead (storeFails out) (t_origStore t) (t_origKey t) in
     let contentType := mimeMagic origData in
     if negb (includes AcceptedContentTypes (toLowerCase contentType)) then
       let* _ := bestEffortRemove (t_origStore t) (t_origKey t) in
       throw (JsError (lit "Invalid stored content type: " ++ contentType))
     else ret (origData, contentType, t_isDefault t))
    (fun _ =>
       let* _ := logError "storeExist read / mimeMagic failed" in
       let* result := fetchImageWithFallbacks (t_urlString t) (t_urlParams t)
                        (DefaultAvatar out) plainFetch in
       let res := fst result in
       let isDefaultImage := if snd result then true else t_isDefault t in
       let origData := bodyBytes (Eff.body res) in
       let* _ := storeOriginal t res isDefaultImage origData
                   "failed to store original proxy image (readStream catch)" in
       ret (origData, mimeMagic origData, isDefaultImage)).

(** [x && x > limit] for a dimension of the metadata. *)
Definition exceeds (x : option Z) (limit : Z) : bool :=
  match x with Some n => negb (n =? 0) && (limit <? n) | None => false end.

(** The cap of a dimension the user gave. *)
Definition capCustom (x : option Z) (cap : Z) : option Z :=
  match x with
  | Some n => if (0 <? n) && (cap <? n) then Some cap else Some n
  | None => None
  end.

Definition unspecified (x : option Z) : bool :=
  match x with Some n => n =? 0 | None => true end.

Definition zeroToUndefined (x : option Z) : option Z :=
  match x with Some n => if n =? 0 then None else Some n | None => None end.

Definition isNone {A} (x : option A) : bool :=
  match x with Some _ => false | None => true end.

(** The pipeline the handler builds, and the content type it announces. *)
Definition buildPipeline (options : ProxyOptions) (metadata : Metadata)
  (origData : bytes) (contentType : jsstring) : Pipeline * jsstring :=
  let maxWidth := orDefault (max_image_width out) 1280 in
  let maxHeight := orDefault (max_image_height out) 1280 in
  let maxCustomWidth := orDefault (max_custom_image_width out) 8000 in
  let maxCustomHeight := orDefault (max_custom_image_height out) 8000 in
  let width := capCustom (width options) maxCustomWidth in
  let height := capCustom (height options) maxCustomHeight in
  let bothUnspecified := unspecified width && unspecified height in
  let width := if bothUnspecified && exceeds (meta_width metadata) maxWidth
               then Some maxWidth else width in
  let height := if bothUnspecified && exceeds (meta_height metadata) maxHeight
                then Some maxHeight else height in
  let width := zeroToUndefined width in
  let height := zeroToUndefined height in
  let '(width, height) :=
    match mode options with
    | Cover => (width, height)
    | Fit => if isNone width && isNone height
             then (Some maxWidth, Some maxHeight) else (width, height)
    end in
  let force := match format options with
               | Match => None
               | f => Some f
               end in
  let contentType := match format options with
                     | Match => contentType
                     | JPEG => lit "image/jpeg"
                     | PNG => lit "image/png"
                     | WEBP => lit "image/webp"
                     | AVIF => lit "image/avif"
                     end in
  ({| p_input := origData; p_defaults := true; p_fit := mode options;
      p_width := width; p_height := height; p_force := force |}, contentType).

(** What both [catch] blocks of the conversion do for an original that came
    from the store. *)
Definition serveFallback (t : Target URL) (ctx : Context) : M Context :=
  let* _ := bestEffortRemove (t_origStore t) (t_origKey t) in
  let* fallbackBuffer := fetchDefaultAvatar in
  serveOrBuildFallbackImage ctx ProxyStore fallbackBuffer
                            (plainOptions (t_options t)).

(** Whether the data is passed through as it is. *)
Definition passThrough (options : ProxyOptions) (contentType : jsstring) : bool :=
  ((streq contentType (lit "image/gif") || streq contentType (lit "video/mp4")
    || streq contentType (lit "image/apng"))
   && match format options with Match | WEBP | AVIF => true | _ => false end
   && match mode options with Fit => true | Cover => false end)
  || contains contentType (lit "video").

(** From the original data to the response. *)
Definition convert (t : Target URL) (origData : bytes) (contentType : jsstring)
  (isDefaultImage origFromCache : bool) (ctx : Context) : M Context :=
  if passThrough (t_options t) contentType then
    respond isDefaultImage contentType origData ctx
  else
    orReturn
      (tryCatch
         (let* metaResult := getSharpMetadataWithRetry origData (t_urlString t)
                               (t_urlParams t) (DefaultAvatar out) in
          ret (inr metaResult))
         (fun _ =>
            let* _ := logError "getSharpMetadataWithRetry failed" in
            if origFromCache then
              let* ctx := serveFallback t ctx in
              ret (inl ctx)
            else throw (APIError InvalidImage)))
      (fun metaResult =>
         let metadata := snd (fst metaResult) in
         let isDefaultImage := isDefaultImage || snd metaResult in
         let* _ := assert (truthy (meta_width metadata)
                           && truthy (meta_height metadata)) InvalidImage in
         let '(pipeline, contentType) :=
           buildPipeline (t_options t) metadata origData contentType in
         orReturn
           (match sharpToBuffer out pipeline with
            | Some rv => ret (inr rv)
            | None =>
                let* _ := logError "sharp.toBuffer() failed" in
                if origFromCache then
                  let* ctx := serveFallback t ctx in
                  ret (inl ctx)
                else throw (APIError InvalidImage)
            end)
           (fun rv =>
              let* _ := if negb isDefaultImage then
                          tryCatch
                            (storeWrite (storeFails out) ProxyStore
                                        (t_imageKey t) rv)
                            (fun _ => logError "failed to store converted proxy image")
                        else ret tt in
              respond isDefaultImage contentType rv ctx)).

(** The branch that has the original in the store. *)
Definition fromOriginal (t : Target URL) (ctx : Context) : M Context :=
  let ctx := setTag "store" "original" ctx in
  let* r := readOriginal t in
  let '(origData, contentType, isDefaultImage) := r in
  convert t origData contentType isDefaultImage true ctx.

(** The branch that fetches the original. *)
Definition fromFetch (t : Target URL) (ctx : Context) : M Context :=
  let ctx := setTag "store" "fetch" ctx in
  let* result :=
    tryCatch
      (fetchImageWithFallbacks (t_urlString t) (t_urlParams t)
                               (DefaultAvatar out) plainFetch)
      (fun _ =>
         let* _ := logError "fetchImageWithFallbacks failed" in
         throw (APIError InvalidImage)) in
  let res := fst result in
  let isDefaultImage := snd result in
  let origData := bodyBytes (Eff.body res) in
  let contentType := toLowerCase (mimeMagic origData) in
  if negb (includes AcceptedContentTypes contentType) then
    let* _ := logError "Unsupported content type, defaulted" in
    let* fallbackBuffer := fetchDefaultAvatar in
    serveOrBuildFallbackImage ctx ProxyStore fallbackBuffer
                              (plainOptions (t_options t))
  else
    let* _ := assert (FetchImage.isBuffer (Eff.body res)) InvalidImage in
    let* _ := storeOriginal t res isDefaultImage origData
                "failed to store original proxy image" in
    convert t origData contentType isDefaultImage false ctx.

(** [proxyHandler] of proxy.ts. *)
Definition proxyHandler (fuel : nat) (req : Request) (ctx : Context) : M Context :=
  let* r := resolve fuel req ctx in
  let '(t, ctx) := r in
  if fresh out req ctx then ret (setStatus 304 ctx)
  else
    let* ctx := refetchCleanup t ctx in
    let* present := storeExists (storeFails out) ProxyStore (t_imageKey t) in
    if present && cached (t_options t) then serveResized t ctx
    else
      let* present := storeExists (storeFails out) (t_origStore t) (t_origKey t) in
      if present && cached (t_options t) then fromOriginal t ctx
      else fromFetch t ctx.

(** *** What a run adds to the trace *)

(** The two log lines that mark a response made of the default image: the
    one before the last statements of the handler and the one
    [serveOrBuildFallbackImage] starts with. *)
Definition saysDefault (e : Event) : bool :=
  match e with
  | EvLog msg => streq msg (lit respondDefaultMsg)
                 || streq msg (lit fallbackBuilderMsg)
  | _ => false
  end.

Definition quiet (e : Event) : Prop := saysDefault e = false.

Definition anything (e : Event) : Prop := True.

(** Every run of [m] appends events that satisfy [P]. *)
Definition traces (P : Event -> Prop) {A} (m : M A) : Prop :=
  forall w r w', m w = (r, w') ->
    exists evs, trace w' = trace w ++ evs /\ Forall P evs.

Section Traces.

Variable P : Event -> Prop.

Lemma traces_ret {A} (a : A) : traces P (ret a).
Proof.
  intros w r w' H. injection H as _ <-.
  exists []. rewrite app_nil_r. split; [reflexivity | constructor].
Qed.

Lemma traces_throw {A} (e : Exn) : traces P (@throw A e).
Proof.
  intros w r w' H. injection H as _ <-.
  exists []. rewrite app_nil_r. split; [reflexivity | constructor].
Qed.

Lemma traces_history : traces P history.
Proof.
  intros w r w' H. injection H as _ <-.
  exists []. rewrite app_nil_r. split; [reflexivity | constructor].
Qed.

Lemma traces_assert (c : bool) (code : Code) : traces P (assert c code).
Proof. unfold assert. destruct c; [apply traces_ret | apply traces_throw]. Qed.

Lemma traces_emit (e : Event) : P e -> traces P (emit e).
Proof.
  intros He w r w' H. injection H as _ <-. cbn.
  exists [e]. split; [reflexivity | repeat constructor; exact He].
Qed.

Lemma traces_bind {A B} (m : M A) (k : A -> M B) :
  traces P m -> (forall a, traces P (k a)) -> traces P (bind m k).
Proof.
  intros Hm Hk w r w'. unfold bind.
  destruct (m w) as [[e | a] w1] eqn:E; intros H.
  - injection H as _ <-. exact (Hm w _ _ E).
  - destruct (Hm w _ _ E) as (evs & Ht & Hevs).
    destruct (Hk a w1 _ _ H) as (evs' & Ht' & Hevs').
    exists (evs ++ evs'). split.
    + rewrite Ht', Ht, app_assoc. reflexivity.
    + apply Forall_app; split; assumption.
Qed.

Lemma traces_tryCatch {A} (m : M A) (h : Exn -> M A) :
  traces P m -> (forall e, traces P (h e)) -> traces P (tryCatch m h).
Proof.
  intros Hm Hh w r w'. unfold tryCatch.
  destruct (m w) as [[e | a] w1] eqn:E; intros H.
  - destruct (Hm w _ _ E) as (evs & Ht & Hevs).
    destruct (Hh e w1 _ _ H) as (evs' & Ht' & Hevs').
    exists (evs ++ evs'). split.
    + rewrite Ht', Ht, app_assoc. reflexivity.
    + apply Forall_app; split; assumption.
  - injection H as _ <-. exact (Hm w _ _ E).
Qed.

Lemma trace_update (s : StoreName) (f : gmap (list Z) (list Z) -> gmap (list Z) (list Z))
  (w : World) : trace (update s f w) = trace w.
Proof. destruct s; reflexivity. Qed.

Lemma traces_storeExists (s : StoreName) (key : jsstring) :
  P (EvStoreExists s key) -> traces P (storeExists (storeFails out) s key).
Proof.
  intros He w r w'. unfold storeExists, operation.
  destruct (storeFails out (trace w)); intros H; injection H as _ <-;
    (exists [EvStoreExists s key]; split;
     [reflexivity | repeat constructor; exact He]).
Qed.

Lemma traces_storeWrite (s : StoreName) (key : jsstring) (data : bytes) :
  P (EvStoreWrite s key data) ->
  traces P (storeWrite (storeFails out) s key data).
Proof.
  intros He w r w'. unfold storeWrite, operation.
  destruct (storeFails out (trace w)); intros H; injection H as _ <-;
    (exists [EvStoreWrite s key data]; split;
     [try rewrite trace_update; reflexivity | repeat constructor; exact He]).
Qed.

Lemma traces_storeRemove (s : StoreName) (key : jsstring) :
  P (EvStoreRemove s key) -> traces P (storeRemove (storeFails out) s key).
Proof.
  intros He w r w'. unfold storeRemove, operation.
  destruct (storeFails out (trace w)); intros H; injection H as _ <-;
    (exists [EvStoreRemove s key]; split;
     [try rewrite trace_update; reflexivity | repeat constructor; exact He]).
Qed.

Lemma traces_storeRead (s : StoreName) (key : jsstring) :
  P (EvStoreRead s key) -> traces P (storeRead (storeFails out) s key).
Proof.
  intros He w r w'. unfold storeRead.
  destruct (storeFails out (trace w)); [| destruct (contents s w !! key)];
    intros H; injection H as _ <-;
    (exists [EvStoreRead s key]; split;
     [reflexivity | repeat constructor; exact He]).
Qed.

End Traces.

Create HintDb quietly.

Ltac quiet_step :=
  first
    [ apply traces_ret | apply traces_throw | apply traces_history
    | apply traces_assert
    | apply traces_emit; reflexivity
    | apply traces_storeExists; reflexivity
    | apply traces_storeWrite; reflexivity
    | apply traces_storeRemove; reflexivity
    | apply traces_storeRead; reflexivity
    | solve [auto 1 with quietly nocore]
    | apply traces_bind; [| intros ?]
    | apply traces_tryCatch; [| intros ?]
    | match goal with
      | |- traces _ (match ?x with _ => _ end) => destruct x
      end ].

Lemma quiet_fetchUrl (url : jsstring) (o : NeedleOptions) :
  traces quiet (FetchImage.fetchUrl (net out) url o).
Proof. unfold FetchImage.fetchUrl. repeat quiet_step. Qed.

#[local] Hint Resolve quiet_fetchUrl : quietly.

Lemma quiet_attempt (candidate : jsstring) (o : NeedleOptions) :
  traces quiet (FetchImage.attempt (net out) candidate o).
Proof. unfold FetchImage.attempt. repeat quiet_step. Qed.

#[local] Hint Resolve quiet_attempt : quietly.

Lemma quiet_tryCandidates (candidates : list jsstring) (o : NeedleOptions) :
  traces quiet (FetchImage.tryCandidates (net out) candidates o).
Proof.
  induction candidates as [| c rest IH]; cbn [FetchImage.tryCandidates].
  - quiet_step.
  - apply traces_bind; [apply quiet_attempt |].
    intros [res |]; [quiet_step | exact IH].
Qed.

#[local] Hint Resolve quiet_tryCandidates : quietly.

Lemma quiet_fetchImageWithFallbacks (urlString urlParams defaultUrl : jsstring)
  (options : FetchImage.FetchOptions) :
  traces quiet (fetchImageWithFallbacks urlString urlParams defaultUrl options).
Proof.
  unfold fetchImageWithFallbacks, FetchImage.fetchImageWithFallbacks.
  repeat quiet_step.
Qed.

Lemma quiet_parseUrl (s : jsstring) : traces quiet (parseUrl s).
Proof. unfold parseUrl. repeat quiet_step. Qed.

Lemma quiet_parseProxiedUrl (s : jsstring) : traces quiet (parseProxiedUrl s).
Proof. unfold parseProxiedUrl. repeat quiet_step. Qed.

Lemma quiet_purgeCache (s : jsstring) : traces quiet (purgeCache s).
Proof. unfold purgeCache. repeat quiet_step. Qed.

#[local] Hint Resolve quiet_fetchImageWithFallbacks quiet_parseUrl
  quiet_parseProxiedUrl quiet_purgeCache : quietly.

Lemma quiet_fetchDefaultAvatar : traces quiet fetchDefaultAvatar.
Proof. unfold fetchDefaultAvatar. repeat quiet_step. Qed.

Lemma quiet_getSharpMetadataWithRetry (origData : bytes)
  (urlString urlParams fallbackUrl : jsstring) :
  traces quiet (getSharpMetadataWithRetry origData urlString urlParams fallbackUrl).
Proof. unfold getSharpMetadataWithRetry. repeat quiet_step. Qed.

Lemma quiet_unwrapProxied (fuel : nat) (url : URL) :
  traces quiet (unwrapProxied fuel url).
Proof.
  revert url. induction fuel as [| fuel IH]; intros url; cbn [unwrapProxied].
  - repeat quiet_step.
  - destruct (_ && _); [| quiet_step].
    apply traces_bind; [apply quiet_parseProxiedUrl | intros u; apply IH].
Qed.

Lemma quiet_checkDimension (x : option Z) : traces quiet (checkDimension x).
Proof. unfold checkDimension. repeat quiet_step. Qed.

#[local] Hint Resolve quiet_fetchDefaultAvatar quiet_getSharpMetadataWithRetry
  quiet_unwrapProxied quiet_checkDimension : quietly.

Lemma quiet_resolve (fuel : nat) (req : Request) (ctx : Context) :
  traces quiet (resolve fuel req ctx).
Proof. unfold resolve. repeat quiet_step. Qed.

Lemma quiet_bestEffortRemove (s : StoreName) (key : jsstring) :
  traces quiet (bestEffortRemove s key).
Proof. unfold bestEffortRemove. repeat quiet_step. Qed.

#[local] Hint Resolve quiet_resolve quiet_bestEffortRemove : quietly.

Lemma quiet_refetchCleanup (t : Target URL) (ctx : Context) :
  traces quiet (refetchCleanup t ctx).
Proof. unfold refetchCleanup. repeat quiet_step. Qed.

Lemma quiet_storeOriginal (t : Target URL) (res : NeedleResponse)
  (isDefaultImage : bool) (origData : bytes) (msg : string) :
  quiet (EvLog (lit msg)) ->
  traces quiet (storeOriginal t res isDefaultImage origData msg).
Proof.
  intros Hmsg. unfold storeOriginal. repeat quiet_step.
  apply traces_emit. exact Hmsg.
Qed.

Lemma quiet_readOriginal (t : Target URL) : traces quiet (readOriginal t).
Proof.
  unfold readOriginal. repeat quiet_step.
  apply quiet_storeOriginal. reflexivity.
Qed.

#[local] Hint Resolve quiet_refetchCleanup quiet_readOriginal : quietly.

(** *** The Cache-Control header of a response *)

(** The header follows the default-image log lines among the events [evs]
    that the run added. *)
Definition settled (w : World) (ctx' : Context) (w' : World) : Prop :=
  exists evs, trace w' = trace w ++ evs
    /\ headers ctx' !! lit "Cache-Control"
       = Some (lit (if existsb saysDefault evs then cacheShort
                    else cacheImmutable)).

(** A response is a 304, or streamed from the store of converted images,
    or has its header settled. *)
Definition answered (w : World) (ctx' : Context) (w' : World) : Prop :=
  status ctx' = Some 304
  \/ tags ctx' !! lit "store" = Some (lit "resized")
  \/ settled w ctx' w'.

Definition ends (m : M Context) : Prop :=
  forall w ctx' w', m w = (inr ctx', w') -> answered w ctx' w'.

(** The same for a step that either returns a response or goes on. *)
Definition steps {A} (m : M (Context + A)) : Prop :=
  forall w r w', m w = (inr r, w') ->
    match r with
    | inl ctx' => answered w ctx' w'
    | inr _ => exists evs, trace w' = trace w ++ evs /\ Forall quiet evs
    end.

Lemma quiet_existsb (evs : list Event) :
  Forall quiet evs -> existsb saysDefault evs = false.
Proof.
  induction 1 as [| e evs He _ IH]; [reflexivity |].
  cbn [existsb]. rewrite He, IH. reflexivity.
Qed.

Lemma answered_after (w w1 w' : World) (ctx' : Context) (evs : list Event) :
  trace w1 = trace w ++ evs -> Forall quiet evs ->
  answered w1 ctx' w' -> answered w ctx' w'.
Proof.
  intros Ht Hq [H | [H | (evs' & Ht' & Hh)]]; [left; exact H | right; left; exact H |].
  right; right. exists (evs ++ evs'). split.
  - rewrite Ht', Ht, app_assoc. reflexivity.
  - rewrite existsb_app, (quiet_existsb _ Hq). exact Hh.
Qed.

Lemma ends_throw (e : Exn) : ends (throw e).
Proof. intros w ctx' w' H. discriminate H. Qed.

Lemma ends_bind {A} (m : M A) (k : A -> M Context) :
  traces quiet m -> (forall a, ends (k a)) -> ends (bind m k).
Proof.
  intros Hm Hk w ctx' w' H.
  destruct (bind_ok _ _ _ _ _ H) as (a & w1 & E & Hrun).
  destruct (Hm w _ _ E) as (evs & Ht & Hq).
  exact (answered_after _ _ _ _ _ Ht Hq (Hk a w1 ctx' w' Hrun)).
Qed.

Lemma ends_orReturn {A} (m : M (Context + A)) (k : A -> M Context) :
  steps m -> (forall a, ends (k a)) -> ends (orReturn m k).
Proof.
  intros Hm Hk w ctx' w' H. unfold orReturn in H.
  destruct (bind_ok _ _ _ _ _ H) as ([c | a] & w1 & E & Hrun).
  - injection Hrun as <- <-. exact (Hm w _ _ E).
  - destruct (Hm w _ _ E) as (evs & Ht & Hq).
    exact (answered_after _ _ _ _ _ Ht Hq (Hk a w1 ctx' w' Hrun)).
Qed.

Lemma steps_throw {A} (e : Exn) : steps (@throw (Context + A) e).
Proof. intros w r w' H. discriminate H. Qed.

Lemma steps_go {A} (m : M A) :
  traces quiet m -> steps (let* a := m in ret (inr a)).
Proof.
  intros Hm w r w' H.
  destruct (bind_ok _ _ _ _ _ H) as (a & w1 & E & Hrun).
  injection Hrun as <- <-. exact (Hm w _ _ E).
Qed.

Lemma steps_return (m : M Context) {A} :
  ends m -> steps (let* ctx := m in ret (@inl Context A ctx)).
Proof.
  intros Hm w r w' H.
  destruct (bind_ok _ _ _ _ _ H) as (a & w1 & E & Hrun).
  injection Hrun as <- <-. exact (Hm w _ _ E).
Qed.

Lemma steps_bind {A B} (m : M A) (k : A -> M (Context + B)) :
  traces quiet m -> (forall a, steps (k a)) -> steps (bind m k).
Proof.
  intros Hm Hk w r w' H.
  destruct (bind_ok _ _ _ _ _ H) as (a & w1 & E & Hrun).
  destruct (Hm w _ _ E) as (evs & Ht & Hq).
  pose proof (Hk a w1 r w' Hrun) as Hr. destruct r as [c | b].
  - exact (answered_after _ _ _ _ _ Ht Hq Hr).
  - destruct Hr as (evs' & Ht' & Hq'). exists (evs ++ evs'). split.
    + rewrite Ht', Ht, app_assoc. reflexivity.
    + apply Forall_app; split; assumption.
Qed.

Lemma steps_tryCatch {A} (m : M (Context + A)) (h : Exn -> M (Context + A)) :
  traces quiet m -> steps m -> (forall e, steps (h e)) -> steps (tryCatch m h).
Proof.
  intros Hq Hm Hh w r w'. unfold tryCatch.
  destruct (m w) as [[e | a] w1] eqn:E; intros H.
  - destruct (Hq w _ _ E) as (evs & Ht & Hevs).
    pose proof (Hh e w1 r w' H) as Hr. destruct r as [c | b].
    + exact (answered_after _ _ _ _ _ Ht Hevs Hr).
    + destruct Hr as (evs' & Ht' & Hq'). exists (evs ++ evs'). split.
      * rewrite Ht', Ht, app_assoc. reflexivity.
      * apply Forall_app; split; assumption.
  - injection H as <- <-. exact (Hm w _ _ E).
Qed.

(** The last statements of the handler settle the header. *)
Lemma ends_respond (isDefaultImage : bool) (contentType : jsstring) (rv : bytes)
  (ctx : Context) : ends (respond isDefaultImage contentType rv ctx).
Proof.
  intros w ctx' w' H. right; right. unfold respond in H.
  destruct isDefaultImage.
  - injection H as <- <-. exists [EvLog (lit respondDefaultMsg)].
    split; [reflexivity |]. cbn [setBody headers setHeader].
    rewrite lookup_insert_eq. reflexivity.
  - injection H as <- <-. exists []. rewrite app_nil_r.
    split; [reflexivity |]. cbn [setBody headers setHeader].
    rewrite lookup_insert_eq. reflexivity.
Qed.

(** So does [serveOrBuildFallbackImage], to the short lifetime. *)
Lemma ends_serveOrBuildFallbackImage (ctx : Context) (store : StoreName)
  (fallbackBuffer : bytes) (options : ProxyOptions) :
  ends (serveOrBuildFallbackImage ctx store fallbackBuffer options).
Proof.
  intros w ctx' w' H. right; right. unfold serveOrBuildFallbackImage in H.
  destruct (bind_ok _ _ _ _ _ H) as ([] & w1 & E & H1). clear H.
  assert (Hw1 : trace w1 = trace w ++ [EvLog (lit fallbackBuilderMsg)]).
  { injection E as <-. reflexivity. }
  clear E.
  assert (Hrest : exists evs, trace w' = trace w1 ++ evs
                  /\ headers ctx' !! lit "Cache-Control" = Some (lit cacheShort)).
  { destruct (bind_ok _ _ _ _ _ H1) as (present & w2 & E2 & H2).
    destruct (traces_storeExists anything store _ I _ _ _ E2) as (evs2 & Ht2 & _).
    destruct present.
    - destruct (bind_ok _ _ _ _ _ H2) as ([] & w3 & E3 & H3).
      injection E3 as <-.
      destruct (bind_ok _ _ _ _ _ H3) as (file & w4 & E4 & H4).
      destruct (traces_storeRead anything store _ I _ _ _ E4) as (evs4 & Ht4 & _).
      injection H4 as <- <-.
      eexists. split.
      + rewrite Ht4. cbn [record trace]. rewrite Ht2, <- !app_assoc. reflexivity.
      + cbn [setBody headers setHeader]. apply lookup_insert_eq.
    - destruct (bind_ok _ _ _ _ _ H2) as (rv & w3 & E3 & H3).
      assert (w3 = w2) as ->.
      { destruct (sharpToBuffer out _); [| discriminate E3].
        injection E3 as _ <-. reflexivity. }
      destruct (bind_ok _ _ _ _ _ H3) as ([] & w4 & E4 & H4).
      assert (Hw : traces anything
                     (tryCatch (storeWrite (storeFails out) store
                                  (getImageKey (lit "default-avatar") options) rv)
                               (fun _ => logError "failed to store fallback image"))).
      { apply traces_tryCatch; [apply traces_storeWrite; exact I |].
        intros _. apply traces_emit. exact I. }
      destruct (Hw _ _ _ E4) as (evs4 & Ht4 & _).
      injection H4 as <- <-.
      eexists. split.
      + rewrite Ht4, Ht2, <- !app_assoc. reflexivity.
      + cbn [setBody headers setHeader]. apply lookup_insert_eq. }
  destruct Hrest as (evs & Ht & Hh).
  exists (EvLog (lit fallbackBuilderMsg) :: evs). split.
  - rewrite Ht, Hw1, <- app_assoc. reflexivity.
  - exact Hh.
Qed.

Lemma steps_ret_inr {A} (a : A) : steps (ret (@inr Context A a)).
Proof.
  intros w r w' H. injection H as <- <-.
  exists []. rewrite app_nil_r. split; [reflexivity | constructor].
Qed.

Lemma ends_serveFallback (t : Target URL) (ctx : Context) :
  ends (serveFallback t ctx).
Proof.
  unfold serveFallback.
  apply ends_bind; [apply quiet_bestEffortRemove | intros _].
  apply ends_bind; [apply quiet_fetchDefaultAvatar | intros fallbackBuffer].
  apply ends_serveOrBuildFallbackImage.
Qed.

(** What a [catch] block of the conversion does. *)
Lemma steps_giveUp {A} (t : Target URL) (ctx : Context) (origFromCache : bool)
  (msg : string) :
  quiet (EvLog (lit msg)) ->
  steps (let* _ := logError msg in
         if origFromCache then
           let* ctx := serveFallback t ctx in
           ret (@inl Context A ctx)
         else throw (APIError InvalidImage)).
Proof.
  intros Hmsg. apply steps_bind; [apply traces_emit; exact Hmsg | intros _].
  destruct origFromCache; [| apply steps_throw].
  apply steps_return. apply ends_serveFallback.
Qed.

Lemma ends_convert (t : Target URL) (origData : bytes) (contentType : jsstring)
  (isDefaultImage origFromCache : bool) (ctx : Context) :
  ends (convert t origData contentType isDefaultImage origFromCache ctx).
Proof.
  unfold convert. destruct (passThrough _ _); [apply ends_respond |].
  apply ends_orReturn.
  - apply steps_tryCatch.
    + repeat quiet_step.
    + apply steps_go. apply quiet_getSharpMetadataWithRetry.
    + intros _. apply steps_giveUp. reflexivity.
  - intros metaResult.
    apply ends_bind; [apply traces_assert | intros _].
    destruct (buildPipeline _ _ _ _) as [pipeline contentType'].
    apply ends_orReturn.
    + destruct (sharpToBuffer out pipeline) as [rv |].
      * apply steps_ret_inr.
      * apply steps_giveUp. reflexivity.
    + intros rv. apply ends_bind; [repeat quiet_step | intros _].
      apply ends_respond.
Qed.

Lemma ends_fromOriginal (t : Target URL) (ctx : Context) :
  ends (fromOriginal t ctx).
Proof.
  unfold fromOriginal.
  apply ends_bind; [apply quiet_readOriginal | intros [[origData contentType] d]].
  apply ends_convert.
Qed.

Lemma ends_fromFetch (t : Target URL) (ctx : Context) : ends (fromFetch t ctx).
Proof.
  unfold fromFetch.
  apply ends_bind; [repeat quiet_step | intros result].
  destruct (negb _).
  - apply ends_bind; [repeat quiet_step | intros _].
    apply ends_bind; [apply quiet_fetchDefaultAvatar | intros fallbackBuffer].
    apply ends_serveOrBuildFallbackImage.
  - apply ends_bind; [apply traces_assert | intros _].
    apply ends_bind; [apply quiet_storeOriginal; reflexivity | intros _].
    apply ends_convert.
Qed.

Lemma ends_serveResized (t : Target URL) (ctx : Context) :
  ends (serveResized t ctx).
Proof.
  intros w ctx' w' H. right; left. unfold serveResized in H.
  destruct (bind_ok _ _ _ _ _ H) as (file & w1 & _ & H1).
  injection H1 as <- _. cbn [setBody setHeader setHeaderTo setTag tags].
  apply lookup_insert_eq.
Qed.

Lemma ends_proxyHandler (fuel : nat) (req : Request) (ctx : Context) :
  ends (proxyHandler fuel req ctx).
Proof.
  unfold proxyHandler.
  apply ends_bind; [apply quiet_resolve | intros [t ctx1]].
  destruct (fresh out req ctx1).
  { intros w ctx' w' H. injection H as <- _. left. reflexivity. }
  apply ends_bind; [apply quiet_refetchCleanup | intros ctx2].
  apply ends_bind; [apply traces_storeExists; reflexivity | intros present].
  destruct (present && _); [apply ends_serveResized |].
  apply ends_bind; [apply traces_storeExists; reflexivity | intros present'].
  destruct (present' && _); [apply ends_fromOriginal | apply ends_fromFetch].
Qed.


End Handler.

(** *** A run of the handler *)

(** URLs with the scheme [https], as their serialisation. *)
Fixpoint untilSlash (s : jsstring) : jsstring :=
  match s with
  | [] => []
  | c :: s' => if (c =? 47) || (c =? 63) then [] else c :: untilSlash s'
  end.

Fixpoint fromSlash (s : jsstring) : jsstring :=
  match s with
  | [] => []
  | c :: s' => if c =? 47 then s else fromSlash s'
  end.

Definition httpsUrls : UrlApi jsstring :=
  {| url_parse := fun s =>
       if startsWith s (lit "https://") then
         match fromSlash (skipn 8 s) with
         | [] => Some (s ++ lit "/")
         | _ => Some s
         end
       else None;
     url_href := fun u => u;
     url_origin := fun u => lit "https://" ++ untilSlash (skipn 8 u);
     url_pathname := fun u => untilSlash (fromSlash (skipn 8 u))
                              ++ match untilSlash (fromSlash (skipn 8 u)) with
                                 | [] => lit "/"
                                 | _ => []
                                 end |}.

Definition photoUrl : jsstring := lit "https://example.com/a.jpg".

Definition photo : bytes := [255; 216; 255; 224; 0; 16; 74; 70; 73; 70].

Definition avatarUrl : jsstring :=
  lit "https://images.ecency.com/DQmUVRvAmChYcJqBifekwpR9UTsxSbbbnEi9kJXRWEGzX47/default.png".

(** An instance in which only [online] is on the network, no store fails,
    and sharp reads and converts whatever it is given. *)
Definition demoWith (online : jsstring) : Outside jsstring :=
  {| urls := httpsUrls;
     SERVICE_URL := lit "https://images.ecency.com/";
     SERVICE_BASE_URL := lit "https://images.ecency.com";
     MAX_IMAGE_SIZE := 30000000;
     DefaultAvatar := avatarUrl;
     max_image_width := None;
     max_image_height := None;
     max_custom_image_width := None;
     max_custom_image_height := None;
     cloudflare := false;
     net := fun _ req =>
              if streq (req_url req) online
              then Resolved (Some {| statusCode := Some 200;
                                     Eff.body := BufferBody photo;
                                     res_bytes := 10 |})
              else Rejected;
     storeFails := fun _ => false;
     imageBlacklisted := fun _ _ => false;
     fileType := fun data =>
                   if startsWith data [255; 216; 255] then Some (lit "image/jpeg")
                   else None;
     sharpMetadata := fun _ => Some {| meta_width := Some 640;
                                       meta_height := Some 480 |};
     sharpToBuffer := fun p => Some (p_input p);
     etag := fun key => key;
     fresh := fun _ _ => false |}.

Definition demo : Outside jsstring := demoWith photoUrl.

Definition world0 : World :=
  {| uploadStore := ∅; proxyStore := ∅; trace := [] |}.

(** [GET /p/<base58 of the photo's URL>], with the given query. *)
Definition getPhoto (q : list (string * string)) : Request :=
  {| method := lit "GET";
     params := {[ lit "url" := UrlCodec.base58Enc photoUrl ]};
     query := list_to_map (map (fun kv => (lit (fst kv), QString (lit (snd kv)))) q);
     accept := [] |}.


Definition cacheControlOf (run : (Exn + Context) * World) : option jsstring :=
  match fst run with
  | inr ctx' => headers ctx' !! lit "Cache-Control"
  | inl _ => None
  end.

Definition storeTagOf (run : (Exn + Context) * World) : option jsstring :=
  match fst run with
  | inr ctx' => tags ctx' !! lit "store"
  | inl _ => None
  end.

Definition responseOf (run : (Exn + Context) * World) : Context :=
  match fst run with
  | inr ctx' => ctx'
  | inl _ => emptyContext
  end.

(** The photo is asked for with empty stores, with the given query. *)
Definition photoRun (q : list (string * string)) : (Exn + Context) * World :=
  proxyHandler jsstring demo 8 (getPhoto q) emptyContext world0.

(** The same request when nothing but the default avatar can be fetched. *)
Definition avatarRun : (Exn + Context) * World :=
  proxyHandler jsstring (demoWith avatarUrl) 8 (getPhoto []) emptyContext world0.

Example photo_fetched :
  body (responseOf (photoRun [])) = Some photo
  /\ headers (responseOf (photoRun [])) !! lit "Content-Type"
     = Some (lit "image/jpeg")
  /\ headers (responseOf (photoRun [])) !! lit "Vary" = Some (lit "Accept")
  /\ proxyStore (snd (photoRun [])) !! lit "U5dtafBJ2UkVYJ6YRvCNQ35nZpkhTFR"
     = Some photo
  /\ proxyStore (snd (photoRun []))
       !! lit "U5dtafBJ2UkVYJ6YRvCNQ35nZpkhTFR_Cover_Match" = Some photo.
Proof. vm_compute. repeat split. Qed.

(** The part of C2 about the fallback holds on this run: the ladder ends at
    the default avatar, the handler says so and the lifetime is short. *)
Example avatar_is_short :
  storeTagOf avatarRun = Some (lit "fetch")
  /\ existsb saysDefault (trace (snd avatarRun)) = true
  /\ cacheControlOf avatarRun = Some (lit "public,max-age=600").
Proof. vm_compute. repeat split. Qed.



End Proxy.

(** ** utils.ts: the codec and the keys, further *)

Module CodecFacts.

Import Base58 UrlCodec.

(** A character of the base58 alphabet. *)
Definition isBase58 (c : Z) : Prop := In c ALPHABET.

Lemma indexIn_None (c : Z) (l : list Z) (i : Z) :
  indexIn c l i = None <-> ~ In c l.
Proof.
  revert i. induction l as [| x l IH]; intros i; cbn [indexIn In].
  - tauto.
  - destruct (Z.eqb_spec x c) as [-> | Hne].
    + split; [discriminate | intros H; exfalso; apply H; left; reflexivity].
    + rewrite IH. tauto.
Qed.

Lemma decodeChar_None (c : Z) : decodeChar c = None <-> ~ isBase58 c.
Proof. apply indexIn_None. Qed.

Lemma decodeChars_None (s : jsstring) :
  decodeChars s = None <-> exists c, In c s /\ ~ isBase58 c.
Proof.
  induction s as [| c s IH]; cbn [decodeChars In].
  - split; [discriminate | intros (c & [] & _)].
  - destruct (decodeChar c) as [d |] eqn:Ec.
    + assert (Hc : isBase58 c).
      { destruct (in_dec Z.eq_dec c ALPHABET) as [H | H]; [exact H |].
        apply decodeChar_None in H. congruence. }
      destruct (decodeChars s) as [ds |].
      * split; [discriminate |].
        intros (x & [<- | Hx] & Hn); [contradiction |].
        assert (E : Some ds = None) by (apply IH; exists x; split; assumption).
        discriminate E.
      * split; [| reflexivity]. intros _.
        destruct (proj1 IH eq_refl) as (x & Hx & Hn).
        exists x. split; [right; exact Hx | exact Hn].
    + split; [| reflexivity]. intros _. exists c.
      split; [left; reflexivity | apply decodeChar_None, Ec].
Qed.

Lemma encodeChar_alphabet (d : Z) : 0 <= d < 58 -> isBase58 (encodeChar d).
Proof.
  intros Hd. unfold isBase58, encodeChar. apply nth_In.
  change (length ALPHABET) with 58%nat. lia.
Qed.

(** X1.  [base58Enc] writes characters of the base58 alphabet only,
    whatever its input: none of them is [.], [/], [?] or [_]. *)
Theorem base58Enc_alphabet (value : jsstring) :
  Forall isBase58 (base58Enc value)
  /\ forall c, In c (base58Enc value) ->
               c <> 46 /\ c <> 47 /\ c <> 63 /\ c <> 95.
Proof.
  assert (H : Forall isBase58 (base58Enc value)).
  { unfold base58Enc, encode. apply Forall_app. split.
    - apply List.Forall_forall. intros c Hc. apply repeat_spec in Hc. subst c.
      unfold isBase58. cbn. tauto.
    - apply List.Forall_map. unfold digitsOf. apply List.Forall_rev.
      eapply List.Forall_impl; [| apply digitsLE_range with (b := 58); lia].
      intros d Hd. apply encodeChar_alphabet, Hd. }
  split; [exact H |].
  intros c Hc. rewrite List.Forall_forall in H. specialize (H c Hc).
  unfold isBase58 in H.
  repeat split; intros ->; cbn in H; intuition discriminate.
Qed.

(** X2.  [base58Dec] throws exactly on the values that hold a character
    outside the base58 alphabet; on every other value it returns a
    string. *)
Theorem base58Dec_throws_iff (value : jsstring) :
  base58Dec value = None <-> exists c, In c value /\ ~ isBase58 c.
Proof.
  unfold base58Dec, decode. rewrite <- decodeChars_None.
  destruct (decodeChars value); cbn [option_map]; split; congruence.
Qed.

End CodecFacts.

(** ** The shape of the keys the handlers compute *)

Module KeyShape.

Import Base58 CodecFacts.

Lemma octetsOf_octets (n : nat) (x : Z) : digitsIn 256 (Sha256.octetsOf n x).
Proof.
  revert x. induction n as [| n IH]; intros x; cbn [Sha256.octetsOf].
  - constructor.
  - apply Forall_app. split; [apply IH |].
    constructor; [apply Z.mod_pos_bound; lia | constructor].
Qed.

Lemma octetsOf_length (n : nat) (x : Z) : length (Sha256.octetsOf n x) = n.
Proof.
  revert x. induction n as [| n IH]; intros x; cbn [Sha256.octetsOf].
  - reflexivity.
  - rewrite length_app, IH. cbn. lia.
Qed.

Lemma words_octets (ws : list Z) :
  digitsIn 256 (flat_map (Sha256.octetsOf 4) ws)
  /\ length (flat_map (Sha256.octetsOf 4) ws) = (4 * length ws)%nat.
Proof.
  induction ws as [| x ws [IH1 IH2]]; cbn [flat_map length].
  - split; [constructor | reflexivity].
  - split.
    + apply Forall_app. split; [apply octetsOf_octets | exact IH1].
    + rewrite length_app, octetsOf_length, IH2. lia.
Qed.

Lemma sha256_blocks_length (fuel : nat) (h : list Z) (data : bytes) :
  length h = 8%nat -> length (Sha256.blocks fuel h data) = 8%nat.
Proof.
  revert h data. induction fuel as [| fuel IH]; intros h data Hh;
    cbn [Sha256.blocks]; [exact Hh |].
  destruct data; [exact Hh |]. apply IH. reflexivity.
Qed.

Lemma sha1_blocks_length (fuel : nat) (h : list Z) (data : bytes) :
  length h = 5%nat -> length (Sha1.blocks fuel h data) = 5%nat.
Proof.
  revert h data. induction fuel as [| fuel IH]; intros h data Hh;
    cbn [Sha1.blocks]; [exact Hh |].
  destruct data; [exact Hh |]. apply IH. reflexivity.
Qed.

(** A SHA-256 digest is 32 octets, a SHA-1 digest 20, whatever the
    message. *)
Lemma sha256_digest (message : bytes) :
  digitsIn 256 (Sha256.sha256 message)
  /\ length (Sha256.sha256 message) = 32%nat.
Proof.
  unfold Sha256.sha256.
  destruct (words_octets
              (Sha256.blocks (length (Sha256.pad message)) Sha256.H0
                             (Sha256.pad message))) as [H1 H2].
  split; [exact H1 |]. rewrite H2, sha256_blocks_length; reflexivity.
Qed.

Lemma sha1_digest (message : bytes) :
  digitsIn 256 (Sha1.sha1 message) /\ length (Sha1.sha1 message) = 20%nat.
Proof.
  unfold Sha1.sha1.
  destruct (words_octets
              (Sha1.blocks (length (Sha256.pad message)) Sha1.H0
                           (Sha256.pad message))) as [H1 H2].
  split; [exact H1 |]. rewrite H2, sha1_blocks_length; reflexivity.
Qed.

(** Numerals: the value of a digit list lies below the power of its
    length, and a canonical one reaches the power before. *)
Lemma valueLE_upper (b : Z) (ds : list Z) :
  0 < b -> digitsIn b ds -> valueLE b ds < b ^ Z.of_nat (length ds).
Proof.
  intros Hb H. induction H as [| d ds Hd _ IH]; cbn [valueLE length].
  - cbn. lia.
  - rewrite Nat2Z.inj_succ, Z.pow_succ_r by lia. nia.
Qed.

Lemma valueLE_lower (b : Z) (ds : list Z) :
  0 < b -> digitsIn b ds -> canonicalLE ds -> ds <> [] ->
  b ^ Z.of_nat (length ds - 1) <= valueLE b ds.
Proof.
  intros Hb H. induction H as [| d ds Hd Hds IH]; intros Hc Hne; [congruence |].
  cbn [valueLE length]. destruct ds as [| e ds].
  - cbn in *. lia.
  - assert (Hrec : b ^ Z.of_nat (length (e :: ds) - 1) <= valueLE b (e :: ds))
      by (apply IH; [exact Hc | discriminate]).
    replace (S (length (e :: ds)) - 1)%nat with (S (length (e :: ds) - 1))
      by (cbn [length]; lia).
    rewrite Nat2Z.inj_succ, Z.pow_succ_r by lia. nia.
Qed.

Lemma valueOf_cons (b x : Z) (l : list Z) :
  valueOf b (x :: l) = x * b ^ Z.of_nat (length l) + valueOf b l.
Proof.
  unfold valueOf at 1. cbn [fold_left]. rewrite fold_value_app.
  rewrite valueOf_LE. lia.
Qed.

Lemma valueOf_bounds (b : Z) (l : list Z) :
  0 < b -> digitsIn b l -> 0 <= valueOf b l < b ^ Z.of_nat (length l).
Proof.
  intros Hb H. rewrite valueOf_LE. split.
  - apply valueLE_nonneg; [exact Hb | apply List.Forall_rev, H].
  - rewrite <- length_rev. apply valueLE_upper; [exact Hb |].
    apply List.Forall_rev, H.
Qed.

(** The base58 text of a two-octet header followed by a digest: when the
    header pins the two leading base58 digits, every such text starts with
    them and has the same length. *)
Lemma encode_header (b1 b2 d1 d2 : Z) (m : nat) (digest : bytes) :
  0 < b1 < 256 -> 0 <= b2 < 256 -> 0 < d1 < 58 -> 0 <= d2 < 58 ->
  digitsIn 256 digest ->
  (d1 * 58 + d2) * 58 ^ Z.of_nat m
    <= (b1 * 256 + b2) * 256 ^ Z.of_nat (length digest) ->
  (b1 * 256 + b2 + 1) * 256 ^ Z.of_nat (length digest)
    <= (d1 * 58 + d2 + 1) * 58 ^ Z.of_nat m ->
  exists rest,
    encode (b1 :: b2 :: digest) = encodeChar d1 :: encodeChar d2 :: rest
    /\ length rest = m /\ Forall isBase58 rest.
Proof.
  intros Hb1 Hb2 Hd1 Hd2 Hdig Hlo Hhi.
  set (P := 58 ^ Z.of_nat m) in *.
  set (Q := 256 ^ Z.of_nat (length digest)) in *.
  assert (HP : 0 < P) by (apply Z.pow_pos_nonneg; lia).
  set (N := valueOf 256 (b1 :: b2 :: digest)).
  assert (HN : (d1 * 58 + d2) * P <= N < (d1 * 58 + d2 + 1) * P).
  { unfold N. rewrite !valueOf_cons. cbn [length].
    rewrite Nat2Z.inj_succ, Z.pow_succ_r by lia. fold Q.
    pose proof (valueOf_bounds 256 digest ltac:(lia) Hdig) as HD. fold Q in HD.
    lia. }
  assert (Hd1P : 1 * P <= d1 * P) by (apply Z.mul_le_mono_nonneg_r; lia).
  assert (Hd2P : 0 <= d2 * P) by (apply Z.mul_nonneg_nonneg; lia).
  assert (Hd1P' : d1 * P <= 57 * P) by (apply Z.mul_le_mono_nonneg_r; lia).
  assert (Hd2P' : d2 * P <= 57 * P) by (apply Z.mul_le_mono_nonneg_r; lia).
  assert (HNpos : 58 * P <= N < 58 * 58 * P) by lia.
  assert (Hc : canonical 58 (digitsOf 58 N))
    by (apply digitsOf_canonical; lia).
  assert (Hv : valueOf 58 (digitsOf 58 N) = N)
    by (apply digitsOf_value; lia).
  unfold encode. fold N.
  replace (leadingZeros (b1 :: b2 :: digest)) with O
    by (cbn [leadingZeros]; destruct (Z.eqb_spec b1 0); [lia | reflexivity]).
  cbn [repeat app].
  remember (digitsOf 58 N) as ds eqn:Eds. destruct Hc as [Hr Hcl].
  assert (Hne : ds <> []).
  { intros ->. change (valueOf 58 []) with 0 in Hv. lia. }
  assert (Hup : N < 58 ^ Z.of_nat (length ds)).
  { rewrite <- Hv. apply valueOf_bounds; [lia | exact Hr]. }
  assert (Hdown : 58 ^ Z.of_nat (length ds - 1) <= N).
  { rewrite <- Hv, valueOf_LE. rewrite <- length_rev.
    apply valueLE_lower; [lia | apply List.Forall_rev, Hr | exact Hcl |].
    intros E. apply Hne. rewrite <- (rev_involutive ds), E. reflexivity. }
  assert (Hlen : length ds = S (S m)).
  { assert (H1 : Z.of_nat (length ds - 1) < Z.of_nat (S (S m))).
    { apply (Z.pow_lt_mono_r_iff 58); [lia | lia |].
      rewrite !Nat2Z.inj_succ, !Z.pow_succ_r by lia. fold P. lia. }
    assert (H2 : Z.of_nat (S m) < Z.of_nat (length ds)).
    { apply (Z.pow_lt_mono_r_iff 58); [lia | lia |].
      rewrite Nat2Z.inj_succ, Z.pow_succ_r by lia. fold P. lia. }
    lia. }
  destruct ds as [| e1 [| e2 rest]]; try discriminate Hlen.
  injection Hlen as Hlen.
  inversion Hr as [| ? ? He1 Hr1]; subst.
  inversion Hr1 as [| ? ? He2 Hr2]; subst.
  rewrite !valueOf_cons in Hv. cbn [length] in Hv.
  rewrite Nat2Z.inj_succ, Z.pow_succ_r in Hv by lia. fold P in Hv.
  pose proof (valueOf_bounds 58 rest ltac:(lia) Hr2) as HR. fold P in HR.
  assert (Heq : e1 * 58 + e2 = d1 * 58 + d2).
  { set (A := e1 * 58 + e2). set (B := d1 * 58 + d2).
    assert (HA : A * P <= N < (A + 1) * P) by (unfold A; lia).
    assert (HB : B * P <= N < (B + 1) * P) by (unfold B; lia).
    clearbody A B.
    destruct (Z.lt_trichotomy A B) as [Hlt | [E | Hgt]]; [| exact E |].
    - assert ((A + 1) * P <= B * P) by (apply Z.mul_le_mono_nonneg_r; lia). lia.
    - assert ((B + 1) * P <= A * P) by (apply Z.mul_le_mono_nonneg_r; lia). lia. }
  assert (e1 = d1) by lia. assert (e2 = d2) by lia. subst e1 e2.
  exists (map encodeChar rest). cbn [map]. split; [reflexivity |].
  split; [apply length_map |].
  apply List.Forall_map. eapply List.Forall_impl; [| exact Hr2].
  intros d Hd. apply encodeChar_alphabet, Hd.
Qed.

(** The key of an upload: [D], then the base58 text of the sha2-256
    multihash of the challenge hash. *)
Lemma keyOf_sha256 (message : bytes) :
  exists rest,
    Upload.keyOf (Sha256.sha256 message) = lit "DQm" ++ rest
    /\ length rest = 44%nat /\ Forall isBase58 rest.
Proof.
  destruct (sha256_digest message) as [Hoct Hlen].
  destruct (encode_header 18 32 23 44 44 (Sha256.sha256 message))
    as (rest & E & Hl & Hr); try lia; try exact Hoct.
  - rewrite Hlen. vm_compute. discriminate.
  - rewrite Hlen. vm_compute. discriminate.
  - exists rest. split; [| split; assumption].
    unfold Upload.keyOf, Sha256.multihash_sha2_256. rewrite Hlen.
    change (Z.of_nat 32) with 32. rewrite E. reflexivity.
Qed.

(** X3.  Every key under which an upload is stored has 47 characters:
    the prefix [DQm] followed by 44 characters of the base58 alphabet.  It
    holds no [/], no [.] and no [_]. *)
Theorem upload_key_shape (data : bytes) :
  exists rest,
    Upload.keyOf (Upload.challengeHash data) = lit "DQm" ++ rest
    /\ length rest = 44%nat
    /\ Forall isBase58 rest
    /\ length (Upload.keyOf (Upload.challengeHash data)) = 47%nat.
Proof.
  destruct (keyOf_sha256 (lit "ImageSigningChallenge" ++ data))
    as (rest & E & Hl & Hr).
  exists rest. unfold Upload.challengeHash.
  split; [exact E |]. split; [exact Hl |]. split; [exact Hr |].
  rewrite E, length_app, Hl. reflexivity.
Qed.

(** X4.  Every key under which the proxy stores a fetched original has 31
    characters: the prefix [U5d] followed by 28 characters of the base58
    alphabet, whatever the URL. *)
Theorem proxy_key_shape (urlString : jsstring) :
  exists rest,
    Proxy.urlKey urlString = lit "U5d" ++ rest
    /\ length rest = 28%nat
    /\ Forall isBase58 rest
    /\ length (Proxy.urlKey urlString) = 31%nat.
Proof.
  destruct (sha1_digest (Utf8.encode urlString)) as [Hoct Hlen].
  destruct (encode_header 17 20 4 36 28 (Sha1.sha1 (Utf8.encode urlString)))
    as (rest & E & Hl & Hr); try lia; try exact Hoct.
  - rewrite Hlen. vm_compute. discriminate.
  - rewrite Hlen. vm_compute. discriminate.
  - exists rest.
    assert (Ekey : Proxy.urlKey urlString = lit "U5d" ++ rest).
    { unfold Proxy.urlKey, Sha1.multihash_sha1. rewrite Hlen.
      change (Z.of_nat 20) with 20. rewrite E. reflexivity. }
    split; [exact Ekey |]. split; [exact Hl |]. split; [exact Hr |].
    rewrite Ekey, length_app, Hl. reflexivity.
Qed.

End KeyShape.

(** ** utils.ts: which requests share an image key *)

Module ImageKeyFacts.

Import Utils.

(** The characters of a printed integer: digits, and [-] in front of a
    negative one. *)
Definition isNumChar (c : Z) : Prop := c = 45 \/ 48 <= c <= 57.

Lemma uint_chars (d : Decimal.uint) :
  Forall isNumChar (lit (NilEmpty.string_of_uint d)).
Proof.
  induction d; cbn [NilEmpty.string_of_uint]; [constructor | ..];
    (constructor; [right; cbn; lia | exact IHd]).
Qed.

Lemma numToString_chars (n : Z) : Forall isNumChar (numToString n).
Proof.
  unfold numToString.
  assert (Hu : forall d, Forall isNumChar (lit (NilZero.string_of_uint d))).
  { intros d. destruct d; try apply uint_chars.
    constructor; [right; cbn; lia | constructor]. }
  destruct (Z.to_int n) as [d | d]; cbn [NilZero.string_of_int]; [apply Hu |].
  constructor; [left; reflexivity | apply Hu].
Qed.

Lemma lit_inj (a b : string) : lit a = lit b -> a = b.
Proof.
  unfold lit. revert b. induction a as [| c a IH]; intros [| d b] H;
    cbn [list_ascii_of_string map] in H; try discriminate H; [reflexivity |].
  injection H as Hc Hrest. f_equal; [| apply IH, Hrest].
  apply N2Z.inj in Hc.
  rewrite <- (ascii_N_embedding c), <- (ascii_N_embedding d), Hc. reflexivity.
Qed.

Lemma to_int_not_nil (n : Z) :
  Z.to_int n <> Decimal.Pos Decimal.Nil /\ Z.to_int n <> Decimal.Neg Decimal.Nil.
Proof.
  destruct n as [| p | p]; cbn [Z.to_int]; split; try discriminate;
    intros H; injection H as H;
    pose proof (DecimalPos.Unsigned.to_uint_nonnil p); contradiction.
Qed.

Lemma numToString_inj (a b : Z) : numToString a = numToString b -> a = b.
Proof.
  unfold numToString. intros H. apply lit_inj in H.
  apply DecimalZ.to_int_inj.
  destruct (to_int_not_nil a) as [Ha1 Ha2], (to_int_not_nil b) as [Hb1 Hb2].
  pose proof (NilZero.isi _ Ha1 Ha2) as Ea.
  pose proof (NilZero.isi _ Hb1 Hb2) as Eb.
  rewrite H in Ea. congruence.
Qed.

(** Cutting at a separator that the parts before it do not hold. *)
Lemma cut_at (sep : Z) (a1 a2 b1 b2 : jsstring) :
  ~ In sep a1 -> ~ In sep a2 ->
  (b1 = [] \/ exists r, b1 = sep :: r) ->
  (b2 = [] \/ exists r, b2 = sep :: r) ->
  a1 ++ b1 = a2 ++ b2 -> a1 = a2 /\ b1 = b2.
Proof.
  revert a2. induction a1 as [| x a1 IH]; intros a2 H1 H2 Hb1 Hb2 E.
  - destruct a2 as [| y a2]; [split; [reflexivity | exact E] |].
    exfalso. cbn [app] in E.
    destruct Hb1 as [-> | (r & ->)]; [discriminate E |].
    injection E as -> _. apply H2. left. reflexivity.
  - destruct a2 as [| y a2].
    + exfalso. cbn [app] in E.
      destruct Hb2 as [-> | (r & ->)]; [discriminate E |].
      injection E as -> _. apply H1. left. reflexivity.
    + cbn [app] in E. injection E as -> E.
      destruct (IH a2) as [-> ->]; try assumption.
      * intros H. apply H1. right. exact H.
      * intros H. apply H2. right. exact H.
      * split; reflexivity.
Qed.

Lemma numToString_no (c : Z) (n : Z) :
  ~ isNumChar c -> ~ In c (numToString n).
Proof.
  intros Hc Hin. pose proof (numToString_chars n) as H.
  rewrite List.Forall_forall in H. apply Hc, H, Hin.
Qed.

(** The dimensions that are set, in the order they are pushed. *)
Definition setDims (o : ProxyOptions) : list Z :=
  (if truthy (width o) then [orZero (width o)] else [])
  ++ (if truthy (height o) then [orZero (height o)] else []).

(** What an image key keeps of the options: the mode, the format, and
    either both dimensions (unset read as 0) in the Fit/Match case or the
    list of the set dimensions. *)
Definition sameImage (o1 o2 : ProxyOptions) : Prop :=
  mode o1 = mode o2 /\ format o1 = format o2
  /\ if isFit (mode o1) && isMatch (format o1)
     then orZero (width o1) = orZero (width o2)
          /\ orZero (height o1) = orZero (height o2)
     else setDims o1 = setDims o2.

Definition printDims (l : list Z) : jsstring :=
  flat_map (fun n => 95 :: numToString n) l.

(** What [getImageKey] appends to the original key. *)
Definition suffix (o : ProxyOptions) : jsstring :=
  if isFit (mode o) && isMatch (format o)
  then 95 :: numToString (orZero (width o))
          ++ 120 :: numToString (orZero (height o))
  else 95 :: ScalingMode_name (mode o)
          ++ 95 :: OutputFormat_name (format o) ++ printDims (setDims o).

Lemma getImageKey_suffix (origKey : jsstring) (o : ProxyOptions) :
  getImageKey origKey o = origKey ++ suffix o.
Proof.
  unfold getImageKey, suffix.
  destruct (isFit (mode o) && isMatch (format o)); [reflexivity |].
  rewrite extended_key_shape. unfold dimSuffix, setDims, printDims.
  destruct (truthy (width o)), (truthy (height o)); cbn [app flat_map];
    rewrite ?app_nil_r; reflexivity.
Qed.

Lemma printDims_shape (l : list Z) :
  printDims l = [] \/ exists r, printDims l = 95 :: r.
Proof. destruct l; [left; reflexivity | right; eexists; reflexivity]. Qed.

Lemma not_num_95 : ~ isNumChar 95.
Proof. unfold isNumChar. lia. Qed.

Lemma not_num_120 : ~ isNumChar 120.
Proof. unfold isNumChar. lia. Qed.

Lemma printDims_inj (l1 l2 : list Z) : printDims l1 = printDims l2 -> l1 = l2.
Proof.
  revert l2. induction l1 as [| n1 l1 IH]; intros [| n2 l2] H;
    try discriminate H; [reflexivity |].
  cbn [printDims flat_map] in H. injection H as H.
  apply cut_at with (sep := 95) in H as [Hn Hr];
    try apply numToString_no, not_num_95; try apply printDims_shape.
  apply numToString_inj in Hn. subst n2. f_equal. apply IH, Hr.
Qed.

Lemma mode_name_inj (m1 m2 : ScalingMode) (r1 r2 : jsstring) :
  ScalingMode_name m1 ++ 95 :: r1 = ScalingMode_name m2 ++ 95 :: r2 ->
  m1 = m2 /\ r1 = r2.
Proof.
  destruct m1, m2; intros H; try (split; [reflexivity |]);
    try (apply app_inv_head in H; injection H as H; exact H);
    apply (f_equal (hd 0)) in H; discriminate H.
Qed.

Lemma format_name_inj (f1 f2 : OutputFormat) (r1 r2 : jsstring) :
  OutputFormat_name f1 ++ r1 = OutputFormat_name f2 ++ r2 ->
  f1 = f2 /\ r1 = r2.
Proof.
  destruct f1, f2; intros H; try (split; [reflexivity |]);
    try (apply app_inv_head in H; exact H);
    apply (f_equal (hd 0)) in H; discriminate H.
Qed.

Lemma suffix_inj (o1 o2 : ProxyOptions) :
  suffix o1 = suffix o2 <-> sameImage o1 o2.
Proof.
  unfold suffix, sameImage. split.
  - destruct (isFit (mode o1) && isMatch (format o1)) eqn:L1,
             (isFit (mode o2) && isMatch (format o2)) eqn:L2; intros H.
    + apply andb_true_iff in L1 as [Hm1 Hf1], L2 as [Hm2 Hf2].
      destruct (mode o1), (mode o2); try discriminate.
      destruct (format o1), (format o2); try discriminate.
      split; [reflexivity |]. split; [reflexivity |].
      injection H as H.
      apply cut_at with (sep := 120) in H as [Hw Hh];
        try apply numToString_no, not_num_120;
        try (right; eexists; reflexivity).
      injection Hh as Hh.
      split; apply numToString_inj; assumption.
    + exfalso. injection H as H.
      destruct (numToString_head (orZero (width o1))) as (c & rest & E & Hc).
      rewrite E in H. apply (f_equal (hd 0)) in H.
      destruct (mode o2); cbn in H; lia.
    + exfalso. injection H as H.
      destruct (numToString_head (orZero (width o2))) as (c & rest & E & Hc).
      rewrite E in H. apply (f_equal (hd 0)) in H.
      destruct (mode o1); cbn in H; lia.
    + injection H as H. apply mode_name_inj in H as [Hm H].
      apply format_name_inj in H as [Hf H].
      split; [exact Hm |]. split; [exact Hf |]. apply printDims_inj, H.
  - intros (Hm & Hf & H). rewrite <- Hm, <- Hf.
    destruct (isFit (mode o1) && isMatch (format o1)).
    + destruct H as [-> ->]. reflexivity.
    + rewrite H. reflexivity.
Qed.

(** X5.  For original keys without [_] (those the handlers compute are
    such), two image keys are equal exactly when the original keys are
    equal and the options agree in mode, format and dimensions, where the
    dimensions are compared as the key prints them. *)
Theorem getImageKey_injective (k1 k2 : jsstring) (o1 o2 : ProxyOptions) :
  ~ In 95 k1 -> ~ In 95 k2 ->
  (getImageKey k1 o1 = getImageKey k2 o2 <-> k1 = k2 /\ sameImage o1 o2).
Proof.
  intros H1 H2. rewrite !getImageKey_suffix, <- suffix_inj. split.
  - intros H. apply cut_at with (sep := 95) in H; try assumption;
      right; unfold suffix;
      match goal with
      | |- context [if ?b then _ else _] => destruct b
      end; eexists; reflexivity.
  - intros [-> ->]. reflexivity.
Qed.

(** X6.  Outside the Fit/Match case the key does not tell a width from a
    height: a request that sets only the width to [n] and one that sets
    only the height to [n] get the same image key. *)
Theorem getImageKey_width_or_height (origKey : jsstring) (n : Z)
  (m : ScalingMode) (f : OutputFormat) :
  isFit m && isMatch f = false ->
  getImageKey origKey (opts (Some n) None m f)
  = getImageKey origKey (opts None (Some n) m f).
Proof.
  intros H. rewrite !getImageKey_suffix. f_equal. apply suffix_inj.
  unfold sameImage, setDims, opts. cbn [mode format width height].
  split; [reflexivity |]. split; [reflexivity |]. rewrite H.
  cbn [truthy orZero]. destruct (negb (n =? 0)); reflexivity.
Qed.

Lemma getImageKey_injective_witness :
  getImageKey (lit "U5dtafBJ2UkVYJ6YRvCNQ35nZpkhTFR")
              (opts (Some 100) None Cover WEBP)
  = getImageKey (lit "U5dtafBJ2UkVYJ6YRvCNQ35nZpkhTFR")
                (opts (Some 100) (Some 0) Cover WEBP)
  <-> lit "U5dtafBJ2UkVYJ6YRvCNQ35nZpkhTFR" = lit "U5dtafBJ2UkVYJ6YRvCNQ35nZpkhTFR"
      /\ sameImage (opts (Some 100) None Cover WEBP)
                   (opts (Some 100) (Some 0) Cover WEBP).
Proof.
  apply getImageKey_injective; vm_compute; intuition discriminate.
Defined.

Lemma getImageKey_width_or_height_witness :
  getImageKey (lit "Uabc123") (opts (Some 100) None Cover Match)
  = getImageKey (lit "Uabc123") (opts None (Some 100) Cover Match).
Proof. apply getImageKey_width_or_height. reflexivity. Defined.

End ImageKeyFacts.

(** ** proxy.ts: what [parseOptions] reads *)

Module ParseOptionsFacts.

Import Utils ProxyOptions.

(** The value of a decimal numeral read from the left, after [acc]. *)
Fixpoint uintValue (d : Decimal.uint) (acc : Z) : Z :=
  match d with
  | Decimal.Nil => acc
  | Decimal.D0 l => uintValue l (acc * 10)
  | Decimal.D1 l => uintValue l (acc * 10 + 1)
  | Decimal.D2 l => uintValue l (acc * 10 + 2)
  | Decimal.D3 l => uintValue l (acc * 10 + 3)
  | Decimal.D4 l => uintValue l (acc * 10 + 4)
  | Decimal.D5 l => uintValue l (acc * 10 + 5)
  | Decimal.D6 l => uintValue l (acc * 10 + 6)
  | Decimal.D7 l => uintValue l (acc * 10 + 7)
  | Decimal.D8 l => uintValue l (acc * 10 + 8)
  | Decimal.D9 l => uintValue l (acc * 10 + 9)
  end.

Lemma of_uint_acc_value (d : Decimal.uint) (p : positive) :
  Z.pos (Pos.of_uint_acc d p) = uintValue d (Z.pos p).
Proof.
  revert p. induction d; intros p; cbn [Pos.of_uint_acc uintValue];
    [reflexivity | rewrite IHd; f_equal; lia ..].
Qed.

Lemma of_uint_value (d : Decimal.uint) : Z.of_uint d = uintValue d 0.
Proof.
  unfold Z.of_uint.
  induction d; cbn [Pos.of_uint uintValue]; [reflexivity | exact IHd | ..];
    cbn [Z.of_N]; rewrite of_uint_acc_value; reflexivity.
Qed.

Lemma lit_cons (c : ascii) (s : string) :
  lit (String c s) = Z.of_N (N_of_ascii c) :: lit s.
Proof. reflexivity. Qed.

Lemma digitValue_digit (k : Z) : 0 <= k <= 9 -> digitValue 10 (48 + k) = Some k.
Proof.
  intros Hk. unfold digitValue.
  destruct (Z.leb_spec 48 (48 + k)); [| lia].
  destruct (Z.leb_spec (48 + k) 57); [| lia].
  cbn [andb]. replace (48 + k - 48) with k by lia.
  destruct (Z.ltb_spec k 10); [reflexivity | lia].
Qed.

Lemma digitsPrefix_digit (k : Z) (s : jsstring) (acc : Z) :
  0 <= k <= 9 ->
  digitsPrefix 10 (48 + k :: s) (Some acc)
  = digitsPrefix 10 s (Some (acc * 10 + k)).
Proof.
  intros Hk. cbn [digitsPrefix]. rewrite digitValue_digit by exact Hk.
  reflexivity.
Qed.

Ltac digit_char :=
  rewrite lit_cons;
  match goal with
  | |- context [Z.of_N (N_of_ascii ?c)] =>
      let v := eval vm_compute in (Z.of_N (N_of_ascii c) - 48) in
      change (Z.of_N (N_of_ascii c)) with (48 + v)
  end.

Lemma digitsPrefix_uint (d : Decimal.uint) (acc : Z) :
  digitsPrefix 10 (lit (NilEmpty.string_of_uint d)) (Some acc)
  = Some (uintValue d acc).
Proof.
  revert acc. induction d; intros acc; cbn [NilEmpty.string_of_uint uintValue];
    [reflexivity | ..];
    (digit_char; rewrite digitsPrefix_digit by lia; rewrite IHd;
     f_equal; f_equal; lia).
Qed.

Definition isDigit (x : Z) : Prop := 48 <= x <= 57.

Lemma option_map_mul_1 (x : option Z) : option_map (Z.mul 1) x = x.
Proof. destruct x as [z |]; [| reflexivity]. cbn [option_map]. f_equal. lia. Qed.

(** On a string of decimal digits [parseInt] reads no sign and no [0x]. *)
Lemma parseInt_digits (c : Z) (s : jsstring) :
  isDigit c -> Forall isDigit s ->
  parseInt (c :: s) = digitsPrefix 10 (c :: s) None.
Proof.
  intros Hc Hs. unfold isDigit in Hc.
  assert (Hcases : c = 48 \/ c = 49 \/ c = 50 \/ c = 51 \/ c = 52 \/ c = 53
                   \/ c = 54 \/ c = 55 \/ c = 56 \/ c = 57) by lia.
  unfold parseInt.
  destruct Hcases as [-> | [-> | [-> | [-> | [-> | [-> | [-> | [-> | [-> | ->]]]]]]]]];
    cbn [trimStart];
    match goal with
    | |- context [isWhiteSpace ?k] => change (isWhiteSpace k) with false
    end; cbv iota;
    try apply option_map_mul_1.
  destruct s as [| x s']; [apply option_map_mul_1 |].
  inversion Hs as [| ? ? Hx _]; subst. unfold isDigit in Hx.
  destruct (Z.eqb_spec x 120); [lia |]. destruct (Z.eqb_spec x 88); [lia |].
  apply option_map_mul_1.
Qed.

Lemma uint_digits (d : Decimal.uint) :
  Forall isDigit (lit (NilEmpty.string_of_uint d)).
Proof.
  induction d; cbn [NilEmpty.string_of_uint]; [constructor | ..];
    (rewrite lit_cons; constructor; [unfold isDigit; cbn; lia | exact IHd]).
Qed.

Lemma parseInt_uint (d : Decimal.uint) :
  d <> Decimal.Nil ->
  parseInt (lit (NilEmpty.string_of_uint d)) = Some (Z.of_uint d).
Proof.
  intros Hd. rewrite of_uint_value.
  pose proof (uint_digits d) as Hall.
  destruct d; [congruence | ..]; cbn [NilEmpty.string_of_uint] in *;
    rewrite lit_cons in *; inversion Hall as [| ? ? Hc Hs]; subst;
    rewrite parseInt_digits by assumption;
    match goal with
    | |- context [Z.of_N (N_of_ascii ?c)] =>
        let v := eval vm_compute in (Z.of_N (N_of_ascii c) - 48) in
        change (Z.of_N (N_of_ascii c)) with (48 + v)
    end;
    cbn [digitsPrefix]; rewrite digitValue_digit by lia;
    rewrite digitsPrefix_uint; reflexivity.
Qed.

(** The decimal text of an integer is read back as that integer. *)
Lemma parseInt_numToString (n : Z) : parseInt (numToString n) = Some n.
Proof.
  unfold numToString. destruct n as [| p | p]; cbn [Z.to_int NilZero.string_of_int].
  - reflexivity.
  - pose proof (DecimalPos.Unsigned.to_uint_nonnil p) as Hn.
    replace (NilZero.string_of_uint (Pos.to_uint p))
      with (NilEmpty.string_of_uint (Pos.to_uint p))
      by (destruct (Pos.to_uint p); [congruence | reflexivity ..]).
    rewrite parseInt_uint by exact Hn.
    unfold Z.of_uint. rewrite DecimalPos.Unsigned.of_to. reflexivity.
  - pose proof (DecimalPos.Unsigned.to_uint_nonnil p) as Hn.
    replace (NilZero.string_of_uint (Pos.to_uint p))
      with (NilEmpty.string_of_uint (Pos.to_uint p))
      by (destruct (Pos.to_uint p); [congruence | reflexivity ..]).
    rewrite lit_cons. change (Z.of_N (N_of_ascii "-")) with 45.
    pose proof (parseInt_uint _ Hn) as Hp.
    pose proof (uint_digits (Pos.to_uint p)) as Hall.
    destruct (lit (NilEmpty.string_of_uint (Pos.to_uint p))) as [| c s] eqn:E.
    + destruct (Pos.to_uint p); [congruence | discriminate E ..].
    + inversion Hall as [| ? ? Hc Hs]; subst.
      rewrite parseInt_digits in Hp by assumption.
      unfold parseInt. cbn [trimStart].
      change (isWhiteSpace 45) with false. cbv iota.
      assert (Hradix : (let '(radix, s0) :=
                          match c :: s with
                          | 48 :: x :: s' =>
                              if (x =? 120) || (x =? 88) then (16, s')
                              else (10, c :: s)
                          | _ => (10, c :: s)
                          end in
                        option_map (Z.mul (-1)) (digitsPrefix radix s0 None))
                       = option_map (Z.mul (-1)) (digitsPrefix 10 (c :: s) None)).
      { unfold isDigit in Hc.
        destruct (Z.eq_dec c 48) as [-> | Hne].
        - destruct s as [| x s']; [reflexivity |].
          inversion Hs as [| ? ? Hx _]; subst. unfold isDigit in Hx.
          destruct (Z.eqb_spec x 120); [lia |].
          destruct (Z.eqb_spec x 88); [lia |]. reflexivity.
        - assert (Hcases : c = 49 \/ c = 50 \/ c = 51 \/ c = 52 \/ c = 53
                           \/ c = 54 \/ c = 55 \/ c = 56 \/ c = 57) by lia.
          destruct Hcases as [-> | [-> | [-> | [-> | [-> | [-> | [-> | [-> | ->]]]]]]]];
            reflexivity. }
      rewrite Hradix, Hp. cbn [option_map]. f_equal.
      unfold Z.of_uint. rewrite DecimalPos.Unsigned.of_to. reflexivity.
Qed.

Lemma intOrUndefined_nonzero (v : option QueryValue) :
  intOrUndefined v <> Some 0.
Proof.
  unfold intOrUndefined. destruct (parseInt (toString v)) as [n |];
    [| discriminate].
  destruct (Z.eqb_spec n 0); [discriminate | congruence].
Qed.

(** X7.  No numeric option that [parseOptions] returns is [0]: a
    parameter that is absent, not a number, or zero comes out as
    [undefined], so that a set option is always a truthy one. *)
Theorem parseOptions_no_zero (query : gmap (list Z) QueryValue)
  (acceptHeader : jsstring) (o : ProxyOptions) :
  parseOptions query acceptHeader = inr o ->
  width o <> Some 0 /\ height o <> Some 0 /\ ignorecache o <> Some 0
  /\ invalidate o <> Some 0 /\ refetch o <> Some 0.
Proof.
  unfold parseOptions. destruct (parseMode _); [discriminate |].
  intros H. injection H as <-.
  cbn [width height ignorecache invalidate refetch].
  repeat split; apply intOrUndefined_nonzero.
Qed.

Lemma parseOptions_no_zero_witness :
  exists o,
    parseOptions {[ lit "width" := QString (lit "0") ]} (lit "image/webp")
    = inr o
    /\ (width o <> Some 0 /\ height o <> Some 0 /\ ignorecache o <> Some 0
        /\ invalidate o <> Some 0 /\ refetch o <> Some 0).
Proof.
  eexists. split; [vm_compute; reflexivity |].
  apply (parseOptions_no_zero {[ lit "width" := QString (lit "0") ]}
           (lit "image/webp")).
  vm_compute. reflexivity.
Defined.

(** X8.  A [format] parameter other than [match] fixes the output format:
    the [Accept] header then has no influence on the options. *)
Theorem parseOptions_format_fixed (query : gmap (list Z) QueryValue)
  (v : QueryValue) (accept1 accept2 : jsstring) :
  query !! lit "format" = Some v -> v <> QString (lit "match") ->
  parseOptions query accept1 = parseOptions query accept2.
Proof.
  intros Hv Hne. unfold parseOptions, parseFormat. rewrite Hv.
  cbn [isUndefined orb].
  rewrite (isString_false (Some v) "match") by congruence.
  reflexivity.
Qed.

Lemma parseOptions_format_fixed_witness :
  parseOptions {[ lit "format" := QString (lit "png") ]}
               (lit "image/avif,image/webp")
  = parseOptions {[ lit "format" := QString (lit "png") ]} [].
Proof.
  apply (parseOptions_format_fixed _ (QString (lit "png"))).
  - vm_compute. reflexivity.
  - intros H. vm_compute in H. discriminate H.
Defined.



End ParseOptionsFacts.

(** ** upload.ts: who may upload, and what a refused upload leaves *)

Module UploadFacts.

Import Json Store Frame Upload.

Section Handlers.

Variable URL : Type.
Variable out : Outside URL.

Definition paramOf (req : Request) (name : string) : jsstring :=
  match params req !! lit name with
  | Some v => v
  | None => []
  end.

Lemma orThrow_ok {A} (x : option A) (e : Exn) (w w' : World) (a : A) :
  orThrow x e w = (inr a, w') -> x = Some a /\ w' = w.
Proof.
  destruct x as [y |]; [| discriminate]. intros H.
  apply ret_ok in H as [-> ->]. split; reflexivity.
Qed.

(** The account a handler goes on with is the first one the node returned
    for the name, asked with the history of that moment. *)
Lemma firstAccount_ok (user : jsstring) (w w' : World) (found : option Account) :
  firstAccount URL out user w = (inr found, w') ->
  (length user <= 16)%nat
  /\ exists l, rpcAccounts out (trace w) user = Some l /\ found = head l.
Proof.
  unfold firstAccount, getAccount. intros H.
  apply bind_ok in H as (accounts & w1 & Hacc & H).
  destruct (Nat.leb_spec (length user) 16) as [Hlen | Hlen].
  - apply bind_ok in Hacc as (h & w2 & Hh & Hacc).
    apply history_ok in Hh as [-> ->].
    apply bind_ok in Hacc as ([] & w3 & _ & Hacc).
    apply ret_ok in Hacc as [-> _].
    destruct (rpcAccounts out (trace w) user) as [l |]; [| discriminate H].
    apply ret_ok in H as [-> _]. split; [exact Hlen |].
    exists l. split; reflexivity.
  - apply ret_ok in Hacc as [-> _]. discriminate H.
Qed.

Lemma keyAuthorised_In (authority : Authority) (publicKey : jsstring) :
  keyAuthorised authority publicKey = true ->
  exists weight, In (publicKey, weight) (key_auths authority)
                 /\ weight_threshold authority <= weight.
Proof.
  unfold keyAuthorised. rewrite existsb_exists.
  intros ([key weight] & Hin & Hok). cbn [fst snd] in Hok.
  apply andb_true_iff in Hok as [Hk Hw].
  apply bool_decide_eq_true_1 in Hk. subst key.
  exists weight. split; [exact Hin | lia].
Qed.


(** X11.  The retired test mode stays shut: [uploadHandler] accepts no
    request whose signature starts with [stndt], whatever the account,
    the file and the answers of the outside. *)
Theorem stndt_never_accepted (req : Request) (w w' : World)
  (resp : Response URL) :
  startsWith (paramOf req "signature") (lit "stndt") = true ->
  uploadHandler URL out req w <> (inr resp, w').
Proof.
  unfold uploadHandler, paramOf. intros Hs H.
  apply bind_ok in H as (file & w1 & Hf & H).
  apply bind_ok in H as (found & w2 & Hacc & H).
  apply bind_ok in H as (account & w3 & Ho & H).
  apply bind_ok in H as (valid & w4 & Hv & H).
  assert (Hhive : startsWith (match params req !! lit "signature" with
                              | Some s => s
                              | None => []
                              end) (lit "hive") = false).
  { destruct (params req !! lit "signature") as [[| c s] |];
      try discriminate Hs.
    cbn [lit startsWith map list_ascii_of_string] in Hs |- *.
    apply andb_true_iff in Hs as [Hc _]. apply Z.eqb_eq in Hc.
    cbn in Hc. subst c. reflexivity. }
  rewrite Hhive, Hs in Hv. discriminate Hv.
Qed.

(** *** What a refused upload leaves behind *)

Ltac emits_step :=
  first
    [ apply emits_ret | apply emits_throw | apply emits_history
    | apply emits_assert
    | apply emits_emit; reflexivity
    | apply emits_bind; [| intros ?]
    | apply emits_tryCatch; [| intros ?]
    | match goal with
      | |- emits _ (match ?x with _ => _ end) => destruct x
      | |- emits _ (orThrow ?x _) => destruct x; cbn [orThrow]
      end ].

(** A failing run of [m] changed no store and, unless it failed with
    [InternalError], did not attempt a write either. *)
Definition refusal {A} (m : M A) : Prop :=
  forall w e w', m w = (inl e, w') ->
    uploadStore w' = uploadStore w /\ proxyStore w' = proxyStore w
    /\ (e <> APIError InternalError ->
        exists evs, trace w' = trace w ++ evs /\ Forall noWrite evs).

Lemma refusal_emits {A} (m : M A) : emits noWrite m -> refusal m.
Proof.
  intros Hm w e w' H. destruct (Hm w _ _ H) as (Hu & Hp & evs & Ht & Hevs).
  split; [exact Hu |]. split; [exact Hp |]. intros _. eauto.
Qed.

Lemma refusal_bind {A B} (m : M A) (k : A -> M B) :
  emits noWrite m -> (forall a, refusal (k a)) -> refusal (bind m k).
Proof.
  intros Hm Hk w e w'. unfold bind.
  destruct (m w) as [[e1 | a] w1] eqn:E; intros H.
  - injection H as <- <-. exact (refusal_emits m Hm w _ _ E).
  - destruct (Hm w _ _ E) as (Hu & Hp & evs & Ht & Hevs).
    destruct (Hk a w1 e w' H) as (Hu' & Hp' & Hno).
    split; [congruence |]. split; [congruence |].
    intros Hne. destruct (Hno Hne) as (evs' & Ht' & Hevs').
    exists (evs ++ evs'). split.
    + rewrite Ht', Ht, app_assoc. reflexivity.
    + apply Forall_app; split; assumption.
Qed.

Lemma silent_emits {A} (m : M A) : silent m -> emits noWrite m.
Proof.
  intros Hm w r w' H. rewrite (Hm w r w' H).
  repeat split. exists []. rewrite app_nil_r. split; [reflexivity | constructor].
Qed.

Lemma storeExists_emits (s : StoreName) (key : jsstring) :
  emits noWrite (storeExists (storeFails out) s key).
Proof.
  intros w r w'. unfold storeExists, operation.
  destruct (storeFails out (trace w)); intros H; injection H as _ <-;
    (repeat split; exists [EvStoreExists s key];
     split; [reflexivity | repeat constructor]).
Qed.

Lemma refusal_finishUpload (account : Account) (profileName : jsstring)
  (file : FilePart) (imageHash : bytes) :
  refusal (finishUpload URL out account profileName file imageHash).
Proof.
  unfold finishUpload.
  apply refusal_bind; [apply emits_history | intros h].
  apply refusal_bind; [apply emits_assert | intros _].
  apply refusal_bind; [unfold getRatelimit; repeat emits_step | intros limit].
  apply refusal_bind; [apply emits_assert | intros _].
  apply refusal_bind; [apply getProfile_emits | intros profile].
  apply refusal_bind; [apply emits_assert | intros _].
  apply refusal_bind; [repeat emits_step | intros url].
  apply refusal_bind; [apply storeExists_emits | intros present].
  intros w e w' H. unfold bind in H.
  destruct present; [discriminate H |].
  unfold tryCatch, storeWrite, operation, throw in H.
  destruct (storeFails out (trace w)); [| discriminate H].
  injection H as <- <-. repeat split. intros Hne. congruence.
Qed.

(** X12.  A request that either upload handler refuses leaves both stores
    as they were; and unless the refusal is the [InternalError] of a
    failed write, the handler did not even attempt a write. *)
Theorem refused_upload_writes_nothing (req : Request) (w w' : World) (e : Exn) :
  uploadHandler URL out req w = (inl e, w')
  \/ uploadHsHandler URL out req w = (inl e, w') ->
  uploadStore w' = uploadStore w /\ proxyStore w' = proxyStore w
  /\ (e <> APIError InternalError ->
      exists evs, trace w' = trace w ++ evs /\ Forall noWrite evs).
Proof.
  assert (H1 : refusal (uploadHandler URL out req)).
  { unfold uploadHandler.
    apply refusal_bind; [apply silent_emits, receiveFile_silent | intros file].
    apply refusal_bind; [apply firstAccount_emits | intros found].
    apply refusal_bind; [repeat emits_step | intros account].
    apply refusal_bind; [| intros valid].
    - destruct (startsWith _ (lit "hive")).
      + apply emits_bind; [apply readToken_emits | intros tokenObj].
        destruct (tokenShape tokenObj);
          [apply verifyToken_emits | apply emits_ret].
      + destruct (startsWith _ (lit "stndt"));
          [apply emits_throw | apply verifyDirect_emits].
    - apply refusal_bind; [apply emits_assert | intros _].
      apply refusal_finishUpload. }
  assert (H2 : refusal (uploadHsHandler URL out req)).
  { unfold uploadHsHandler.
    apply refusal_bind; [apply silent_emits, receiveFile_silent | intros file].
    apply refusal_bind; [apply emits_assert | intros _].
    apply refusal_bind; [apply readToken_emits | intros tokenObj].
    destruct (tokenShape tokenObj); [| apply refusal_emits, emits_ret].
    apply refusal_bind; [repeat emits_step | intros username].
    apply refusal_bind; [apply firstAccount_emits | intros found].
    apply refusal_bind; [repeat emits_step | intros account].
    apply refusal_bind; [apply emits_assert | intros _].
    apply refusal_bind; [apply verifyToken_emits | intros valid].
    apply refusal_bind; [apply emits_assert | intros _].
    apply refusal_finishUpload. }
  intros [H | H]; [exact (H1 w e w' H) | exact (H2 w e w' H)].
Qed.


End Handlers.

(** [POST /foo/stndt123456]. *)
Definition postStndt : Request :=
  {| method := lit "POST";
     params := <[ lit "username" := lit "foo" ]>
                 {[ lit "signature" := lit "stndt123456" ]};
     content_type := lit "multipart/form-data; boundary=x";
     content_length := lit "180";
     form := FormFile (abcFile "test.jpg") |}.


Lemma stndt_never_accepted_witness :
  uploadHandler jsstring demo postStndt world0
  <> (inr (okAt "test.jpg"), world1).
Proof.
  apply (stndt_never_accepted jsstring demo postStndt world0 world1
           (okAt "test.jpg")).
  vm_compute. reflexivity.
Defined.

Lemma refused_upload_writes_nothing_witness :
  let w' := snd (uploadHandler jsstring demo postStndt world0) in
  uploadStore w' = uploadStore world0 /\ proxyStore w' = proxyStore world0
  /\ (APIError InvalidSignature <> APIError InternalError ->
      exists evs, trace w' = trace world0 ++ evs /\ Forall noWrite evs).
Proof.
  apply (refused_upload_writes_nothing jsstring demo postStndt world0
           (snd (uploadHandler jsstring demo postStndt world0))
           (APIError InvalidSignature)).
  left. vm_compute. reflexivity.
Defined.


End UploadFacts.

(** ** upload.ts: the name a file is stored under *)

Module FileNameFacts.

Import Upload.

(** The characters a cleaned name may hold: lower-case letters, digits,
    the dot and the underscore. *)
Definition isCleanChar (c : Z) : Prop :=
  97 <= c <= 122 \/ 48 <= c <= 57 \/ c = 46 \/ c = 95.

(** No two underscores in a row. *)
Fixpoint noDouble (s : jsstring) : Prop :=
  match s with
  | c :: s' =>
      match s' with
      | d :: _ => ~ (c = 95 /\ d = 95) /\ noDouble s'
      | [] => True
      end
  | [] => True
  end.

Lemma squeeze_head (s : jsstring) : hd_error (squeeze s) = hd_error s.
Proof.
  induction s as [| c s IH]; [reflexivity |].
  cbn [squeeze]. destruct s as [| d r]; [reflexivity |].
  destruct (Z.eqb_spec c 95) as [-> | Hc]; [| reflexivity].
  destruct (Z.eqb_spec d 95) as [-> | Hd]; [| reflexivity].
  cbn [andb]. rewrite IH. reflexivity.
Qed.

Lemma squeeze_noDouble (s : jsstring) : noDouble (squeeze s).
Proof.
  induction s as [| c s IH]; [exact I |].
  cbn [squeeze]. destruct s as [| d r]; [exact I |].
  destruct ((c =? 95) && (d =? 95)) eqn:E; [exact IH |].
  cbn [noDouble]. pose proof (squeeze_head (d :: r)) as Hh.
  destruct (squeeze (d :: r)) as [| d' r'] eqn:Es; [exact I |].
  cbn in Hh. injection Hh as ->. split; [| exact IH].
  intros [-> ->]. discriminate E.
Qed.

Lemma squeeze_Forall (P : Z -> Prop) (s : jsstring) :
  Forall P s -> Forall P (squeeze s).
Proof.
  induction 1 as [| c s Hc Hs IH]; [constructor |].
  cbn [squeeze]. destruct s as [| d r]; [repeat constructor; exact Hc |].
  destruct ((c =? 95) && (d =? 95)); [exact IH |].
  constructor; [exact Hc | exact IH].
Qed.

Definition lower (c : Z) : Z := if (65 <=? c) && (c <=? 90) then c + 32 else c.

Lemma lower_underscore (c : Z) : lower c = 95 <-> c = 95.
Proof.
  unfold lower. destruct (Z.leb_spec 65 c), (Z.leb_spec c 90); cbn [andb]; lia.
Qed.

Lemma lower_noDouble (s : jsstring) : noDouble s -> noDouble (map lower s).
Proof.
  induction s as [| c s IH]; [intros _; exact I |].
  destruct s as [| d r]; [intros _; exact I |].
  cbn [noDouble map] in *. intros [Hcd Hrest]. split; [| apply IH, Hrest].
  rewrite !lower_underscore. exact Hcd.
Qed.

Lemma noDouble_contains (s : jsstring) :
  noDouble s -> contains s (lit "__") = false.
Proof.
  unfold contains. change (lit "__") with [95; 95].
  induction s as [| c s IH]; [reflexivity |].
  intros H. destruct s as [| d r].
  - cbn [indexOf startsWith]. destruct (95 =? c); reflexivity.
  - cbn [noDouble] in H. destruct H as [Hcd Hrest].
    specialize (IH Hrest).
    change (indexOf (c :: d :: r) [95; 95])
      with (if startsWith (c :: d :: r) [95; 95] then Some O
            else option_map S (indexOf (d :: r) [95; 95])).
    destruct (indexOf (d :: r) [95; 95]); [discriminate IH |].
    cbn [startsWith option_map].
    destruct (Z.eqb_spec 95 c) as [<- |]; [| reflexivity].
    destruct (Z.eqb_spec 95 d) as [<- |]; [| reflexivity].
    exfalso. apply Hcd. split; reflexivity.
Qed.

(** X14.  The name [parseMultipart] gives a file consists of lower-case
    letters, digits, dots and underscores only, whatever name the client
    sent, and never holds two underscores in a row. *)
Theorem cleanName_safe (raw : jsstring) :
  Forall isCleanChar (cleanName raw)
  /\ contains (cleanName raw) (lit "__") = false.
Proof.
  unfold cleanName, ProxyOptions.toLowerCase. fold lower. split.
  - apply List.Forall_map. apply squeeze_Forall. apply List.Forall_map.
    apply List.Forall_forall. intros c _. unfold isCleanChar, lower.
    destruct (isNameChar c) eqn:E.
    + unfold isNameChar in E.
      destruct (Z.leb_spec 97 c), (Z.leb_spec c 122), (Z.leb_spec 65 c),
        (Z.leb_spec c 90), (Z.leb_spec 48 c), (Z.leb_spec c 57),
        (Z.eqb_spec c 46); cbn [andb orb] in E |- *;
        try discriminate E; lia.
    + cbn. lia.
  - apply noDouble_contains, lower_noDouble, squeeze_noDouble.
Qed.

End FileNameFacts.

(** ** proxy.ts: what the handler touches *)

Module ProxyFacts.

Import Utils ProxyOptions Store Frame Proxy.

Section Handler.

Variable URL : Type.
Variable out : Outside URL.

(** *** Postconditions of successful runs *)

Definition returns {A} (Q : A -> Prop) (m : M A) : Prop :=
  forall w a w', m w = (inr a, w') -> Q a.

Lemma returns_ret {A} (Q : A -> Prop) (a : A) : Q a -> returns Q (ret a).
Proof. intros H w b w' E. injection E as <- _. exact H. Qed.

Lemma returns_throw {A} (Q : A -> Prop) (e : Exn) : returns Q (@throw A e).
Proof. intros w a w' E. discriminate E. Qed.

Lemma returns_bind {A B} (Q : B -> Prop) (m : M A) (k : A -> M B) :
  (forall a, returns Q (k a)) -> returns Q (bind m k).
Proof.
  intros Hk w b w' E. apply bind_ok in E as (a & w1 & _ & E).
  exact (Hk a w1 b w' E).
Qed.

Lemma returns_bind_post {A B} (Q1 : A -> Prop) (Q : B -> Prop) (m : M A)
  (k : A -> M B) :
  returns Q1 m -> (forall a, Q1 a -> returns Q (k a)) -> returns Q (bind m k).
Proof.
  intros Hm Hk w b w' E. apply bind_ok in E as (a & w1 & E1 & E).
  exact (Hk a (Hm w a w1 E1) w1 b w' E).
Qed.

Lemma returns_tryCatch {A} (Q : A -> Prop) (m : M A) (h : Exn -> M A) :
  returns Q m -> (forall e, returns Q (h e)) -> returns Q (tryCatch m h).
Proof.
  intros Hm Hh w a w'. unfold tryCatch.
  destruct (m w) as [[e | b] w1] eqn:E; intros H.
  - exact (Hh e w1 a w' H).
  - injection H as <- <-. exact (Hm w b w1 E).
Qed.

Lemma returns_orReturn {A} (Q : Context -> Prop) (m : M (Context + A))
  (k : A -> M Context) :
  returns (fun r => match r with inl c => Q c | inr _ => True end) m ->
  (forall a, returns Q (k a)) -> returns Q (orReturn m k).
Proof.
  intros Hm Hk w c w' E. unfold orReturn in E.
  apply bind_ok in E as ([c1 | a] & w1 & E1 & E).
  - injection E as <- _. exact (Hm w _ w1 E1).
  - exact (Hk a w1 c w' E).
Qed.

Ltac returns_step :=
  first
    [ apply returns_throw
    | apply returns_bind; intros ?
    | match goal with
      | |- returns _ (match ?x with _ => _ end) => destruct x
      end ].

(** *** The target that [resolve] hands on *)

Lemma splitSlash_head (s cur : jsstring) :
  exists seg segs, Upload.splitSlash s cur = (rev cur ++ seg) :: segs.
Proof.
  revert cur. induction s as [| c s IH]; intros cur; cbn [Upload.splitSlash].
  - exists [], []. rewrite app_nil_r. reflexivity.
  - destruct (c =? 47).
    + exists [], (Upload.splitSlash s []). rewrite app_nil_r. reflexivity.
    + destruct (IH (c :: cur)) as (seg & segs & E).
      exists (c :: seg), segs. rewrite E. cbn [rev].
      rewrite <- app_assoc. reflexivity.
Qed.

Lemma firstSegment_D (pathname : jsstring) :
  nth_error pathname 1 = Some 68 ->
  exists rest, firstSegment pathname = 68 :: rest.
Proof.
  destruct pathname as [| c0 [| c1 rest]]; try discriminate.
  cbn [nth_error]. intros H. injection H as ->.
  unfold firstSegment. cbn [skipn Upload.splitSlash].
  change (68 =? 47) with false. cbv iota.
  destruct (splitSlash_head rest [68]) as (seg & segs & E).
  rewrite E. exists seg. reflexivity.
Qed.

(** The store of the original is the upload store only for an upload of
    this service, whose key then starts with [D]; the image key is the one
    [getImageKey] gives for the original key and the options. *)
Definition goodTarget (t : Target URL) : Prop :=
  t_origStore t = (if t_origIsUpload t then UploadStore else ProxyStore)
  /\ (t_origIsUpload t = true -> exists rest, t_origKey t = 68 :: rest)
  /\ t_imageKey t = getImageKey (t_origKey t) (t_options t).

Lemma resolve_target (fuel : nat) (req : Request) (ctx : Context) :
  returns (fun r => goodTarget (fst r)
                    /\ status (snd r) = status ctx
                    /\ tags (snd r) !! lit "store" = tags ctx !! lit "store")
          (resolve URL out fuel req ctx).
Proof.
  unfold resolve. repeat returns_step.
  apply returns_ret. cbn [fst snd]. split; [| split].
  - unfold goodTarget.
    cbn [t_origStore t_origIsUpload t_origKey t_imageKey t_options].
    split; [reflexivity |]. split; [| reflexivity].
    intros H. rewrite H. apply andb_true_iff in H as [_ H].
    apply bool_decide_eq_true_1 in H. apply firstSegment_D, H.
  - reflexivity.
  - cbn [setHeaderTo setTag setHeader tags].
    rewrite !lookup_insert_ne by (intros E; vm_compute in E; discriminate E).
    reflexivity.
Qed.

(** *** What the response keeps of the context *)

(** The status and the [store] tag of [c] are those of [ctx]. *)
Definition keeps (ctx c : Context) : Prop :=
  status c = status ctx /\ tags c !! lit "store" = tags ctx !! lit "store".

Ltac keeps_now :=
  unfold keeps;
  cbn [setBody setHeader setHeaderTo setTag setStatus tags status];
  rewrite ?lookup_insert_ne by (intros E; vm_compute in E; discriminate E);
  split; reflexivity.

Lemma keeps_respond (d : bool) (contentType : jsstring) (rv : bytes)
  (ctx : Context) : returns (keeps ctx) (respond d contentType rv ctx).
Proof.
  unfold respond. apply returns_bind_post with (Q1 := keeps ctx).
  - destruct d; repeat returns_step; apply returns_ret; keeps_now.
  - intros c [Hs Ht]. apply returns_ret. unfold keeps.
    cbn [setBody status tags]. split; assumption.
Qed.

Lemma keeps_serveOrBuildFallbackImage (ctx : Context) (store : StoreName)
  (fallbackBuffer : bytes) (options : ProxyOptions) :
  returns (keeps ctx)
          (serveOrBuildFallbackImage URL out ctx store fallbackBuffer options).
Proof.
  unfold serveOrBuildFallbackImage. repeat returns_step;
    apply returns_ret; keeps_now.
Qed.

Lemma keeps_serveFallback (t : Target URL) (ctx : Context) :
  returns (keeps ctx) (serveFallback URL out t ctx).
Proof.
  unfold serveFallback. do 2 (apply returns_bind; intros ?).
  apply keeps_serveOrBuildFallbackImage.
Qed.

Lemma keeps_giveUp {A} (t : Target URL) (ctx : Context) (b : bool) (msg : string) :
  returns (fun r : Context + A =>
             match r with inl c => keeps ctx c | inr _ => True end)
          (let* _ := logError msg in
           if b then
             let* ctx := serveFallback URL out t ctx in
             ret (inl ctx)
           else throw (APIError InvalidImage)).
Proof.
  apply returns_bind. intros _. destruct b; [| apply returns_throw].
  intros w r w' H. apply bind_ok in H as (c & w1 & Hc & H).
  injection H as <- _. exact (keeps_serveFallback t ctx w c w1 Hc).
Qed.

Lemma keeps_convert (t : Target URL) (origData : bytes) (contentType : jsstring)
  (d origFromCache : bool) (ctx : Context) :
  returns (keeps ctx)
          (convert URL out t origData contentType d origFromCache ctx).
Proof.
  unfold convert. destruct (passThrough _ _); [apply keeps_respond |].
  apply returns_orReturn.
  - apply returns_tryCatch.
    + apply returns_bind. intros x. apply returns_ret. exact I.
    + intros _. apply keeps_giveUp.
  - intros metaResult. apply returns_bind. intros _.
    destruct (buildPipeline _ _ _ _ _ _) as [pipeline contentType'].
    apply returns_orReturn.
    + destruct (sharpToBuffer out pipeline);
        [apply returns_ret; exact I | apply keeps_giveUp].
    + intros rv. apply returns_bind. intros _. apply keeps_respond.
Qed.

Definition tagged (ctx : Context) (v : string) (c : Context) : Prop :=
  status c = status ctx /\ tags c !! lit "store" = Some (lit v).

Lemma tagged_fromOriginal (t : Target URL) (ctx : Context) :
  returns (tagged ctx "original") (fromOriginal URL out t ctx).
Proof.
  unfold fromOriginal. apply returns_bind. intros [[origData contentType] d].
  intros w c w' H.
  destruct (keeps_convert _ _ _ _ _ _ w c w' H) as [Hs Ht].
  split; [exact Hs |]. rewrite Ht. cbn [setTag tags]. apply lookup_insert_eq.
Qed.

Lemma tagged_fromFetch (t : Target URL) (ctx : Context) :
  returns (tagged ctx "fetch") (fromFetch URL out t ctx).
Proof.
  unfold fromFetch. apply returns_bind. intros result.
  assert (Hset : forall c, keeps (setTag "store" "fetch" ctx) c ->
                           tagged ctx "fetch" c).
  { intros c [Hs Ht]. split; [exact Hs |]. rewrite Ht.
    cbn [setTag tags]. apply lookup_insert_eq. }
  destruct (negb _).
  - do 2 (apply returns_bind; intros ?).
    intros w c w' H. apply Hset.
    exact (keeps_serveOrBuildFallbackImage _ _ _ _ w c w' H).
  - do 2 (apply returns_bind; intros ?).
    intros w c w' H. apply Hset. exact (keeps_convert _ _ _ _ _ _ w c w' H).
Qed.

Lemma keeps_refetchCleanup (t : Target URL) (ctx : Context) :
  returns (keeps ctx) (refetchCleanup URL out t ctx).
Proof.
  unfold refetchCleanup. destruct (truthy _); [| apply returns_ret; keeps_now].
  repeat returns_step; apply returns_ret; keeps_now.
Qed.

(** *** Before the stores are asked *)

(** A purge of the CDN cache or an error line of the log. *)
Definition purgeOrLog (e : Event) : Prop :=
  match e with
  | EvPurge _ | EvLog _ => True
  | _ => False
  end.

Ltac io_step :=
  first
    [ apply emits_ret | apply emits_throw | apply emits_history
    | apply emits_assert
    | apply emits_emit; exact I
    | apply emits_bind; [| intros ?]
    | apply emits_tryCatch; [| intros ?]
    | match goal with
      | |- emits _ (match ?x with _ => _ end) => destruct x
      end ].

Lemma parseProxiedUrl_io (value : jsstring) :
  emits purgeOrLog (parseProxiedUrl URL out value).
Proof. unfold parseProxiedUrl. repeat io_step. Qed.

Lemma unwrapProxied_io (fuel : nat) (url : URL) :
  emits purgeOrLog (unwrapProxied URL out fuel url).
Proof.
  revert url. induction fuel as [| fuel IH]; intros url; cbn [unwrapProxied].
  - repeat io_step.
  - destruct (_ && _); [| apply emits_ret].
    apply emits_bind; [apply parseProxiedUrl_io | intros u; apply IH].
Qed.

(** The first phase of the handler asks no store and fetches nothing. *)
Lemma resolve_io (fuel : nat) (req : Request) (ctx : Context) :
  emits purgeOrLog (resolve URL out fuel req ctx).
Proof.
  unfold resolve.
  do 3 (apply emits_bind; [repeat io_step | intros ?]).
  apply emits_bind; [apply parseProxiedUrl_io | intros ?].
  apply emits_bind; [apply unwrapProxied_io | intros ?].
  unfold checkDimension, parseUrl, purgeCache, logError.
  repeat io_step.
Qed.

(** X15.  A request that the handler answers with 304 was answered from
    the request alone: no store was asked or changed and nothing was
    fetched; the outside saw at most a cache purge and log lines. *)
Theorem not_modified_without_io (fuel : nat) (req : Request)
  (ctx ctx' : Context) (w w' : World) :
  proxyHandler URL out fuel req ctx w = (inr ctx', w') ->
  status ctx <> Some 304 ->
  status ctx' = Some 304 ->
  uploadStore w' = uploadStore w /\ proxyStore w' = proxyStore w
  /\ exists evs, trace w' = trace w ++ evs /\ Forall purgeOrLog evs.
Proof.
  unfold proxyHandler. intros H Hctx H304.
  apply bind_ok in H as ([t ctx1] & w1 & Hres & H).
  destruct (resolve_target _ _ _ _ _ _ Hres) as (_ & Hstatus & _).
  cbn [snd] in Hstatus.
  destruct (fresh out req ctx1).
  - injection H as _ <-. exact (resolve_io _ _ _ _ _ _ Hres).
  - exfalso. apply Hctx. rewrite <- Hstatus, <- H304. symmetry.
    apply bind_ok in H as (ctx2 & w2 & Hclean & H).
    destruct (keeps_refetchCleanup _ _ _ _ _ Hclean) as [Hs2 _].
    rewrite <- Hs2.
    apply bind_ok in H as (present & w3 & _ & H).
    destruct (present && _).
    + unfold serveResized in H.
      apply bind_ok in H as (file & w4 & _ & H). injection H as <- _.
      reflexivity.
    + apply bind_ok in H as (present' & w4 & _ & H).
      destruct (present' && _).
      * exact (proj1 (tagged_fromOriginal _ _ _ _ _ H)).
      * exact (proj1 (tagged_fromFetch _ _ _ _ _ H)).
Qed.

(** An event that neither fetches nor changes a store. *)
Definition readOnly (e : Event) : Prop :=
  match e with
  | EvStoreExists _ _ | EvStoreRead _ _ | EvPurge _ | EvLog _ => True
  | _ => False
  end.

Lemma purgeOrLog_readOnly (evs : list Event) :
  Forall purgeOrLog evs -> Forall readOnly evs.
Proof.
  apply List.Forall_impl. intros [] H; try exact I; destruct H.
Qed.

Lemma storeRead_ok (s : StoreName) (key : jsstring) (w w' : World)
  (data : bytes) :
  storeRead (storeFails out) s key w = (inr data, w') ->
  contents s w !! key = Some data /\ w' = record w (EvStoreRead s key).
Proof.
  unfold storeRead. destruct (storeFails out (trace w)); [discriminate |].
  destruct (contents s w !! key) as [d |]; [| discriminate].
  intros H. injection H as <- <-. split; reflexivity.
Qed.

Lemma storeExists_run (s : StoreName) (key : jsstring) (w w' : World)
  (present : bool) :
  storeExists (storeFails out) s key w = (inr present, w') ->
  w' = record w (EvStoreExists s key).
Proof.
  unfold storeExists, operation.
  destruct (storeFails out (trace w)); [discriminate |].
  intros H. injection H as _ <-. reflexivity.
Qed.

(** X16.  A response that the handler streams from the store of converted
    images is the bytes stored there, with the immutable lifetime; to
    produce it the handler fetched nothing and changed no store. *)
Theorem resized_hit_serves_stored (fuel : nat) (req : Request)
  (ctx ctx' : Context) (w w' : World) :
  proxyHandler URL out fuel req ctx w = (inr ctx', w') ->
  tags ctx !! lit "store" <> Some (lit "resized") ->
  tags ctx' !! lit "store" = Some (lit "resized") ->
  exists key data,
    proxyStore w !! key = Some data
    /\ body ctx' = Some data
    /\ headers ctx' !! lit "Cache-Control" = Some (lit cacheImmutable)
    /\ uploadStore w' = uploadStore w /\ proxyStore w' = proxyStore w
    /\ exists evs, trace w' = trace w ++ evs /\ Forall readOnly evs.
Proof.
  unfold proxyHandler. intros H Hctx Htag.
  apply bind_ok in H as ([t ctx1] & w1 & Hres & H).
  destruct (resolve_target _ _ _ _ _ _ Hres) as (_ & _ & Htags).
  cbn [snd] in Htags.
  destruct (resolve_io _ _ _ _ _ _ Hres) as (Hu1 & Hp1 & evs1 & Ht1 & Hevs1).
  destruct (fresh out req ctx1).
  { exfalso. injection H as <- _. apply Hctx. rewrite <- Htags. exact Htag. }
  apply bind_ok in H as (ctx2 & w2 & Hclean & H).
  destruct (keeps_refetchCleanup _ _ _ _ _ Hclean) as [_ Hk2].
  apply bind_ok in H as (present & w3 & Hex & H).
  destruct (present && cached (t_options t)) eqn:Ehit.
  - apply andb_true_iff in Ehit as [_ Hcached].
    assert (Hre : truthy (refetch (t_options t)) = false).
    { unfold cached in Hcached. apply andb_true_iff in Hcached as [_ Hr].
      apply negb_true_iff in Hr. exact Hr. }
    unfold refetchCleanup in Hclean. rewrite Hre in Hclean.
    injection Hclean as <- <-.
    apply storeExists_run in Hex. subst w3.
    unfold serveResized in H.
    apply bind_ok in H as (file & w4 & Hread & H).
    injection H as <- <-.
    unfold tryCatch in Hread.
    destruct (storeRead (storeFails out) ProxyStore (t_imageKey t)
                        (record w1 (EvStoreExists ProxyStore (t_imageKey t))))
      as [[e | data] w5] eqn:Er.
    + apply bind_ok in Hread as (? & ? & _ & Hread).
      apply bind_ok in Hread as (? & ? & _ & Hread). discriminate Hread.
    + injection Hread as <- <-.
      apply storeRead_ok in Er as [Hdata ->].
      cbn [contents record proxyStore] in Hdata. rewrite Hp1 in Hdata.
      exists (t_imageKey t), data.
      split; [exact Hdata |]. split; [reflexivity |].
      split; [cbn [setBody setHeader headers]; apply lookup_insert_eq |].
      split; [exact Hu1 |]. split; [exact Hp1 |].
      exists (evs1 ++ [EvStoreExists ProxyStore (t_imageKey t);
                       EvStoreRead ProxyStore (t_imageKey t)]).
      split.
      * cbn [record trace]. rewrite Ht1, <- !app_assoc. reflexivity.
      * apply Forall_app. split; [apply purgeOrLog_readOnly, Hevs1 |].
        repeat constructor.
  - exfalso.
    apply bind_ok in H as (present' & w4 & _ & H).
    assert (Hno : tags ctx' !! lit "store" = Some (lit "original")
                  \/ tags ctx' !! lit "store" = Some (lit "fetch")).
    { destruct (present' && _).
      - left. exact (proj2 (tagged_fromOriginal _ _ _ _ _ H)).
      - right. exact (proj2 (tagged_fromFetch _ _ _ _ _ H)). }
    rewrite Htag in Hno.
    destruct Hno as [E | E]; vm_compute in E; discriminate E.
Qed.

(** *** The upload store under the proxy *)

Definition anyEvent (e : Event) : Prop := True.

(** The store [s'] agrees with [s] everywhere, or (when [u] holds)
    everywhere but at [k]. *)
Definition offKey (u : bool) (k : jsstring) (s s' : gmap (list Z) (list Z))
  : Prop :=
  forall k', u = false \/ k' <> k -> s' !! k' = s !! k'.

Definition frames (u : bool) (k : jsstring) {A} (m : M A) : Prop :=
  forall w r w', m w = (r, w') -> offKey u k (uploadStore w) (uploadStore w').

Section Frames.

Variable u : bool.
Variable k : jsstring.

Lemma frames_emits {A} (m : M A) : emits anyEvent m -> frames u k m.
Proof.
  intros Hm w r w' H. destruct (Hm w r w' H) as (Hu & _).
  intros k' _. rewrite Hu. reflexivity.
Qed.

Lemma frames_bind {A B} (m : M A) (f : A -> M B) :
  frames u k m -> (forall a, frames u k (f a)) -> frames u k (bind m f).
Proof.
  intros Hm Hf w r w'. unfold bind.
  destruct (m w) as [[e | a] w1] eqn:E; intros H.
  - injection H as _ <-. exact (Hm w _ _ E).
  - intros k' Hk. rewrite (Hf a w1 r w' H k' Hk). exact (Hm w _ _ E k' Hk).
Qed.

Lemma frames_tryCatch {A} (m : M A) (h : Exn -> M A) :
  frames u k m -> (forall e, frames u k (h e)) -> frames u k (tryCatch m h).
Proof.
  intros Hm Hh w r w'. unfold tryCatch.
  destruct (m w) as [[e | a] w1] eqn:E; intros H.
  - intros k' Hk. rewrite (Hh e w1 r w' H k' Hk). exact (Hm w _ _ E k' Hk).
  - injection H as _ <-. exact (Hm w _ _ E).
Qed.

Lemma frames_storeExists (s : StoreName) (key : jsstring) :
  frames u k (storeExists (storeFails out) s key).
Proof.
  intros w r w'. unfold storeExists, operation.
  destruct (storeFails out (trace w)); intros H; injection H as _ <-;
    intros k' _; reflexivity.
Qed.

Lemma frames_storeRead (s : StoreName) (key : jsstring) :
  frames u k (storeRead (storeFails out) s key).
Proof.
  intros w r w'. unfold storeRead.
  destruct (storeFails out (trace w)); [| destruct (contents s w !! key)];
    intros H; injection H as _ <-; intros k' _; reflexivity.
Qed.

(** A write or a removal is within the frame when it goes to the proxy
    store, or to the key [k] while [u] holds. *)
Definition within (s : StoreName) (key : jsstring) : Prop :=
  s = ProxyStore \/ (u = true /\ key = k).

Lemma frames_storeWrite (s : StoreName) (key : jsstring) (data : bytes) :
  within s key -> frames u k (storeWrite (storeFails out) s key data).
Proof.
  intros Hin w r w'. unfold storeWrite, operation.
  destruct (storeFails out (trace w)); intros H; injection H as _ <-;
    intros k' Hk; [reflexivity |].
  destruct Hin as [-> | [Hu ->]]; [reflexivity |].
  destruct s; [| reflexivity].
  cbn [update record uploadStore]. apply lookup_insert_ne.
  destruct Hk as [Hk | Hk]; congruence.
Qed.

Lemma frames_storeRemove (s : StoreName) (key : jsstring) :
  within s key -> frames u k (storeRemove (storeFails out) s key).
Proof.
  intros Hin w r w'. unfold storeRemove, operation.
  destruct (storeFails out (trace w)); intros H; injection H as _ <-;
    intros k' Hk; [reflexivity |].
  destruct Hin as [-> | [Hu ->]]; [reflexivity |].
  destruct s; [| reflexivity].
  cbn [update record uploadStore]. apply lookup_delete_ne.
  destruct Hk as [Hk | Hk]; congruence.
Qed.

End Frames.

Ltac any_step :=
  first
    [ apply emits_ret | apply emits_throw | apply emits_history
    | apply emits_assert
    | apply emits_emit; exact I
    | apply emits_bind; [| intros ?]
    | apply emits_tryCatch; [| intros ?]
    | match goal with
      | |- emits _ (match ?x with _ => _ end) => destruct x
      end ].

Lemma tryCandidates_any (candidates : list jsstring) (o : NeedleOptions) :
  emits anyEvent (FetchImage.tryCandidates (net out) candidates o).
Proof.
  induction candidates as [| c rest IH]; cbn [FetchImage.tryCandidates].
  - apply emits_ret.
  - apply emits_bind.
    + unfold FetchImage.attempt, FetchImage.fetchUrl. repeat any_step.
    + intros [res |]; [apply emits_ret | exact IH].
Qed.

Lemma ladder_any (urlString urlParams defaultUrl : jsstring)
  (options : FetchImage.FetchOptions) :
  emits anyEvent
        (fetchImageWithFallbacks URL out urlString urlParams defaultUrl options).
Proof.
  unfold fetchImageWithFallbacks, FetchImage.fetchImageWithFallbacks.
  apply emits_bind; [apply tryCandidates_any | intros r].
  unfold FetchImage.attempt, FetchImage.fetchUrl. repeat any_step.
Qed.

Lemma fetchDefaultAvatar_any : emits anyEvent (fetchDefaultAvatar URL out).
Proof. unfold fetchDefaultAvatar, FetchImage.fetchUrl. repeat any_step. Qed.

Lemma getSharpMetadataWithRetry_any (origData : bytes)
  (urlString urlParams fallbackUrl : jsstring) :
  emits anyEvent
        (getSharpMetadataWithRetry URL out origData urlString urlParams
                                   fallbackUrl).
Proof.
  unfold getSharpMetadataWithRetry, logError.
  destruct (sharpMetadata out origData); [apply emits_ret |].
  apply emits_bind; [apply emits_emit; exact I | intros _].
  apply emits_bind.
  - apply emits_tryCatch; [apply ladder_any | intros _; repeat any_step].
  - intros fallback. repeat any_step.
Qed.

Section Target.

Variable t : Target URL.
Hypothesis Ht : goodTarget t.

Let u := t_origIsUpload t.
Let k := t_origKey t.

Lemma within_orig : within u k (t_origStore t) (t_origKey t).
Proof.
  destruct Ht as (Hs & _). unfold within, u, k. rewrite Hs.
  destruct (t_origIsUpload t); [right; split; reflexivity | left; reflexivity].
Qed.

Lemma within_proxy (key : jsstring) : within u k ProxyStore key.
Proof. left. reflexivity. Qed.

Ltac frames_step :=
  first
    [ apply frames_storeExists | apply frames_storeRead
    | apply frames_storeWrite; first [apply within_proxy | apply within_orig]
    | apply frames_storeRemove; first [apply within_proxy | apply within_orig]
    | apply frames_emits; solve [repeat any_step]
    | apply frames_bind; [| intros ?]
    | apply frames_tryCatch; [| intros ?]
    | match goal with
      | |- frames _ _ (match ?x with _ => _ end) => destruct x
      end ].

Lemma frames_bestEffortRemove :
  frames u k (bestEffortRemove URL out (t_origStore t) (t_origKey t)).
Proof. unfold bestEffortRemove. repeat frames_step. Qed.

Lemma frames_ladder (options : FetchImage.FetchOptions) :
  frames u k (fetchImageWithFallbacks URL out (t_urlString t) (t_urlParams t)
                                      (DefaultAvatar out) options).
Proof. apply frames_emits, ladder_any. Qed.

Lemma frames_refetchCleanup (ctx : Context) :
  frames u k (refetchCleanup URL out t ctx).
Proof. unfold refetchCleanup, purgeCache, logError. repeat frames_step. Qed.

Lemma frames_serveResized (ctx : Context) :
  frames u k (serveResized URL out t ctx).
Proof. unfold serveResized, logError. repeat frames_step. Qed.

Lemma frames_storeOriginal (res : NeedleResponse) (d : bool) (origData : bytes)
  (msg : string) :
  frames u k (storeOriginal URL out t res d origData msg).
Proof. unfold storeOriginal, logError. repeat frames_step. Qed.

Lemma frames_readOriginal : frames u k (readOriginal URL out t).
Proof.
  unfold readOriginal. apply frames_tryCatch.
  - apply frames_bind; [apply frames_storeRead | intros origData].
    destruct (negb _); [| apply frames_emits, emits_ret].
    apply frames_bind; [apply frames_bestEffortRemove | intros _].
    apply frames_emits, emits_throw.
  - intros _. unfold logError.
    apply frames_bind; [apply frames_emits, emits_emit; exact I | intros _].
    apply frames_bind; [apply frames_ladder | intros result].
    apply frames_bind; [apply frames_storeOriginal | intros _].
    apply frames_emits, emits_ret.
Qed.

Lemma frames_serveOrBuildFallbackImage (ctx : Context) (fallbackBuffer : bytes)
  (options : ProxyOptions) :
  frames u k (serveOrBuildFallbackImage URL out ctx ProxyStore fallbackBuffer
                                        options).
Proof. unfold serveOrBuildFallbackImage, logError. repeat frames_step. Qed.

Lemma frames_serveFallback (ctx : Context) :
  frames u k (serveFallback URL out t ctx).
Proof.
  unfold serveFallback.
  apply frames_bind; [apply frames_bestEffortRemove | intros _].
  apply frames_bind; [apply frames_emits, fetchDefaultAvatar_any | intros b].
  apply frames_serveOrBuildFallbackImage.
Qed.

Lemma frames_giveUp {A} (ctx : Context) (b : bool) (msg : string) :
  frames u k (let* _ := logError msg in
              if b then
                let* ctx := serveFallback URL out t ctx in
                ret (@inl Context A ctx)
              else throw (APIError InvalidImage)).
Proof.
  unfold logError.
  apply frames_bind; [apply frames_emits, emits_emit; exact I | intros _].
  destruct b; [| apply frames_emits, emits_throw].
  apply frames_bind; [apply frames_serveFallback | intros c].
  apply frames_emits, emits_ret.
Qed.

Lemma frames_respond (d : bool) (contentType : jsstring) (rv : bytes)
  (ctx : Context) : frames u k (respond d contentType rv ctx).
Proof. unfold respond, logError. apply frames_emits. repeat any_step. Qed.

Lemma frames_convert (origData : bytes) (contentType : jsstring)
  (d origFromCache : bool) (ctx : Context) :
  frames u k (convert URL out t origData contentType d origFromCache ctx).
Proof.
  unfold convert. destruct (passThrough _ _); [apply frames_respond |].
  unfold orReturn. apply frames_bind.
  - apply frames_tryCatch.
    + apply frames_emits.
      apply emits_bind; [apply getSharpMetadataWithRetry_any | intros x].
      apply emits_ret.
    + intros _. apply frames_giveUp.
  - intros [c | metaResult]; [apply frames_emits, emits_ret |].
    apply frames_bind; [apply frames_emits, emits_assert | intros _].
    destruct (buildPipeline _ _ _ _ _ _) as [pipeline contentType'].
    apply frames_bind.
    + destruct (sharpToBuffer out pipeline);
        [apply frames_emits, emits_ret | apply frames_giveUp].
    + intros [c | rv]; [apply frames_emits, emits_ret |].
      apply frames_bind; [| intros _; apply frames_respond].
      unfold logError. repeat frames_step.
Qed.

Lemma frames_fromOriginal (ctx : Context) :
  frames u k (fromOriginal URL out t ctx).
Proof.
  unfold fromOriginal.
  apply frames_bind; [apply frames_readOriginal | intros [[origData ct] d]].
  apply frames_convert.
Qed.

Lemma frames_fromFetch (ctx : Context) : frames u k (fromFetch URL out t ctx).
Proof.
  unfold fromFetch. apply frames_bind.
  - apply frames_tryCatch; [apply frames_ladder |].
    intros _. unfold logError. apply frames_emits. repeat any_step.
  - intros result. destruct (negb _).
    + unfold logError.
      apply frames_bind; [apply frames_emits, emits_emit; exact I | intros _].
      apply frames_bind; [apply frames_emits, fetchDefaultAvatar_any | intros b].
      apply frames_serveOrBuildFallbackImage.
    + apply frames_bind; [apply frames_emits, emits_assert | intros _].
      apply frames_bind; [apply frames_storeOriginal | intros _].
      apply frames_convert.
Qed.

End Target.


(** *** Dimensions *)

Lemma orDefault_nonzero (x : option Z) (d : Z) : d <> 0 -> orDefault x d <> 0.
Proof.
  intros Hd. unfold orDefault. destruct x as [v |]; [| exact Hd].
  destruct (Z.eqb_spec v 0); assumption.
Qed.

Lemma capCustom_pos (n cap : Z) :
  0 < n -> capCustom (Some n) cap = Some (Z.min n cap).
Proof.
  intros Hn. unfold capCustom.
  destruct (Z.ltb_spec 0 n); [| lia].
  destruct (Z.ltb_spec cap n); cbn [andb]; f_equal; lia.
Qed.


Lemma unwrapProxied_silent (fuel : nat) (url : URL) :
  silent (unwrapProxied URL out fuel url).
Proof.
  revert url. induction fuel as [| fuel IH]; intros url; cbn [unwrapProxied].
  - destruct (_ && _); [apply silent_throw | apply silent_ret].
  - destruct (_ && _); [| apply silent_ret].
    apply silent_bind; [| intros u; apply IH].
    unfold parseProxiedUrl. destruct (UrlCodec.parseProxiedUrl _ _ _ _);
      [apply silent_ret | apply silent_throw].
Qed.

(** X19.  A request whose width or height parses to a negative number is
    refused before anything happens: the handler throws, and no store
    was asked, nothing was fetched and nothing was logged. *)
Theorem negative_dimension_refused (fuel : nat) (req : Request) (ctx : Context)
  (w : World) (o : ProxyOptions) (n : Z) :
  parseOptions (query req) (accept req) = inr o ->
  width o = Some n \/ height o = Some n ->
  n < 0 ->
  exists e, proxyHandler URL out fuel req ctx w = (inl e, w).
Proof.
  intros Ho Hdim Hn.
  assert (Hres : exists e, resolve URL out fuel req ctx w = (inl e, w)).
  { unfold resolve. rewrite Ho.
    unfold bind at 1. destruct (streq (method req) (lit "GET"));
      cbn [assert ret throw]; [| eauto].
    unfold bind at 1. destruct (match params req !! lit "url" with
                                | Some (_ :: _) => true
                                | _ => false
                                end); cbn [assert ret throw]; [| eauto].
    unfold bind at 1. cbn [ret].
    unfold bind at 1.
    destruct (parseProxiedUrl URL out _ w) as [[e | url] w1] eqn:E1.
    { unfold parseProxiedUrl in E1.
      destruct (UrlCodec.parseProxiedUrl _ _ _ _); [discriminate E1 |].
      injection E1 as _ <-. eauto. }
    assert (w1 = w) as ->.
    { unfold parseProxiedUrl in E1.
      destruct (UrlCodec.parseProxiedUrl _ _ _ _); [| discriminate E1].
      injection E1 as _ <-. reflexivity. }
    unfold bind at 1.
    destruct (unwrapProxied URL out fuel url w) as [[e | url'] w2] eqn:E2;
      apply unwrapProxied_silent in E2 as ->; [eauto |].
    unfold bind at 1. unfold checkDimension at 1.
    destruct (width o) as [x |] eqn:Ew.
    - destruct (Z.leb_spec 0 x); cbn [assert ret throw]; [| eauto].
      destruct Hdim as [Hd | Hd]; [injection Hd as ->; lia |].
      unfold bind at 1. unfold checkDimension. rewrite Hd.
      destruct (Z.leb_spec 0 n); [lia |]. cbn [assert throw]. eauto.
    - cbn [ret]. destruct Hdim as [Hd | Hd]; [discriminate Hd |].
      unfold bind at 1. unfold checkDimension. rewrite Hd.
      destruct (Z.leb_spec 0 n); [lia |]. cbn [assert throw]. eauto. }
  destruct Hres as [e He]. exists e.
  unfold proxyHandler, bind. rewrite He. reflexivity.
Qed.

End Handler.

(** *** Runs *)

(** The instance [demo] with a client whose cached copy is fresh. *)
Definition conditional : Outside jsstring :=
  {| urls := urls demo;
     SERVICE_URL := SERVICE_URL demo;
     SERVICE_BASE_URL := SERVICE_BASE_URL demo;
     MAX_IMAGE_SIZE := MAX_IMAGE_SIZE demo;
     DefaultAvatar := DefaultAvatar demo;
     max_image_width := max_image_width demo;
     max_image_height := max_image_height demo;
     max_custom_image_width := max_custom_image_width demo;
     max_custom_image_height := max_custom_image_height demo;
     cloudflare := cloudflare demo;
     net := net demo;
     storeFails := storeFails demo;
     imageBlacklisted := imageBlacklisted demo;
     fileType := fileType demo;
     sharpMetadata := sharpMetadata demo;
     sharpToBuffer := sharpToBuffer demo;
     etag := etag demo;
     fresh := fun _ _ => true |}.

Definition conditionalRun : (Exn + Context) * World :=
  proxyHandler jsstring conditional 8 (getPhoto []) emptyContext world0.

(** The photo is asked for a second time, after [photoRun]. *)
Definition secondRun : (Exn + Context) * World :=
  proxyHandler jsstring demo 8 (getPhoto []) emptyContext (snd (photoRun [])).

Lemma not_modified_without_io_witness :
  uploadStore (snd conditionalRun) = uploadStore world0
  /\ proxyStore (snd conditionalRun) = proxyStore world0
  /\ exists evs, trace (snd conditionalRun) = trace world0 ++ evs
                 /\ Forall purgeOrLog evs.
Proof.
  apply (not_modified_without_io jsstring conditional 8 (getPhoto [])
           emptyContext (responseOf conditionalRun) world0 (snd conditionalRun)).
  - vm_compute. reflexivity.
  - discriminate.
  - vm_compute. reflexivity.
Defined.

Lemma resized_hit_serves_stored_witness :
  exists key data,
    proxyStore (snd (photoRun [])) !! key = Some data
    /\ body (responseOf secondRun) = Some data
    /\ headers (responseOf secondRun) !! lit "Cache-Control"
       = Some (lit cacheImmutable)
    /\ uploadStore (snd secondRun) = uploadStore (snd (photoRun []))
    /\ proxyStore (snd secondRun) = proxyStore (snd (photoRun []))
    /\ exists evs, trace (snd secondRun) = trace (snd (photoRun [])) ++ evs
                   /\ Forall readOnly evs.
Proof.
  apply (resized_hit_serves_stored jsstring demo 8 (getPhoto []) emptyContext
           (responseOf secondRun) (snd (photoRun [])) (snd secondRun)).
  - vm_compute. reflexivity.
  - intros H. vm_compute in H. discriminate H.
  - vm_compute. reflexivity.
Defined.



Lemma negative_dimension_refused_witness :
  exists e,
    proxyHandler jsstring demo 8 (getPhoto [("width", "-5")]%string)
                 emptyContext world0
    = (inl e, world0).
Proof.
  apply (negative_dimension_refused jsstring demo 8
           (getPhoto [("width", "-5")]%string) emptyContext world0
           (Utils.opts (Some (-5)) None Cover Match) (-5)).
  - vm_compute. reflexivity.
  - left. reflexivity.
  - lia.
Defined.

End ProxyFacts.

(** ** legacy-proxy.ts: the redirect of the legacy API to the proxy *)

Module LegacyProxy.

Import Utils ProxyOptions UrlCodec Frame Proxy.

(** What the handler leaves on the context: [ctx.status] and the argument
    of [ctx.redirect], which Koa sets as the [Location] header (a status
    that is a redirect status already, such as 301, is kept by
    [ctx.redirect]).  The [handler] tag is left out; the error lines of the
    log are kept. *)
Record Redirect := { r_status : Z; r_location : jsstring }.

(** A value of the [options] object the query string is built from. *)
Inductive OptionValue := OStr (s : string) | ONum (n : Z).

Definition stringifyValue (v : OptionValue) : jsstring :=
  match v with OStr s => lit s | ONum n => numToString n end.

(** [querystring.stringify] on an object whose keys and values hold no
    character that it escapes: the pairs in insertion order. *)
Definition stringify (o : list (string * OptionValue)) : jsstring :=
  join (lit "&")
       (map (fun kv => lit (fst kv) ++ lit "=" ++ stringifyValue (snd kv)) o).

(** [Number.isFinite] of a [Number.parseInt] result, which is [NaN] or a
    number. *)
Definition isFinite (v : option Z) : bool :=
  match v with Some _ => true | None => false end.

(** [v >= 0], false for [NaN]. *)
Definition nonNegative (v : option Z) : bool :=
  match v with Some n => 0 <=? n | None => false end.

(** [ctx.params[name]]; only its truthiness matters where it is missing. *)
Definition param (req : Request) (name : string) : jsstring :=
  match params req !! lit name with Some v => v | None => [] end.

(** Modelled from the spec: [APIError.assertParams] of error.ts fails with
    [MissingParam] when a required parameter is absent or empty. *)
Definition assertParams (req : Request) (names : list string) : M unit :=
  assert (forallb (fun n => match params req !! lit n with
                            | Some (_ :: _) => true
                            | _ => false
                            end) names)
         MissingParam.

(** The [options] object: [format] and [mode], then [width] and [height]
    when they are positive. *)
Definition legacyOptions (width height : Z) : list (string * OptionValue) :=
  [("format", OStr "match"); ("mode", OStr "fit")]%string
  ++ (if 0 <? width then [("width"%string, ONum width)] else [])
  ++ (if 0 <? height then [("height"%string, ONum height)] else []).

Section Handler.

Variable URL : Type.
Variable urls : UrlApi URL.

(** The configured [service_url]. *)
Variable SERVICE_BASE_URL : jsstring.

Definition legacyProxyHandler (req : Request) : M Redirect :=
  let* _ := assert (streq (method req) (lit "GET")) InvalidMethod in
  let* _ := assertParams req ["width"; "height"; "url"]%string in
  let width := parseInt (param req "width") in
  let height := parseInt (param req "height") in
  let* _ := assert (isFinite width) BadRequest in
  let* _ := assert (isFinite height) BadRequest in
  let* _ := assert (nonNegative width) BadRequest in
  let* _ := assert (nonNegative height) BadRequest in
  let uu := param req "url" in
  let* url :=
    match uu with
    | _ :: _ =>
        match url_parse urls (stripTrailingSlashes uu) with
        | Some u => ret u
        | None =>
            let* _ := logError "legacyProxyHandler url failed" in
            throw (APIError InvalidProxyUrl)
        end
    | [] =>
        let* _ := logError "legacyProxyHandler url undefined" in
        match url_parse urls
                (Constants.DEFAULT_FALLBACK_IMAGE_URL SERVICE_BASE_URL) with
        | Some u => ret u
        | None => throw (JsError (lit "TypeError"))
        end
    end in
  let options := legacyOptions (orZero width) (orZero height) in
  let qs := stringify options in
  let b58url := base58Enc (url_href urls url) in
  ret {| r_status := 301;
         r_location := lit "/p/" ++ b58url ++ lit ".png?" ++ qs |}.

End Handler.

(** A request for [/500x0/https://example.com/image.jpg/]. *)
Definition legacyRequest : Request :=
  {| method := lit "GET";
     params := <[ lit "width" := lit "500" ]>
                 (<[ lit "height" := lit "0" ]>
                    {[ lit "url" := lit "https://example.com/image.jpg/" ]});
     query := ∅;
     accept := lit "image/webp,*/*" |}.

Definition plainUrls : UrlApi jsstring :=
  {| url_parse := schemeOnly; url_href := fun u => u;
     url_origin := fun u => u; url_pathname := fun _ => [] |}.

Definition quietWorld : World :=
  {| uploadStore := ∅; proxyStore := ∅; trace := [] |}.

Example legacy_redirect :
  fst (legacyProxyHandler jsstring plainUrls ecency legacyRequest quietWorld)
  = inr {| r_status := 301;
           r_location := lit "/p/5k2tWE6P7gjtG9og3eA1nP8mr8JxG35bvjZA5eqc.png?format=match&mode=fit&width=500" |}.
Proof. vm_compute. reflexivity. Qed.

End LegacyProxy.

(** ** legacy-proxy.ts: where the redirect leads *)

Module LegacyProxyFacts.

Import Utils ProxyOptions UrlCodec Frame Proxy LegacyProxy.

(** The [ctx.query] of the request a client makes for the redirect: each
    pair of the query string, its value as text. *)
Definition asQuery (o : list (string * OptionValue))
  : gmap (list Z) QueryValue :=
  list_to_map (map (fun kv => (lit (fst kv), QString (stringifyValue (snd kv)))) o).

Lemma stripWebpOrPng_png (token : jsstring) :
  stripWebpOrPng (token ++ lit ".png") = token.
Proof.
  unfold stripWebpOrPng, endsWith. rewrite !rev_app_distr.
  change (rev (lit ".png")) with [103; 110; 112; 46].
  change (rev (lit ".webp")) with [112; 98; 101; 119; 46].
  cbn [app startsWith Z.eqb Pos.eqb andb].
  replace (startsWith (rev token) []) with true
    by (destruct (rev token); reflexivity).
  rewrite length_app. change (length (lit ".png")) with 4%nat.
  replace (length token + 4 - 4)%nat with (length token + 0)%nat by lia.
  rewrite firstn_app_2. cbn [firstn]. apply app_nil_r.
Qed.

Lemma asQuery_options (W H : Z) (acceptHeader : jsstring) :
  parseOptions (asQuery (legacyOptions W H)) acceptHeader
  = inr {| width := intOrUndefined
                      (if 0 <? W then Some (QString (numToString W)) else None);
           height := intOrUndefined
                       (if 0 <? H then Some (QString (numToString H)) else None);
           mode := Fit;
           format := if supportsAvif acceptHeader then AVIF
                     else if supportsWebP acceptHeader then WEBP else Match;
           ignorecache := None; invalidate := None; refetch := None |}.
Proof.
  unfold legacyOptions, asQuery.
  destruct (0 <? W), (0 <? H); cbn [app map fst snd list_to_map stringifyValue];
    unfold parseOptions;
    repeat (first [ rewrite lookup_insert_eq
                  | rewrite lookup_insert_ne by (intros E; vm_compute in E; discriminate E)
                  | rewrite lookup_empty ]);
    reflexivity.
Qed.

Lemma intOrUndefined_positive (n : Z) :
  intOrUndefined (if 0 <? n then Some (QString (numToString n)) else None)
  = if 0 <? n then Some n else None.
Proof.
  destruct (Z.ltb_spec 0 n) as [Hn | Hn]; [| reflexivity].
  unfold intOrUndefined, toString.
  rewrite ParseOptionsFacts.parseInt_numToString.
  destruct (Z.eqb_spec n 0); [lia | reflexivity].
Qed.

Section Handler.

Variable URL : Type.
Variable urls : UrlApi URL.
Variable SERVICE_BASE_URL : jsstring.

(** X20.  The legacy redirect leads the proxy to the same image and the
    same box.  When [legacyProxyHandler] answers a request for [W]x[H] and
    a URL that parses as [U], it changes nothing and answers 301 with the
    location [/p/<token>.png?<query>], where the token is the base58 form
    of [U]; the proxy reads the path segment [<token>.png] as the URL that
    [U]'s text denotes (the fallback image if that text is no URL), and
    the query as mode [fit] with the width [W] and the height [H], each
    left out when it is [0], in the format negotiated from the [Accept]
    header.  [W] and [H] are below 2^53, where [parseInt] is exact. *)
Theorem legacy_redirect_reaches_proxy (req : Request) (w w' : World)
  (r : Redirect) (U : URL) (W H : Z) (acceptHeader : jsstring) :
  legacyProxyHandler URL urls SERVICE_BASE_URL req w = (inr r, w') ->
  parseInt (param req "width") = Some W ->
  parseInt (param req "height") = Some H ->
  W < 2 ^ 53 -> H < 2 ^ 53 ->
  url_parse urls (stripTrailingSlashes (param req "url")) = Some U ->
  Utf8.WellFormed (url_href urls U) ->
  let token := base58Enc (url_href urls U) in
  w' = w
  /\ r = {| r_status := 301;
            r_location := lit "/p/" ++ token ++ lit ".png?"
                          ++ stringify (legacyOptions W H) |}
  /\ UrlCodec.parseProxiedUrl URL (url_parse urls) SERVICE_BASE_URL
       (stripWebpOrPng (token ++ lit ".png"))
     = match url_parse urls (stripTrailingSlashes (url_href urls U)) with
       | Some u => Some u
       | None => url_parse urls
                   (Constants.DEFAULT_FALLBACK_IMAGE_URL SERVICE_BASE_URL)
       end
  /\ parseOptions (asQuery (legacyOptions W H)) acceptHeader
     = inr {| width := if 0 <? W then Some W else None;
              height := if 0 <? H then Some H else None;
              mode := Fit;
              format := if supportsAvif acceptHeader then AVIF
                        else if supportsWebP acceptHeader then WEBP
                        else Match;
              ignorecache := None; invalidate := None; refetch := None |}.
Proof.
  intros Hrun HW HH _ _ HU Hwf token.
  unfold legacyProxyHandler in Hrun. rewrite HW, HH in Hrun.
  apply bind_ok in Hrun as (? & w1 & H1 & Hrun).
  apply assert_ok in H1 as [_ ->].
  apply bind_ok in Hrun as (? & w1 & H1 & Hrun).
  unfold assertParams in H1. apply assert_ok in H1 as [Hp ->].
  do 4 (apply bind_ok in Hrun as (? & w1 & H1 & Hrun);
        apply assert_ok in H1 as [_ ->]).
  apply bind_ok in Hrun as (url & w1 & H1 & Hrun).
  assert (Huu : exists c s, param req "url" = c :: s).
  { cbn [forallb] in Hp. apply andb_true_iff in Hp as [_ Hp].
    apply andb_true_iff in Hp as [_ Hp]. apply andb_true_iff in Hp as [Hp _].
    unfold param. destruct (params req !! lit "url") as [[| c s] |];
      try discriminate Hp. eauto. }
  destruct Huu as (c & s & Huu). rewrite Huu in H1. rewrite <- Huu in H1.
  rewrite HU in H1. apply ret_ok in H1 as [Eu Ew]. subst url w1.
  apply ret_ok in Hrun as [Er Ew]. subst r w'. cbn [orZero].
  split; [reflexivity |]. split; [reflexivity |]. split.
  - rewrite stripWebpOrPng_png. unfold UrlCodec.parseProxiedUrl, token.
    rewrite base58Dec_base58Enc by exact Hwf. reflexivity.
  - rewrite asQuery_options, !intOrUndefined_positive. reflexivity.
Qed.

(** X21.  A legacy request that is refused is refused with one of four
    API errors, and nothing was changed: the wrong method, a missing
    parameter, a width or height that is no number or negative, or (only
    with both numbers in order) a URL that does not parse.  The branch that
    falls back to the black pixel is never reached: a request without a URL
    has failed with [MissingParam] before. *)
Theorem legacy_refusals (req : Request) (w w' : World) (e : Exn) :
  legacyProxyHandler URL urls SERVICE_BASE_URL req w = (inl e, w') ->
  uploadStore w' = uploadStore w /\ proxyStore w' = proxyStore w
  /\ (e = APIError InvalidMethod /\ w' = w
      \/ e = APIError MissingParam /\ w' = w
      \/ e = APIError BadRequest /\ w' = w
      \/ e = APIError InvalidProxyUrl
         /\ nonNegative (parseInt (param req "width")) = true
         /\ nonNegative (parseInt (param req "height")) = true
         /\ url_parse urls (stripTrailingSlashes (param req "url")) = None
         /\ trace w' = trace w ++ [EvLog (lit "legacyProxyHandler url failed")]).
Proof.
  unfold legacyProxyHandler, assertParams, bind at 1.
  destruct (streq (method req) (lit "GET")); cbn [assert ret throw];
    [| intros E; injection E as <- <-; auto 6].
  unfold bind at 1.
  destruct (forallb _ _) eqn:Hp; cbn [assert ret throw];
    [| intros E; injection E as <- <-; auto 6].
  unfold bind at 1.
  destruct (parseInt (param req "width")) as [W |]; cbn [isFinite assert ret throw];
    [| intros E; injection E as <- <-; auto 7].
  unfold bind at 1.
  destruct (parseInt (param req "height")) as [H |]; cbn [isFinite assert ret throw];
    [| intros E; injection E as <- <-; auto 7].
  unfold bind at 1. cbn [nonNegative].
  destruct (0 <=? W); cbn [assert ret throw];
    [| intros E; injection E as <- <-; auto 7].
  unfold bind at 1.
  destruct (0 <=? H); cbn [assert ret throw];
    [| intros E; injection E as <- <-; auto 7].
  assert (Huu : exists c s, param req "url" = c :: s).
  { cbn [forallb] in Hp. apply andb_true_iff in Hp as [_ Hp].
    apply andb_true_iff in Hp as [_ Hp]. apply andb_true_iff in Hp as [Hp _].
    unfold param. destruct (params req !! lit "url") as [[| c s] |];
      try discriminate Hp. eauto. }
  destruct Huu as (c & s & Huu). rewrite Huu. rewrite <- Huu.
  unfold bind, logError, emit.
  destruct (url_parse urls (stripTrailingSlashes (param req "url")));
    cbn [ret throw]; intros E; [discriminate E |].
  injection E as <- <-. cbn [record uploadStore proxyStore trace].
  repeat split; auto 10.
Qed.

End Handler.

Definition legacyNegative : Request :=
  {| method := lit "GET";
     params := <[ lit "width" := lit "-5" ]>
                 (<[ lit "height" := lit "0" ]>
                    {[ lit "url" := lit "https://example.com/image.jpg" ]});
     query := ∅;
     accept := [] |}.

Lemma legacy_refusals_witness :
  fst (legacyProxyHandler jsstring plainUrls ecency legacyNegative quietWorld)
  = inl (APIError BadRequest)
  /\ uploadStore (snd (legacyProxyHandler jsstring plainUrls ecency
                         legacyNegative quietWorld)) = ∅.
Proof.
  split; [vm_compute; reflexivity |].
  apply (legacy_refusals jsstring plainUrls ecency legacyNegative quietWorld
           _ (APIError BadRequest)).
  vm_compute. reflexivity.
Defined.

Lemma legacy_redirect_reaches_proxy_witness :
  UrlCodec.parseProxiedUrl jsstring schemeOnly ecency
    (stripWebpOrPng (base58Enc (lit "https://example.com/image.jpg")
                     ++ lit ".png"))
  = Some (lit "https://example.com/image.jpg")
  /\ parseOptions (asQuery (legacyOptions 500 0)) (lit "image/webp,*/*")
     = inr {| width := Some 500; height := None; mode := Fit; format := WEBP;
              ignorecache := None; invalidate := None; refetch := None |}.
Proof.
  destruct (legacy_redirect_reaches_proxy jsstring plainUrls ecency
              legacyRequest quietWorld quietWorld
              {| r_status := 301;
                 r_location := lit "/p/5k2tWE6P7gjtG9og3eA1nP8mr8JxG35bvjZA5eqc.png?format=match&mode=fit&width=500" |}
              (lit "https://example.com/image.jpg") 500 0
              (lit "image/webp,*/*"))
    as (_ & _ & Hurl & Hopt).
  - vm_compute. reflexivity.
  - vm_compute. reflexivity.
  - vm_compute. reflexivity.
  - lia.
  - lia.
  - vm_compute. reflexivity.
  - apply Utf8.wellFormedb_sound. vm_compute. reflexivity.
  - split; [exact Hurl | exact Hopt].
Defined.

End LegacyProxyFacts.

(** ** serve.ts: files of the upload store *)

Module Serve.

Import Store Frame Proxy.

(** Everything [serveHandler] consults outside the process. *)
Record Outside := {
  SERVICE_BASE_URL : jsstring;
  (** [Number.parseInt(config.get('max_image_size'))]. *)
  MAX_IMAGE_SIZE : Z;
  net : list Event -> Eff.Request -> FetchOutcome;
  storeFails : list Event -> bool;
  (** [imageBlacklist.includes], which asks the blacklist service. *)
  imageBlacklisted : list Event -> jsstring -> bool;
  (** [Sharp(buffer).metadata()], of which the format is read; [None]
      when it rejects. *)
  sharpFormat : bytes -> option (option jsstring);
}.

(** constants.ts. *)
Definition DEFAULT_AVATAR_HASH : jsstring :=
  lit "DQmUVRvAmChYcJqBifekwpR9UTsxSbbbnEi9kJXRWEGzX47".

Definition detectMimeType (format : option jsstring) : string :=
  match format with
  | Some f =>
      if streq f (lit "jpeg") then "image/jpeg"
      else if streq f (lit "png") then "image/png"
      else if streq f (lit "webp") then "image/webp"
      else if streq f (lit "gif") then "image/gif"
      else if streq f (lit "svg") then "image/svg+xml"
      else if streq f (lit "heif") then "image/heif"
      else if streq f (lit "avif") then "image/avif"
      else "application/octet-stream"
  | None => "application/octet-stream"
  end.

Definition serveOptions : NeedleOptions :=
  {| parse_response := false; follow_max := 5;
     open_timeout := None; response_timeout := None; read_timeout := None;
     user_agent := lit "SteemitProxy/1.0 (+https://github.com/steemit/imagehoster)" |}.

(** [Math.floor((res.statusCode || 404) / 100) !== 2]. *)
Definition notSuccess (code : option Z) : bool :=
  negb (orDefault code 404 / 100 =? 2).

(** Modelled from the spec: [APIError.assertParams] of error.ts fails with
    [MissingParam] when a required parameter is absent or empty. *)
Definition assertParams (req : Request) (names : list string) : M unit :=
  assert (forallb (fun n => match params req !! lit n with
                            | Some (_ :: _) => true
                            | _ => false
                            end) names)
         MissingParam.

(** [ctx.params['hash']], a non-empty string once [assertParams] passed. *)
Definition hashOf (req : Request) : jsstring :=
  match params req !! lit "hash" with Some v => v | None => [] end.

(** The optional [filename] inside a template literal. *)
Definition filenameOf (req : Request) : jsstring :=
  match params req !! lit "filename" with
  | Some v => v
  | None => lit "undefined"
  end.

Section Handler.

Variable out : Outside.

(** A property read off a response that may be [undefined]. *)
Definition defined (res : option NeedleResponse) : M NeedleResponse :=
  match res with
  | Some r => ret r
  | None => throw (JsError (lit "TypeError"))
  end.

(** [storeWrite(uploadStore, key, res.body)]: a body that is no [Buffer]
    is refused by the stream before anything is written. *)
Definition storeBody (key : jsstring) (b : Body) : M unit :=
  match b with
  | BufferBody data => storeWrite (storeFails out) UploadStore key data
  | OtherBody => throw (JsError (lit "TypeError"))
  end.

(** The inner [try] block: ask hive.blog, then steemitimages.com, and keep
    what was answered under the requested hash. *)
Definition fetchUpstream (req : Request) (urlString : jsstring) : M unit :=
  let* res := FetchImage.fetchUrl (net out)
                (lit "https://images.hive.blog/0x0/" ++ urlString)
                serveOptions in
  let* first := defined res in
  let* res := if notSuccess (statusCode first)
              then FetchImage.fetchUrl (net out)
                     (lit "https://steemitimages.com/0x0/" ++ urlString)
                     serveOptions
              else ret res in
  let* r := defined res in
  let buffer := Eff.body r in
  if res_bytes r <=? MAX_IMAGE_SIZE out then
    tryCatch (storeBody (hashOf req) buffer)
             (fun _ => logError "failed to store served image")
  else ret tt.

(** The key that is read: the default avatar for a blacklisted or empty
    image URL. *)
Definition keyOf (req : Request) (h : list Event) : jsstring :=
  let urlString := SERVICE_BASE_URL out ++ lit "/" ++ hashOf req
                   ++ lit "/" ++ filenameOf req in
  if imageBlacklisted out h urlString
     || Constants.isEmptyImageUrl (SERVICE_BASE_URL out) urlString
  then DEFAULT_AVATAR_HASH else hashOf req.

(** [serveHandler] of serve.ts.  [ctx.res.writeHead(404, 'Not Found')] and
    [ctx.res.end()] are kept as the status; of the log lines, the error
    line is kept. *)
Definition serveHandler (req : Request) (ctx : Context) : M Context :=
  let ctx := setTag "handler" "serve" ctx in
  let* _ := assert (streq (method req) (lit "GET")) InvalidMethod in
  let* _ := assertParams req ["hash"]%string in
  let urlString := SERVICE_BASE_URL out ++ lit "/" ++ hashOf req
                   ++ lit "/" ++ filenameOf req in
  let* h := history in
  let _hash := keyOf req h in
  let* found :=
    tryCatch
      (let* buffer := storeRead (storeFails out) UploadStore _hash in
       ret (Some buffer))
      (fun _ =>
         tryCatch (let* _ := fetchUpstream req urlString in ret None)
                  (fun _ => ret None)) in
  match found with
  | None => ret (setStatus 404 ctx)
  | Some buffer =>
      let mimeType := match sharpFormat out buffer with
                      | Some format => detectMimeType format
                      | None => "application/octet-stream"%string
                      end in
      let ctx := setHeader "Content-Type" mimeType ctx in
      let ctx := setHeader "Cache-Control" cacheImmutable ctx in
      ret (setBody buffer ctx)
  end.

End Handler.

End Serve.

(** ** serve.ts: what is served, and what is kept *)

Module ServeFacts.

Import Store Frame Proxy Serve.

Section Handler.

Variable out : Outside.

Lemma requires_hash (req : Request) (w w' : World) (u : unit) :
  assertParams req ["hash"]%string w = (inr u, w') ->
  w' = w /\ exists c s, hashOf req = c :: s.
Proof.
  unfold assertParams. intros H. apply assert_ok in H as [Hp ->].
  split; [reflexivity |].
  cbn [forallb] in Hp. apply andb_true_iff in Hp as [Hp _].
  unfold hashOf. destruct (params req !! lit "hash") as [[| c s] |];
    try discriminate Hp. eauto.
Qed.

(** Whatever the two upstream services do, the miss branch ends without a
    file and without an error. *)
Lemma miss_returns_none (req : Request) (urlString : jsstring)
  (w w' : World) (r : Exn + option bytes) :
  tryCatch (let* _ := fetchUpstream out req urlString in ret None)
           (fun _ => ret None) w = (r, w') ->
  r = inr None.
Proof.
  unfold tryCatch, bind.
  destruct (fetchUpstream out req urlString w) as [[e | u] w1];
    cbn [ret]; intros H; injection H as <- _; reflexivity.
Qed.

(** X22.  A response with a body is a file of the upload store, served as
    it is stored: the handler read it under the requested hash (under the
    hash of the default avatar for a blacklisted or empty image URL), did
    nothing else, in particular asked no upstream service, and marked the
    response immutable for a year. *)
Theorem served_file_is_stored (req : Request) (ctx ctx' : Context)
  (w w' : World) (data : bytes) :
  serveHandler out req ctx w = (inr ctx', w') ->
  body ctx = None -> body ctx' = Some data ->
  let key := keyOf out req (trace w) in
  uploadStore w !! key = Some data
  /\ w' = record w (EvStoreRead UploadStore key)
  /\ headers ctx' !! lit "Cache-Control" = Some (lit cacheImmutable)
  /\ status ctx' = status ctx.
Proof.
  intros Hrun Hnone Hbody key. unfold serveHandler in Hrun.
  apply bind_ok in Hrun as (? & w1 & H1 & Hrun).
  apply assert_ok in H1 as [_ ->].
  apply bind_ok in Hrun as (? & w1 & H1 & Hrun).
  apply requires_hash in H1 as [-> _].
  apply bind_ok in Hrun as (h & w1 & H1 & Hrun).
  apply ret_ok in H1 as [Eh Ew]. subst h w1. fold key in Hrun.
  apply bind_ok in Hrun as (found & w1 & H1 & Hrun).
  unfold tryCatch in H1.
  destruct (bind (storeRead (storeFails out) UploadStore key) _ w)
    as [[e | b] w2] eqn:Eread.
  - apply miss_returns_none in H1 as E. injection E as E. subst found.
    apply ret_ok in Hrun as [E _]. subst ctx'. cbn in Hbody. congruence.
  - injection H1 as <- <-.
    apply bind_ok in Eread as (buffer & w3 & Hread & Eread).
    apply ret_ok in Eread as [E1 E2]. subst b w3.
    unfold storeRead in Hread.
    destruct (storeFails out (trace w)); [discriminate Hread |].
    cbn [contents] in Hread.
    destruct (uploadStore w !! key) as [d |] eqn:Ek; [| discriminate Hread].
    injection Hread as E1 E2. subst d w2.
    apply ret_ok in Hrun as [E1 E2]. subst ctx' w'.
    cbn in Hbody. injection Hbody as E. subst buffer.
    repeat split. cbn. apply lookup_insert_eq.
Qed.

(** X23.  A [GET] with a hash is always answered, never failed.  When the
    file cannot be read from the upload store (the key is not there, or
    the store fails), the answer is 404 without a body and without
    headers, whatever the upstream services do: also when one of them
    delivers the image. *)
Theorem serve_always_answers (req : Request) (ctx : Context) (w : World)
  (c : Z) (s : jsstring) :
  method req = lit "GET" ->
  params req !! lit "hash" = Some (c :: s) ->
  exists ctx' w',
    serveHandler out req ctx w = (inr ctx', w')
    /\ (storeFails out (trace w) = true
        \/ uploadStore w !! keyOf out req (trace w) = None ->
        ctx' = setStatus 404 (setTag "handler" "serve" ctx)).
Proof.
  intros Hm Hp. unfold serveHandler, assertParams.
  rewrite Hm. cbn [forallb]. rewrite Hp.
  unfold streq. rewrite bool_decide_eq_true_2 by reflexivity.
  cbn [andb assert]. unfold bind at 1. cbn [ret]. unfold bind at 1. cbn [ret].
  unfold bind at 1. cbn [history].
  set (key := keyOf out req (trace w)).
  unfold bind at 1, tryCatch at 1.
  destruct (bind (storeRead (storeFails out) UploadStore key) _ w)
    as [[e | b] w2] eqn:Eread.
  - match goal with
    | |- context [tryCatch ?m ?h w2] =>
        destruct (tryCatch m h w2) as [r w3] eqn:Emiss
    end.
    apply miss_returns_none in Emiss as E. subst r.
    eexists _, _. split; [reflexivity |]. intros _. reflexivity.
  - apply bind_ok in Eread as (buffer & w3 & Hread & Eread).
    apply ret_ok in Eread as [E1 E2]. subst b w3.
    eexists _, _. split; [reflexivity |].
    unfold storeRead in Hread. cbn [contents] in Hread. fold key.
    intros [Hf | Hk].
    + rewrite Hf in Hread. discriminate Hread.
    + rewrite Hk in Hread. destruct (storeFails out (trace w)); discriminate Hread.
Qed.

(** What a run may have done to the stores: nothing, or one write to the
    upload store under [k], of a body that an upstream service answered
    with and that is within the size limit. *)
Definition keptUnder (k : jsstring) (w w' : World) : Prop :=
  proxyStore w' = proxyStore w
  /\ (uploadStore w' = uploadStore w
      \/ exists data h rq res,
           uploadStore w' = <[ k := data ]> (uploadStore w)
           /\ net out h rq = Resolved (Some res)
           /\ Eff.body res = BufferBody data
           /\ res_bytes res <= MAX_IMAGE_SIZE out).

Lemma fetchUrl_run (url : jsstring) (o : NeedleOptions) (w w' : World)
  (r : Exn + option NeedleResponse) :
  FetchImage.fetchUrl (net out) url o w = (r, w') ->
  uploadStore w' = uploadStore w /\ proxyStore w' = proxyStore w
  /\ forall res, r = inr (Some res) ->
       net out (trace w) {| req_url := url; req_options := o |}
       = Resolved (Some res).
Proof.
  unfold FetchImage.fetchUrl, bind, history, emit.
  destruct (net out (trace w) _) as [| res] eqn:E; cbn [ret throw];
    intros H; injection H as <- <-; repeat split.
  - intros res' H. discriminate H.
  - intros res' H. injection H as ->. reflexivity.
Qed.

Lemma fetchUpstream_run (req : Request) (urlString : jsstring) (w w' : World)
  (r : Exn + unit) :
  fetchUpstream out req urlString w = (r, w') -> keptUnder (hashOf req) w w'.
Proof.
  unfold fetchUpstream, bind at 1.
  destruct (FetchImage.fetchUrl _ _ _ w) as [[e | res] w1] eqn:E1.
  { intros H. injection H as _ <-.
    apply fetchUrl_run in E1 as (Hu & Hp & _). split; [exact Hp | left; exact Hu]. }
  apply fetchUrl_run in E1 as (Hu1 & Hp1 & Hres1).
  unfold bind at 1, defined at 1.
  destruct res as [first |]; cbn [ret throw];
    [| intros H; injection H as _ <-; split; [exact Hp1 | left; exact Hu1]].
  unfold bind at 1.
  set (second := if notSuccess (statusCode first) then _ else _).
  destruct (second w1) as [[e | res] w2] eqn:E2.
  { intros H. injection H as _ <-. subst second.
    destruct (notSuccess _).
    - apply fetchUrl_run in E2 as (Hu & Hp & _).
      split; [congruence | left; congruence].
    - discriminate E2. }
  assert (H2 : uploadStore w2 = uploadStore w /\ proxyStore w2 = proxyStore w
               /\ forall r', res = Some r' ->
                    exists h rq, net out h rq = Resolved (Some r')).
  { subst second. destruct (notSuccess _).
    - apply fetchUrl_run in E2 as (Hu & Hp & Hres).
      repeat split; [congruence | congruence |].
      intros r' ->. eauto.
    - injection E2 as <- <-. repeat split; [exact Hu1 | exact Hp1 |].
      intros r' <-. eauto. }
  destruct H2 as (Hu2 & Hp2 & Hres2).
  unfold bind, defined.
  destruct res as [r' |]; cbn [ret throw];
    [| intros H; injection H as _ <-; split; [exact Hp2 | left; exact Hu2]].
  destruct (Z.leb_spec (res_bytes r') (MAX_IMAGE_SIZE out)) as [Hsize | Hsize];
    [| intros H; injection H as _ <-; split; [exact Hp2 | left; exact Hu2]].
  unfold tryCatch, storeBody, logError, emit.
  destruct (Eff.body r') as [data |] eqn:Eb; cbn [throw];
    [| intros H; injection H as _ <-; split; [exact Hp2 | left; exact Hu2]].
  unfold storeWrite, operation.
  destruct (storeFails out (trace w2)); intros H; injection H as _ <-;
    cbn [record update uploadStore proxyStore];
    (split; [exact Hp2 |]); [left; exact Hu2 |].
  right. destruct (Hres2 r' eq_refl) as (h & rq & Hnet).
  exists data, h, rq, r'. rewrite Hu2. repeat split; assumption.
Qed.


End Handler.

(** A deployment whose first upstream service answers every request with
    three bytes, and whose store holds one file. *)
Definition upstream : Outside :=
  {| SERVICE_BASE_URL := UrlCodec.ecency;
     MAX_IMAGE_SIZE := 1000;
     net := fun _ rq =>
              if startsWith (req_url rq) (lit "https://images.hive.blog/0x0/")
              then Resolved (Some {| statusCode := Some 200;
                                     Eff.body := BufferBody [1; 2; 3];
                                     res_bytes := 3 |})
              else Rejected;
     storeFails := fun _ => false;
     imageBlacklisted := fun _ _ => false;
     sharpFormat := fun _ => Some (Some (lit "png")) |}.

Definition stored : World :=
  {| uploadStore := {[ lit "DQmStored" := [137; 80; 78; 71] ]};
     proxyStore := ∅; trace := [] |}.

Definition getFile (hash : string) : Request :=
  {| method := lit "GET";
     params := <[ lit "hash" := lit hash ]> {[ lit "filename" := lit "pic.png" ]};
     query := ∅; accept := [] |}.

Definition hitRun : (Exn + Context) * World :=
  serveHandler upstream (getFile "DQmStored") emptyContext stored.

Definition missRun : (Exn + Context) * World :=
  serveHandler upstream (getFile "DQmOther") emptyContext stored.

Example hit_is_png :
  headers (responseOf hitRun) !! lit "Content-Type" = Some (lit "image/png").
Proof. vm_compute. reflexivity. Qed.

Example miss_is_kept :
  status (responseOf missRun) = Some 404
  /\ uploadStore (snd missRun) !! lit "DQmOther" = Some [1; 2; 3].
Proof. split; vm_compute; reflexivity. Qed.

Lemma served_file_is_stored_witness :
  uploadStore stored !! lit "DQmStored" = Some [137; 80; 78; 71]
  /\ snd hitRun = record stored (EvStoreRead UploadStore (lit "DQmStored"))
  /\ headers (responseOf hitRun) !! lit "Cache-Control"
     = Some (lit cacheImmutable)
  /\ status (responseOf hitRun) = None.
Proof.
  apply (served_file_is_stored upstream (getFile "DQmStored") emptyContext
           (responseOf hitRun) stored (snd hitRun) [137; 80; 78; 71]).
  - vm_compute. reflexivity.
  - reflexivity.
  - vm_compute. reflexivity.
Defined.

Lemma serve_always_answers_witness :
  exists ctx' w',
    missRun = (inr ctx', w')
    /\ (storeFails upstream (trace stored) = true
        \/ uploadStore stored !! keyOf upstream (getFile "DQmOther") (trace stored)
           = None ->
        ctx' = setStatus 404 (setTag "handler" "serve" emptyContext)).
Proof.
  apply (serve_always_answers upstream (getFile "DQmOther") emptyContext stored
           68 (lit "QmOther")).
  - reflexivity.
  - vm_compute. reflexivity.
Defined.


End ServeFacts.

(** ** avatar.ts: the avatar of an account *)

Module Avatar.

Import Utils ProxyOptions Store Frame Proxy.

(** *** The pattern of account names *)

(** Regular expressions as far as [REGEX] uses them: character ranges,
    sequence, choice and repetition. *)
Inductive Re :=
| Nul
| Eps
| Range (lo hi : Z)
| Cat (a b : Re)
| Alt (a b : Re)
| Star (a : Re).

(** [a?]. *)
Definition Opt (a : Re) : Re := Alt a Eps.

Fixpoint nullable (r : Re) : bool :=
  match r with
  | Nul => false
  | Eps => true
  | Range _ _ => false
  | Cat a b => nullable a && nullable b
  | Alt a b => nullable a || nullable b
  | Star _ => true
  end.

(** What is left of [r] after the code unit [c]. *)
Fixpoint deriv (c : Z) (r : Re) : Re :=
  match r with
  | Nul => Nul
  | Eps => Nul
  | Range lo hi => if (lo <=? c) && (c <=? hi) then Eps else Nul
  | Cat a b => if nullable a then Alt (Cat (deriv c a) b) (deriv c b)
               else Cat (deriv c a) b
  | Alt a b => Alt (deriv c a) (deriv c b)
  | Star a => Cat (deriv c a) (Star a)
  end.

(** [/^r$/.test(s)]: the whole string matches. *)
Definition test (r : Re) (s : jsstring) : bool :=
  nullable (fold_left (fun r c => deriv c r) s r).

(** [[a-z0-9]] and [-[a-z0-9]]. *)
Definition alnum : Re := Alt (Range 97 122) (Range 48 57).
Definition dashed : Re := Cat (Range 45 45) alnum.

(** One label of a name: [[a-z]], then optionally one or more
    [-[a-z0-9]], then any number of [-[a-z0-9]] or [[a-z0-9]]. *)
Definition label : Re :=
  Cat (Range 97 122)
      (Cat (Opt (Cat dashed (Star dashed))) (Star (Alt dashed alnum))).

(** [REGEX]: a label, then any number of [\.] and a label. *)
Definition REGEX : Re := Cat label (Star (Cat (Range 46 46) label)).

(** [String.prototype.toLowerCase] as far as [REGEX] can tell.  The
    characters that lower-case to ASCII are A to Z, the Kelvin sign (to
    [k]) and the dotted capital I (to [i] and a combining dot); every
    other character lower-cases to characters outside ASCII, which [REGEX]
    rejects like the character itself. *)
Definition lowerName (s : jsstring) : jsstring :=
  flat_map (fun c => if (65 <=? c) && (c <=? 90) then [c + 32]
                     else if c =? 8490 then [107]
                     else if c =? 304 then [105; 775]
                     else [c]) s.

(** *** The keys *)

Definition hexDigit (n : Z) : Z := if n <? 10 then 48 + n else 87 + n.

(** [digest('hex')]. *)
Definition hex (b : bytes) : jsstring :=
  flat_map (fun x => [hexDigit (x / 16); hexDigit (x mod 16)]) b.

(** [getUrlHashKey] of utils.ts. *)
Definition getUrlHashKey (input : jsstring) : jsstring :=
  lit "U" ++ hex (Sha1.sha1 (Utf8.encode input)).

(** [parseInt(value, 10)]; [None] is [NaN]. *)
Definition parseInt10 (s : jsstring) : option Z :=
  let s := trimStart s in
  let '(sign, s) := match s with
                    | 45 :: s' => (-1, s')
                    | 43 :: s' => (1, s')
                    | _ => (1, s)
                    end in
  option_map (Z.mul sign) (digitsPrefix 10 s None).

(** [safeParseInt] of utils.ts on a route parameter that may be missing. *)
Definition safeParseInt (value : option jsstring) : option Z :=
  match value with
  | Some s => parseInt10 s
  | None => None
  end.

Definition AVATAR_SIZE : Z := 256.

(** *** The outside *)

(** A [HiveProfile] as far as the handler reads it: the image of
    [metadata?.profile?.profile_image] when the chain reaches a string,
    and the text of [active]. *)
Record Profile := {
  profile_image : option jsstring;
  active : jsstring;
}.

Record Request := {
  http : Proxy.Request;
  (** [ctx.get('user-agent')], empty when the header is absent. *)
  user_agent : jsstring;
}.

(** What the handler consults beyond what the proxy does. *)
Record Outside (URL : Type) := {
  proxy : Proxy.Outside URL;
  (** [cache.get(`${user}:profile`)]; [None] is [undefined]. *)
  cachedProfile : list Event -> jsstring -> option (option Profile);
  (** [rpcClient.call('bridge', 'get_profile', ...)]; [None] when the call
      fails or answers [null]. *)
  rpcProfile : list Event -> jsstring -> option Profile;
  (** [new Date(s).toUTCString()]. *)
  utcString : jsstring -> jsstring;
}.

Arguments proxy {URL} _.
Arguments cachedProfile {URL} _ _ _.
Arguments rpcProfile {URL} _ _ _.
Arguments utcString {URL} _ _.

Definition cacheHour : string :=
  "public,max-age=3600,stale-while-revalidate=86400".
Definition cacheNone : string := "no-cache,must-revalidate".

(** The four avatar paths of an account. *)
Definition avatarPaths (prefix username : jsstring) : list jsstring :=
  [ prefix ++ lit "/u/" ++ username ++ lit "/avatar/";
    prefix ++ lit "/u/" ++ username ++ lit "/avatar/small";
    prefix ++ lit "/u/" ++ username ++ lit "/avatar/medium";
    prefix ++ lit "/u/" ++ username ++ lit "/avatar/large" ].

Section Handler.

Variable URL : Type.
Variable out : Outside URL.

(** Modelled from the spec: [APIError.assertParams] of error.ts fails with
    [MissingParam] when a required parameter is absent or empty. *)
Definition assertParams (req : Request) (names : list string) : M unit :=
  assert (forallb (fun n => match params (http req) !! lit n with
                            | Some (_ :: _) => true
                            | _ => false
                            end) names)
         MissingParam.

(** [ctx.params['username']], a non-empty string once [assertParams]
    passed. *)
Definition usernameOf (req : Request) : jsstring :=
  match params (http req) !! lit "username" with Some v => v | None => [] end.

(** [getProfile(user, isCached)] of common.ts: the cache is asked first
    when [isCached], the node only for names of at most 16 characters, and
    a failed call answers [undefined]. *)
Definition getProfile (user : jsstring) (isCached : bool)
  : M (option Profile) :=
  let* h := history in
  match (if isCached then cachedProfile out h user else None) with
  | Some profile => ret profile
  | None =>
      if (length user <=? 16)%nat then
        let* _ := emit (EvGetProfile user) in
        ret (rpcProfile out h user)
      else ret None
  end.

Fixpoint purgeEach (values : list jsstring) : M unit :=
  match values with
  | [] => ret tt
  | value :: rest =>
      let* _ := purgeCache URL (proxy out) value in
      purgeEach rest
  end.

(** [getSharpMetadataWithRetry] of utils.ts, for a given user agent. *)
Definition getSharpMetadataWithRetry (origData : bytes)
  (urlString urlParams userAgent fallbackUrl : jsstring)
  : M (bytes * Metadata * bool) :=
  match sharpMetadata (proxy out) origData with
  | Some metadata => ret (origData, metadata, false)
  | None =>
      let* _ := logError "Sharp metadata() failed, attempting fallback image fetch" in
      let* fallback :=
        tryCatch
          (FetchImage.fetchImageWithFallbacks (net (proxy out)) urlString
             urlParams userAgent fallbackUrl
             {| FetchImage.timeout := None;
                FetchImage.skipUrls := Some [urlString] |})
          (fun _ =>
             let* _ := logError "metadata fallback fetch also failed" in
             throw (JsError (lit "metadata"))) in
      let data := bodyBytes (Eff.body (fst fallback)) in
      match sharpMetadata (proxy out) data with
      | Some metadata => ret (data, metadata, snd fallback)
      | None =>
          let* _ := logError "metadata() failed even after fallback fetch" in
          throw (JsError (lit "metadata"))
      end
  end.

(** [Math.min(x, limit)] for a dimension that is set. *)
Definition capped (x : option Z) (fromImage : option Z)
  (customLimit limit : Z) : option Z :=
  if truthy x then Some (Z.min (orZero x) customLimit)
  else if truthy fromImage then Some (Z.min (orZero fromImage) limit)
  else x.

(** [x || d] for a dimension. *)
Definition orLimit (x : option Z) (d : Z) : option Z :=
  if truthy x then x else Some d.

(** [resizeImageWithOptions] of image-resizer.ts.  The pipeline is built
    from the data it is given, also when the metadata came from a fetched
    replacement. *)
Definition resizeImageWithOptions (origData : bytes) (contentType : jsstring)
  (options : ProxyOptions) (urlString urlParams userAgent fallbackUrl : jsstring)
  : M (bytes * jsstring * bool) :=
  let* metaResult :=
    tryCatch (getSharpMetadataWithRetry origData urlString urlParams userAgent
                                        fallbackUrl)
             (fun _ => throw (APIError InvalidImage)) in
  let meta := snd (fst metaResult) in
  let isFallback := snd metaResult in
  let* _ := assert (truthy (meta_width meta) && truthy (meta_height meta))
                   InvalidImage in
  let maxWidth := orDefault (max_image_width (proxy out)) 1280 in
  let maxHeight := orDefault (max_image_height (proxy out)) 1280 in
  let maxCustomWidth := orDefault (max_custom_image_width (proxy out)) 8000 in
  let maxCustomHeight := orDefault (max_custom_image_height (proxy out)) 8000 in
  let width := capped (width options) (meta_width meta) maxCustomWidth maxWidth in
  let height := capped (height options) (meta_height meta) maxCustomHeight
                       maxHeight in
  let '(width, height) :=
    match mode options with
    | Cover => (width, height)
    | Fit => (orLimit width maxWidth, orLimit height maxHeight)
    end in
  let isSvg := streq contentType (lit "image/svg+xml")
               || streq contentType (lit "image/svg") in
  let force := match format options with
               | Match => if isSvg then Some PNG else None
               | f => Some f
               end in
  let contentType := match format options with
                     | Match => if isSvg then lit "image/png" else contentType
                     | WEBP => lit "image/webp"
                     | JPEG => lit "image/jpeg"
                     | PNG => lit "image/png"
                     | AVIF => lit "image/avif"
                     end in
  let pipeline := {| p_input := origData; p_defaults := true;
                     p_fit := mode options; p_width := width;
                     p_height := height; p_force := force |} in
  match sharpToBuffer (proxy out) pipeline with
  | Some buffer => ret (buffer, contentType, isFallback)
  | None => throw (JsError (lit "sharp"))
  end.

(** [a || b] for strings. *)
Definition orElse (a b : jsstring) : jsstring :=
  match a with [] => b | _ => a end.

(** The [else] branch that fetches the original and keeps it. *)
Definition fetchOriginal (req : Request) (username urlString urlParams : jsstring)
  (origStore : StoreName) (origKey : jsstring) : M (bytes * jsstring * bool) :=
  tryCatch
    (let* result :=
       FetchImage.fetchImageWithFallbacks (net (proxy out)) urlString urlParams
         (orElse (user_agent req) Proxy.userAgent) (DefaultAvatar (proxy out))
         plainFetch in
     let res := fst result in
     let isFetchFallback := snd result in
     let origData := bodyBytes (Eff.body res) in
     let contentType := mimeMagic URL (proxy out) origData in
     let* _ :=
       if res_bytes res <=? MAX_IMAGE_SIZE (proxy out) then
         tryCatch
           (let* _ := storeWrite (storeFails (proxy out)) origStore origKey
                                 origData in
            purgeEach (avatarPaths
                         (url_origin (urls (proxy out)) (SERVICE_URL (proxy out)))
                         username))
           (fun _ => logError "failed to store original avatar image")
       else ret tt in
     ret (origData, contentType, isFetchFallback))
    (fun _ =>
       let* _ := logError "Image fetch failed" in
       throw (APIError InvalidImage)).

(** [handleAvatar] of avatar.ts.  Of its log lines, the error lines are
    kept. *)
Definition handleAvatar (req : Request) (ctx : Context) : M Context :=
  let ctx := setTag "handler" "avatar" ctx in
  let* _ := assert (streq (method (http req)) (lit "GET")) InvalidMethod in
  let* _ := assertParams req ["username"]%string in
  let preferWebP := supportsWebP (accept (http req)) in
  let username := lowerName (usernameOf req) in
  let* _ := assert (test REGEX username) NoSuchAccount in
  let ignorecache := intOrUndefined (query (http req) !! lit "ignorecache") in
  let invalidate := intOrUndefined (query (http req) !! lit "invalidate") in
  let shouldBypassCache := truthy ignorecache || truthy invalidate in
  let* found := getProfile username (negb shouldBypassCache) in
  match found with
  | None => throw (APIError NoSuchAccount)
  | Some profile =>
      let avatarUrl :=
        match profile_image profile with
        | Some image => if startsWith image (lit "http") then image
                        else DefaultAvatar (proxy out)
        | None => DefaultAvatar (proxy out)
        end in
      let size := orDefault (safeParseInt (params (http req) !! lit "size"))
                            AVATAR_SIZE in
      let* url := parseUrl URL (proxy out)
                    (orElse avatarUrl (DefaultAvatar (proxy out))) in
      let urlParams := defaultUrlParams in
      let urlString := url_href (urls (proxy out)) url in
      let origIsUpload :=
        streq (url_origin (urls (proxy out)) (SERVICE_URL (proxy out)))
              (url_origin (urls (proxy out)) url)
        && bool_decide (nth_error (url_pathname (urls (proxy out)) url) 1
                        = Some 68) in
      let ctx := setTag "is_upload" (if origIsUpload then "true" else "false")
                        ctx in
      let origStore := if origIsUpload then UploadStore else ProxyStore in
      let origKey := if origIsUpload
                     then firstSegment (url_pathname (urls (proxy out)) url)
                     else getUrlHashKey urlString in
      let options := {| width := Some size; height := Some size; mode := Cover;
                        format := if preferWebP then WEBP else Match;
                        ignorecache := None; invalidate := None;
                        refetch := None |} in
      let imageKey := getImageKey origKey options in
      let ctx := setHeaderTo "ETag" (etag (proxy out) imageKey) ctx in
      let ctx := setHeaderTo "Last-Modified"
                             (utcString out (active profile ++ lit "Z")) ctx in
      if fresh (proxy out) (http req) ctx && negb shouldBypassCache
      then ret (setStatus 304 ctx)
      else
        let* present := storeExists (storeFails (proxy out)) ProxyStore
                                    imageKey in
        if present && negb shouldBypassCache then
          let ctx := setTag "store" "resized" ctx in
          let* file := storeRead (storeFails (proxy out)) ProxyStore imageKey in
          let ctx := setHeaderTo "Content-Type"
                       (mimeMagic URL (proxy out) (firstn (Z.to_nat 16384) file))
                       ctx in
          let ctx := setHeader "Cache-Control" cacheHour ctx in
          ret (setBody file ctx)
        else
          let origin := url_origin (urls (proxy out)) (SERVICE_URL (proxy out)) in
          let* _ :=
            if shouldBypassCache then
              let* present := storeExists (storeFails (proxy out)) ProxyStore
                                          imageKey in
              let* _ := if present
                        then storeRemove (storeFails (proxy out)) ProxyStore
                                         imageKey
                        else ret tt in
              purgeEach (avatarPaths origin username
                         ++ avatarPaths (origin ++ lit "/webp") username)
            else ret tt in
          let* present := storeExists (storeFails (proxy out)) origStore
                                      origKey in
          let* original :=
            if present && negb shouldBypassCache then
              let* origData := storeRead (storeFails (proxy out)) origStore
                                         origKey in
              ret (setTag "store" "original" ctx,
                   (origData, mimeMagic URL (proxy out) origData, false))
            else
              let* fetched := fetchOriginal req username urlString urlParams
                                            origStore origKey in
              ret (setTag "store" "fetch" ctx, fetched) in
          let '(ctx, (origData, contentType, isFetchFallback)) := original in
          let* resized :=
            if streq contentType (lit "image/gif") && isMatch (format options)
            then ret (origData, contentType, false)
            else
              let* result := resizeImageWithOptions origData contentType options
                               urlString urlParams (user_agent req)
                               (DefaultAvatar (proxy out)) in
              let* _ := tryCatch
                          (storeWrite (storeFails (proxy out)) ProxyStore
                                      imageKey (fst (fst result)))
                          (fun _ => logError "failed to store converted avatar image") in
              ret result in
          let '(rv, contentType, isResizeFallback) := resized in
          let isFinalFallback := isFetchFallback || isResizeFallback in
          let ctx := setHeaderTo "Content-Type" contentType ctx in
          let ctx := setHeader "Vary" "Accept" ctx in
          let ctx := if shouldBypassCache
                     then setHeader "Cache-Control" cacheNone ctx
                     else setHeader "Cache-Control"
                            (if isFinalFallback then cacheShort else cacheHour)
                            ctx in
          ret (setBody rv ctx)
  end.

End Handler.

End Avatar.

(** ** avatar.ts: names, lifetimes and the bypass *)

Module AvatarFacts.

Import Utils ProxyOptions Store Frame Proxy Avatar.

(** *** What [REGEX] accepts *)

(** A regular expression that matches nothing, seen from its shape. *)
Fixpoint dead (r : Re) : bool :=
  match r with
  | Nul => true
  | Eps => false
  | Range _ _ => false
  | Cat a b => dead a || dead b
  | Alt a b => dead a && dead b
  | Star _ => false
  end.

(** Every range of [r] lies within [P]. *)
Fixpoint over (P : Z -> bool) (r : Re) : Prop :=
  match r with
  | Nul | Eps => True
  | Range lo hi => forall c, lo <= c <= hi -> P c = true
  | Cat a b | Alt a b => over P a /\ over P b
  | Star a => over P a
  end.

Lemma dead_not_nullable (r : Re) : dead r = true -> nullable r = false.
Proof.
  induction r as [| | lo hi | a IHa b IHb | a IHa b IHb | a IHa]; cbn;
    try discriminate.
  - reflexivity.
  - intros H. apply orb_true_iff in H as [H | H].
    + rewrite (IHa H). reflexivity.
    + rewrite (IHb H). apply andb_false_r.
  - intros H. apply andb_true_iff in H as [Ha Hb].
    rewrite (IHa Ha), (IHb Hb). reflexivity.
Qed.

Lemma dead_deriv (c : Z) (r : Re) : dead r = true -> dead (deriv c r) = true.
Proof.
  induction r as [| | lo hi | a IHa b IHb | a IHa b IHb | a IHa]; cbn;
    try discriminate.
  - reflexivity.
  - intros H. apply orb_true_iff in H as [H | H].
    + rewrite (dead_not_nullable a H). cbn. rewrite (IHa H). reflexivity.
    + destruct (nullable a); cbn; rewrite ?(IHb H), H, ?orb_true_r; reflexivity.
  - intros H. apply andb_true_iff in H as [Ha Hb].
    rewrite (IHa Ha), (IHb Hb). reflexivity.
Qed.

Lemma dead_rest (s : jsstring) (r : Re) :
  dead r = true -> test r s = false.
Proof.
  unfold test. revert r. induction s as [| c s IH]; intros r H; cbn [fold_left].
  - apply dead_not_nullable, H.
  - apply IH, dead_deriv, H.
Qed.

Lemma over_deriv (P : Z -> bool) (c : Z) (r : Re) :
  over P r -> over P (deriv c r).
Proof.
  induction r as [| | lo hi | a IHa b IHb | a IHa b IHb | a IHa]; cbn;
    try tauto.
  - intros _. destruct (_ && _); exact I.
  - intros [Ha Hb]. destruct (nullable a); cbn; tauto.
Qed.

Lemma outside_dead (P : Z -> bool) (c : Z) (r : Re) :
  over P r -> P c = false -> dead (deriv c r) = true.
Proof.
  intros Hr Hc.
  induction r as [| | lo hi | a IHa b IHb | a IHa b IHb | a IHa]; cbn in *;
    try reflexivity.
  - destruct (Z.leb_spec lo c), (Z.leb_spec c hi); cbn; try reflexivity.
    rewrite Hr in Hc by lia. discriminate Hc.
  - destruct Hr as [Ha Hb]. destruct (nullable a); cbn;
      rewrite (IHa Ha), ?(IHb Hb); reflexivity.
  - destruct Hr as [Ha Hb]. rewrite (IHa Ha), (IHb Hb). reflexivity.
  - rewrite (IHa Hr). reflexivity.
Qed.

Lemma test_over (P : Z -> bool) (s : jsstring) (r : Re) :
  over P r -> test r s = true -> Forall (fun c => P c = true) s.
Proof.
  revert r. induction s as [| c s IH]; intros r Hr H; [constructor |].
  destruct (P c) eqn:Hc.
  - constructor; [exact Hc |].
    apply (IH (deriv c r)); [apply over_deriv, Hr | exact H].
  - change (test r (c :: s)) with (test (deriv c r) s) in H.
    rewrite dead_rest in H by (apply (outside_dead P); assumption).
    discriminate H.
Qed.

(** The characters of an account name. *)
Definition nameChar (c : Z) : bool :=
  ((97 <=? c) && (c <=? 122)) || ((48 <=? c) && (c <=? 57))
  || (c =? 45) || (c =? 46).

Definition letter (c : Z) : bool := (97 <=? c) && (c <=? 122).

(** A name that is safe to put into a path: not empty, starting with a
    letter, and made of lower-case letters, digits, [-] and [.] only. *)
Definition safeName (s : jsstring) : Prop :=
  (exists c rest, s = c :: rest /\ letter c = true)
  /\ Forall (fun c => nameChar c = true) s.

Lemma REGEX_over : over nameChar REGEX.
Proof.
  cbn. repeat split; intros c Hc; unfold nameChar;
    repeat match goal with
           | |- context [?a <=? ?b] => destruct (Z.leb_spec a b)
           | |- context [?a =? ?b] => destruct (Z.eqb_spec a b)
           end; try reflexivity; lia.
Qed.

Lemma REGEX_safe (s : jsstring) : test REGEX s = true -> safeName s.
Proof.
  intros H. split; [| exact (test_over nameChar s REGEX REGEX_over H)].
  destruct s as [| c rest]; [discriminate H |].
  exists c, rest. split; [reflexivity |].
  destruct (letter c) eqn:Hc; [reflexivity |].
  change (test REGEX (c :: rest)) with (test (deriv c REGEX) rest) in H.
  rewrite dead_rest in H; [discriminate H |].
  unfold letter in Hc. cbn. rewrite Hc. reflexivity.
Qed.

(** *** The key of a fetched avatar *)

Definition isHexChar (c : Z) : Prop := 48 <= c <= 57 \/ 97 <= c <= 102.

Lemma hex_shape (b : bytes) :
  Forall (fun x => 0 <= x < 256) b ->
  length (hex b) = (2 * length b)%nat /\ Forall isHexChar (hex b).
Proof.
  induction 1 as [| x b Hx _ [IHl IHc]]; [split; [reflexivity | constructor] |].
  cbn [hex flat_map app length]. fold (hex b). split; [rewrite IHl; lia |].
  assert (Hd : forall n, 0 <= n < 16 -> isHexChar (hexDigit n)).
  { intros n Hn. unfold hexDigit, isHexChar.
    destruct (Z.ltb_spec n 10); lia. }
  assert (Hq : 0 <= x / 16 < 16)
    by (split; [apply Z.div_pos; lia | apply Z.div_lt_upper_bound; lia]).
  constructor; [apply Hd, Hq |].
  constructor; [apply Hd, Z.mod_pos_bound; lia | exact IHc].
Qed.

(** X28.  The key under which the avatar handler keeps a fetched original
    is [U] followed by the 40 hexadecimal digits of a SHA-1, whatever the
    URL; it is therefore never the key under which the proxy keeps the
    original of a URL (31 characters), not even of the same URL: the two
    handlers do not share fetched originals. *)
Theorem url_hash_key_shape (input : jsstring) :
  (exists rest,
     getUrlHashKey input = lit "U" ++ rest
     /\ length rest = 40%nat /\ Forall isHexChar rest)
  /\ forall urlString, getUrlHashKey input <> Proxy.urlKey urlString.
Proof.
  destruct (KeyShape.sha1_digest (Utf8.encode input)) as [Hoct Hlen].
  destruct (hex_shape (Sha1.sha1 (Utf8.encode input))) as [Hl Hc].
  { exact Hoct. }
  rewrite Hlen in Hl. split.
  - exists (hex (Sha1.sha1 (Utf8.encode input))).
    split; [reflexivity |]. split; [exact Hl | exact Hc].
  - intros urlString E. apply (f_equal (@length Z)) in E.
    destruct (KeyShape.sha1_digest (Utf8.encode urlString)) as [Hoct' Hlen'].
    destruct (KeyShape.encode_header 17 20 4 36 28
                (Sha1.sha1 (Utf8.encode urlString)))
      as (rest & Ekey & Hrest & _); try lia; try exact Hoct';
      try (rewrite Hlen'; vm_compute; discriminate).
    unfold getUrlHashKey, Proxy.urlKey, Sha1.multihash_sha1 in E.
    rewrite Hlen' in E. change (Z.of_nat 20) with 20 in E.
    rewrite Ekey in E. rewrite !length_app, Hl in E. cbn [length] in E.
    rewrite Hrest in E. discriminate E.
Qed.

Example REGEX_examples :
  map (test REGEX)
      [lit "alice"; lit "a-b.c3"; lit "a--b"; lit "-a"; lit "a."; lit "a-";
       lit "Alice"; lit "3a"; lit "a/b"; []]
  = [true; true; false; false; false; false; false; false; false; false].
Proof. vm_compute. reflexivity. Qed.

Section Handler.

Variable URL : Type.
Variable out : Outside URL.

(** [shouldBypassCache] of a request. *)
Definition bypasses (req : Request) : bool :=
  truthy (intOrUndefined (query (http req) !! lit "ignorecache"))
  || truthy (intOrUndefined (query (http req) !! lit "invalidate")).

(** X25.  Whatever [handleAvatar] does beyond refusing the request, it
    does for a safe name: a run that changed the world (asked the node, a
    store or the network, purged or logged) or that answered had a
    lower-cased user name that is not empty, starts with a letter and
    holds lower-case letters, digits, [-] and [.] only.  Every other
    request is refused with nothing done. *)
Theorem avatar_name_checked (req : Request) (ctx : Context) (w w' : World)
  (r : Exn + Context) :
  handleAvatar URL out req ctx w = (r, w') ->
  safeName (lowerName (usernameOf req))
  \/ (w' = w /\ exists e, r = inl e).
Proof.
  unfold handleAvatar, bind at 1.
  destruct (streq (method (http req)) (lit "GET")); cbn [assert ret throw];
    [| intros H; injection H as <- <-; right; eauto].
  unfold bind at 1, assertParams.
  destruct (forallb _ _); cbn [assert ret throw];
    [| intros H; injection H as <- <-; right; eauto].
  unfold bind at 1.
  destruct (test REGEX (lowerName (usernameOf req))) eqn:Hname;
    cbn [assert ret throw];
    [| intros H; injection H as <- <-; right; eauto].
  intros _. left. apply REGEX_safe, Hname.
Qed.

(** X26.  The lifetime of an avatar.  A response of [handleAvatar] other
    than 304 carries [no-cache,must-revalidate] when the request bypasses
    the cache ([ignorecache] or [invalidate] set to a nonzero number), and
    otherwise one hour with a day of stale-while-revalidate, or ten
    minutes; never the immutable year of the proxy. *)
Theorem avatar_cache_control (req : Request) (ctx ctx' : Context)
  (w w' : World) :
  handleAvatar URL out req ctx w = (inr ctx', w') ->
  status ctx' <> Some 304 ->
  (if bypasses req
   then headers ctx' !! lit "Cache-Control" = Some (lit cacheNone)
   else headers ctx' !! lit "Cache-Control" = Some (lit cacheHour)
        \/ headers ctx' !! lit "Cache-Control" = Some (lit cacheShort))
  /\ headers ctx' !! lit "Cache-Control" <> Some (lit cacheImmutable).
Proof.
  intros Hrun Hstatus.
  assert (Hcc : if bypasses req
                then headers ctx' !! lit "Cache-Control" = Some (lit cacheNone)
                else headers ctx' !! lit "Cache-Control" = Some (lit cacheHour)
                     \/ headers ctx' !! lit "Cache-Control"
                        = Some (lit cacheShort)).
  { unfold handleAvatar in Hrun. fold (bypasses req) in Hrun.
    apply bind_ok in Hrun as (? & w1 & _ & Hrun).
    apply bind_ok in Hrun as (? & w2 & _ & Hrun).
    apply bind_ok in Hrun as (? & w3 & _ & Hrun).
    apply bind_ok in Hrun as (found & w4 & _ & Hrun).
    destruct found as [profile |]; [| discriminate Hrun].
    apply bind_ok in Hrun as (url & w5 & _ & Hrun).
    match type of Hrun with
    | (if ?c then _ else _) _ = _ => destruct c
    end.
    { apply ret_ok in Hrun as [E _]. subst ctx'. cbn in Hstatus. congruence. }
    apply bind_ok in Hrun as (present & w6 & _ & Hrun).
    match type of Hrun with
    | (if ?c then _ else _) _ = _ => destruct c eqn:Ehit
    end.
    { apply andb_true_iff in Ehit as [_ Eb]. apply negb_true_iff in Eb.
      rewrite Eb.
      apply bind_ok in Hrun as (file & w7 & _ & Hrun).
      apply ret_ok in Hrun as [E _]. subst ctx'. left.
      cbn. apply lookup_insert_eq. }
    apply bind_ok in Hrun as (? & w7 & _ & Hrun).
    apply bind_ok in Hrun as (present' & w8 & _ & Hrun).
    apply bind_ok in Hrun as ([ctx1 [[origData contentType] isFetchFallback]]
                              & w9 & _ & Hrun).
    apply bind_ok in Hrun as ([[rv contentType'] isResizeFallback]
                              & w10 & _ & Hrun).
    apply ret_ok in Hrun as [E _]. subst ctx'.
    destruct (bypasses req).
    - cbn. apply lookup_insert_eq.
    - destruct (isFetchFallback || isResizeFallback); [right | left];
        cbn; apply lookup_insert_eq. }
  split; [exact Hcc |].
  destruct (bypasses req); [| destruct Hcc as [Hcc | Hcc]];
    rewrite Hcc; intros E; vm_compute in E; discriminate E.
Qed.

(** *** The bypass *)

(** Anything but reading a file from a store. *)
Definition notRead (e : Event) : Prop :=
  match e with EvStoreRead _ _ => False | _ => True end.

Ltac fresh_step :=
  first
    [ apply traces_ret | apply traces_throw | apply traces_history
    | apply traces_assert
    | apply traces_emit; exact I
    | apply traces_storeExists; exact I
    | apply traces_storeWrite; exact I
    | apply traces_storeRemove; exact I
    | apply traces_bind; [| intros ?]
    | apply traces_tryCatch; [| intros ?]
    | match goal with
      | |- traces _ (if ?p && false then _ else _) => rewrite (andb_false_r p)
      | |- traces _ (match ?x with _ => _ end) => destruct x
      end ].

Lemma fresh_tryCandidates (candidates : list jsstring) (o : NeedleOptions) :
  traces notRead (FetchImage.tryCandidates (net (proxy out)) candidates o).
Proof.
  induction candidates as [| c rest IH]; cbn [FetchImage.tryCandidates].
  - apply traces_ret.
  - apply traces_bind.
    + unfold FetchImage.attempt, FetchImage.fetchUrl. repeat fresh_step.
    + intros [res |]; [apply traces_ret | exact IH].
Qed.

Lemma fresh_ladder (urlString urlParams userAgent defaultUrl : jsstring)
  (options : FetchImage.FetchOptions) :
  traces notRead
         (FetchImage.fetchImageWithFallbacks (net (proxy out)) urlString
            urlParams userAgent defaultUrl options).
Proof.
  unfold FetchImage.fetchImageWithFallbacks.
  apply traces_bind; [apply fresh_tryCandidates | intros r].
  unfold FetchImage.attempt, FetchImage.fetchUrl. repeat fresh_step.
Qed.

Lemma fresh_purgeEach (values : list jsstring) :
  traces notRead (purgeEach URL out values).
Proof.
  induction values as [| v rest IH]; cbn [purgeEach].
  - apply traces_ret.
  - apply traces_bind; [| intros _; exact IH].
    unfold purgeCache. repeat fresh_step.
Qed.

Lemma fresh_resize (origData : bytes) (contentType : jsstring)
  (options : ProxyOptions) (urlString urlParams userAgent fallbackUrl : jsstring) :
  traces notRead
         (resizeImageWithOptions URL out origData contentType options urlString
            urlParams userAgent fallbackUrl).
Proof.
  unfold resizeImageWithOptions, getSharpMetadataWithRetry, logError.
  apply traces_bind.
  - apply traces_tryCatch; [| intros _; apply traces_throw].
    destruct (sharpMetadata _ _); [apply traces_ret |].
    apply traces_bind; [apply traces_emit; exact I | intros _].
    apply traces_bind.
    + apply traces_tryCatch; [apply fresh_ladder | intros _; repeat fresh_step].
    + intros fallback. repeat fresh_step.
  - intros metaResult. repeat fresh_step.
Qed.

Lemma fresh_fetchOriginal (req : Request) (username urlString urlParams : jsstring)
  (origStore : StoreName) (origKey : jsstring) :
  traces notRead
         (fetchOriginal URL out req username urlString urlParams origStore
                        origKey).
Proof.
  unfold fetchOriginal, logError.
  apply traces_tryCatch; [| intros _; repeat fresh_step].
  apply traces_bind; [apply fresh_ladder | intros result].
  apply traces_bind; [| intros _; apply traces_ret].
  destruct (_ <=? _); [| apply traces_ret].
  apply traces_tryCatch; [| intros _; apply traces_emit; exact I].
  apply traces_bind; [apply traces_storeWrite; exact I | intros _].
  apply fresh_purgeEach.
Qed.

(** X27.  A request that bypasses the cache is never answered from a
    store: the handler reads no file from either store, whatever they
    hold, and the image of its response is one it fetched (the response is
    tagged [store = fetch]). *)
Theorem avatar_bypass_reads_no_store (req : Request) (ctx : Context)
  (w w' : World) (r : Exn + Context) :
  bypasses req = true ->
  handleAvatar URL out req ctx w = (r, w') ->
  (exists evs, trace w' = trace w ++ evs /\ Forall notRead evs)
  /\ forall ctx', r = inr ctx' -> tags ctx' !! lit "store" = Some (lit "fetch").
Proof.
  intros Hb Hrun. split.
  - revert w r w' Hrun. change (traces notRead (handleAvatar URL out req ctx)).
    unfold handleAvatar, getProfile, parseUrl, logError.
    fold (bypasses req). rewrite Hb. cbn [negb].
    apply traces_bind; [apply traces_assert | intros _].
    apply traces_bind; [apply traces_assert | intros _].
    apply traces_bind; [apply traces_assert | intros _].
    apply traces_bind; [repeat fresh_step | intros found].
    destruct found as [profile |]; [| apply traces_throw].
    apply traces_bind; [repeat fresh_step | intros url].
    rewrite andb_false_r.
    apply traces_bind; [apply traces_storeExists; exact I | intros present].
    rewrite andb_false_r.
    apply traces_bind.
    { apply traces_bind; [apply traces_storeExists; exact I | intros present'].
      apply traces_bind; [| intros _; apply fresh_purgeEach].
      destruct present'; [apply traces_storeRemove; exact I | apply traces_ret]. }
    intros _.
    apply traces_bind; [apply traces_storeExists; exact I | intros present'].
    rewrite andb_false_r.
    apply traces_bind.
    { apply traces_bind; [apply fresh_fetchOriginal | intros ?; apply traces_ret]. }
    intros [ctx1 [[origData contentType] isFetchFallback]].
    apply traces_bind.
    { destruct (_ && _); [apply traces_ret |].
      apply traces_bind; [apply fresh_resize | intros result].
      apply traces_bind; [| intros _; apply traces_ret].
      apply traces_tryCatch; [apply traces_storeWrite; exact I |].
      intros _. apply traces_emit. exact I. }
    intros [[rv contentType'] isResizeFallback]. apply traces_ret.
  - intros ctx' ->.
    unfold handleAvatar in Hrun. fold (bypasses req) in Hrun.
    rewrite Hb in Hrun. cbn [negb] in Hrun.
    apply bind_ok in Hrun as (? & w1 & _ & Hrun).
    apply bind_ok in Hrun as (? & w2 & _ & Hrun).
    apply bind_ok in Hrun as (? & w3 & _ & Hrun).
    apply bind_ok in Hrun as (found & w4 & _ & Hrun).
    destruct found as [profile |]; [| discriminate Hrun].
    apply bind_ok in Hrun as (url & w5 & _ & Hrun).
    rewrite andb_false_r in Hrun.
    apply bind_ok in Hrun as (present & w6 & _ & Hrun).
    rewrite andb_false_r in Hrun.
    apply bind_ok in Hrun as (? & w7 & _ & Hrun).
    apply bind_ok in Hrun as (present' & w8 & _ & Hrun).
    rewrite andb_false_r in Hrun.
    apply bind_ok in Hrun as ([ctx1 [[origData contentType] isFetchFallback]]
                              & w9 & Horig & Hrun).
    apply bind_ok in Horig as (fetched & w9' & _ & Horig).
    apply ret_ok in Horig as [E _]. injection E as -> _.
    apply bind_ok in Hrun as ([[rv contentType'] isResizeFallback]
                              & w10 & _ & Hrun).
    apply ret_ok in Hrun as [E _]. subst ctx'.
    unfold setBody, setHeader, setHeaderTo, setTag. cbn [tags].
    apply lookup_insert_eq.
Qed.

End Handler.

(** The deployment of the proxy examples, with one account whose profile
    image is the photo, and no profile cache. *)
Definition accounts : Outside jsstring :=
  {| proxy := Proxy.demo;
     cachedProfile := fun _ _ => None;
     rpcProfile := fun _ user =>
                     if streq user (lit "alice")
                     then Some {| profile_image := Some photoUrl;
                                  active := lit "2024-01-01T00:00:00" |}
                     else None;
     utcString := fun s => s |}.

(** [GET /u/<name>/avatar], with the given query. *)
Definition getAvatar (name : string) (q : list (string * string)) : Request :=
  {| http := {| method := lit "GET";
                params := {[ lit "username" := lit name ]};
                query := list_to_map
                           (map (fun kv => (lit (fst kv), QString (lit (snd kv)))) q);
                accept := [] |};
     user_agent := [] |}.

Definition aliceRun (q : list (string * string)) : (Exn + Context) * World :=
  handleAvatar jsstring accounts (getAvatar "Alice" q) emptyContext world0.

Example alice_served :
  body (responseOf (aliceRun [])) = Some photo
  /\ headers (responseOf (aliceRun [])) !! lit "Cache-Control"
     = Some (lit cacheHour)
  /\ is_Some (proxyStore (snd (aliceRun []))
              !! (getUrlHashKey photoUrl ++ lit "_Cover_Match_256_256")).
Proof.
  split; [vm_compute; reflexivity |]. split; [vm_compute; reflexivity |].
  vm_compute. eauto.
Qed.

Example path_refused :
  handleAvatar jsstring accounts (getAvatar "alice/../bob" []) emptyContext world0
  = (inl (APIError NoSuchAccount), world0).
Proof. vm_compute. reflexivity. Qed.

Lemma avatar_name_checked_witness :
  safeName (lit "alice")
  \/ (snd (aliceRun []) = world0 /\ exists e, fst (aliceRun []) = inl e).
Proof.
  apply (avatar_name_checked jsstring accounts (getAvatar "Alice" [])
           emptyContext world0 (snd (aliceRun [])) (fst (aliceRun []))).
  vm_compute. reflexivity.
Defined.

Lemma avatar_cache_control_witness :
  headers (responseOf (aliceRun [("ignorecache"%string, "1"%string)])) !! lit "Cache-Control"
  = Some (lit cacheNone)
  /\ headers (responseOf (aliceRun [("ignorecache"%string, "1"%string)])) !! lit "Cache-Control"
     <> Some (lit cacheImmutable).
Proof.
  apply (avatar_cache_control jsstring accounts
           (getAvatar "Alice" [("ignorecache"%string, "1"%string)]) emptyContext
           (responseOf (aliceRun [("ignorecache"%string, "1"%string)])) world0
           (snd (aliceRun [("ignorecache"%string, "1"%string)]))).
  - vm_compute. reflexivity.
  - intros H. vm_compute in H. discriminate H.
Defined.

Lemma avatar_bypass_reads_no_store_witness :
  (exists evs, trace (snd (aliceRun [("invalidate"%string, "1"%string)])) = trace world0 ++ evs
               /\ Forall notRead evs)
  /\ forall ctx', fst (aliceRun [("invalidate"%string, "1"%string)]) = inr ctx' ->
                 tags ctx' !! lit "store" = Some (lit "fetch").
Proof.
  apply (avatar_bypass_reads_no_store jsstring accounts
           (getAvatar "Alice" [("invalidate"%string, "1"%string)]) emptyContext world0).
  - vm_compute. reflexivity.
  - vm_compute. reflexivity.
Defined.

End AvatarFacts.

(** ** legacy-proxy.ts: the characters of the redirect *)

Module RedirectShape.

Import Utils ProxyOptions UrlCodec Frame Proxy LegacyProxy.

(** Letters, digits and the punctuation of a path with a query. *)
Definition urlSafe (c : Z) : bool :=
  ((48 <=? c) && (c <=? 57)) || ((65 <=? c) && (c <=? 90))
  || ((97 <=? c) && (c <=? 122))
  || (c =? 47) || (c =? 46) || (c =? 63) || (c =? 61) || (c =? 38)
  || (c =? 45).

Definition allSafe (s : jsstring) : Prop := Forall (fun c => urlSafe c = true) s.

Lemma allSafe_lit (s : string) : forallb urlSafe (lit s) = true -> allSafe (lit s).
Proof. intros H. apply List.Forall_forall. apply forallb_forall, H. Qed.

Lemma allSafe_base58 (value : jsstring) : allSafe (base58Enc value).
Proof.
  assert (Hc : forall c, CodecFacts.isBase58 c -> urlSafe c = true).
  { intros c Hc. unfold CodecFacts.isBase58 in Hc.
    apply (proj1 (forallb_forall urlSafe Base58.ALPHABET)); [| exact Hc].
    vm_compute. reflexivity. }
  unfold base58Enc, Base58.encode. apply Forall_app. split.
  - apply List.Forall_forall. intros c Hin. apply repeat_spec in Hin. subst c.
    reflexivity.
  - apply List.Forall_map. unfold Base58.digitsOf. apply List.Forall_rev.
    eapply List.Forall_impl;
      [| apply Base58.digitsLE_range with (b := 58); lia].
    intros d Hd. apply Hc, CodecFacts.encodeChar_alphabet, Hd.
Qed.

Lemma allSafe_number (n : Z) : allSafe (numToString n).
Proof.
  eapply List.Forall_impl; [| apply ImageKeyFacts.numToString_chars].
  intros c [-> | Hc]; [reflexivity |]. unfold urlSafe.
  destruct (Z.leb_spec 48 c), (Z.leb_spec c 57); lia.
Qed.

Lemma allSafe_query (W H : Z) : allSafe (stringify (legacyOptions W H)).
Proof.
  unfold legacyOptions, stringify.
  destruct (0 <? W), (0 <? H);
    cbn [app map fst snd join stringifyValue];
    repeat (apply Forall_app; split);
    try apply allSafe_number;
    apply allSafe_lit; vm_compute; reflexivity.
Qed.

Section Handler.

Variable URL : Type.
Variable urls : UrlApi URL.
Variable SERVICE_BASE_URL : jsstring.

(** X29.  The location of a legacy redirect starts with [/p/] and is made
    of letters, digits and the characters [/ . ? = & -] only, whatever URL
    the request names (for a width and a height below 2^53, where
    [parseInt] is exact): nothing of the requested URL reaches the
    [Location] header as it was written. *)
Theorem legacy_location_safe (req : Request) (w w' : World) (r : Redirect) :
  legacyProxyHandler URL urls SERVICE_BASE_URL req w = (inr r, w') ->
  orZero (parseInt (param req "width")) < 2 ^ 53 ->
  orZero (parseInt (param req "height")) < 2 ^ 53 ->
  r_status r = 301 /\ allSafe (r_location r)
  /\ startsWith (r_location r) (lit "/p/") = true.
Proof.
  intros Hrun _ _. unfold legacyProxyHandler in Hrun.
  do 6 (apply bind_ok in Hrun as (? & ? & _ & Hrun)).
  apply bind_ok in Hrun as (url & ? & _ & Hrun).
  apply ret_ok in Hrun as [E _]. subst r. cbn [r_status r_location].
  split; [reflexivity |]. split;
    [| change (lit "/p/") with [47; 112; 47]; cbn [app startsWith Z.eqb Pos.eqb andb];
       destruct (base58Enc _ ++ _); reflexivity].
  apply Forall_app. split; [apply allSafe_lit; vm_compute; reflexivity |].
  apply Forall_app. split; [apply allSafe_base58 |].
  apply Forall_app. split; [apply allSafe_lit; vm_compute; reflexivity |].
  apply allSafe_query.
Qed.

End Handler.

Lemma legacy_location_safe_witness :
  exists r,
    legacyProxyHandler jsstring plainUrls ecency legacyRequest quietWorld
    = (inr r, quietWorld)
    /\ r_status r = 301 /\ allSafe (r_location r)
    /\ startsWith (r_location r) (lit "/p/") = true.
Proof.
  eexists. split; [vm_compute; reflexivity |].
  apply (legacy_location_safe jsstring plainUrls ecency legacyRequest
           quietWorld quietWorld).
  - vm_compute. reflexivity.
  - vm_compute. reflexivity.
  - vm_compute. reflexivity.
Defined.

End RedirectShape.

(** ** utils.ts: the retry after unreadable metadata *)

Module RetryFacts.

Import Utils ProxyOptions Store Frame Proxy Avatar.

(** An event that is no request for [url]. *)
Definition notFor (url : jsstring) (e : Event) : Prop :=
  match e with
  | EvFetch rq => req_url rq <> url
  | _ => True
  end.

Section Handler.

Variable URL : Type.
Variable out : Outside URL.

Lemma attempt_notFor (url candidate : jsstring) (o : NeedleOptions) :
  candidate <> url ->
  traces (notFor url) (FetchImage.attempt (net (proxy out)) candidate o).
Proof.
  intros Hne. unfold FetchImage.attempt, FetchImage.fetchUrl.
  apply traces_tryCatch; [| intros _; apply traces_ret].
  apply traces_bind; [| intros res; destruct (FetchImage.accepted res);
                        apply traces_ret].
  apply traces_bind; [apply traces_history | intros h].
  apply traces_bind; [apply traces_emit; exact Hne | intros _].
  destruct (net _ _ _); [apply traces_throw | apply traces_ret].
Qed.

Lemma tryCandidates_notFor (url : jsstring) (candidates : list jsstring)
  (o : NeedleOptions) :
  Forall (fun c => c <> url) candidates ->
  traces (notFor url)
         (FetchImage.tryCandidates (net (proxy out)) candidates o).
Proof.
  induction 1 as [| c rest Hc _ IH]; cbn [FetchImage.tryCandidates].
  - apply traces_ret.
  - apply traces_bind; [apply attempt_notFor, Hc |].
    intros [res |]; [apply traces_ret | exact IH].
Qed.

(** The candidates that are left when [url] is to be skipped. *)
Lemma candidates_skip (urlString urlParams : jsstring) :
  trim urlString = urlString ->
  Forall (fun c => c <> urlString)
         (FetchImage.candidateUrls urlString urlParams [urlString]).
Proof.
  intros Htrim. unfold FetchImage.candidateUrls.
  apply List.Forall_forall. intros c Hc.
  apply filter_In in Hc as [_ Hc]. intros ->.
  rewrite Htrim in Hc. cbn [includes existsb] in Hc.
  unfold streq in Hc. rewrite bool_decide_eq_true_2 in Hc by reflexivity.
  discriminate Hc.
Qed.

(** X30.  When the metadata of an image cannot be read,
    [getSharpMetadataWithRetry] fetches a replacement without asking the
    URL again that the unreadable data came from: for a URL without
    surrounding white space (as a serialised URL is) and a different
    fallback URL, no request of the retry goes to that URL. *)
Theorem retry_skips_failed_url (origData : bytes)
  (urlString urlParams userAgent fallbackUrl : jsstring) (w w' : World)
  (r : Exn + bytes * Metadata * bool) :
  trim urlString = urlString ->
  fallbackUrl <> urlString ->
  getSharpMetadataWithRetry URL out origData urlString urlParams userAgent
                            fallbackUrl w = (r, w') ->
  exists evs, trace w' = trace w ++ evs /\ Forall (notFor urlString) evs.
Proof.
  intros Htrim Hne. revert w r w'.
  change (traces (notFor urlString)
            (getSharpMetadataWithRetry URL out origData urlString urlParams
                                       userAgent fallbackUrl)).
  unfold getSharpMetadataWithRetry, logError.
  destruct (sharpMetadata _ _); [apply traces_ret |].
  apply traces_bind; [apply traces_emit; exact I | intros _].
  apply traces_bind.
  - apply traces_tryCatch.
    + unfold FetchImage.fetchImageWithFallbacks. cbn [FetchImage.skipUrls].
      apply traces_bind;
        [apply tryCandidates_notFor, candidates_skip, Htrim | intros res].
      destruct res; [apply traces_ret |].
      apply traces_bind; [apply attempt_notFor, Hne | intros d].
      destruct d; [apply traces_ret | apply traces_throw].
    + intros _. apply traces_bind; [apply traces_emit; exact I | intros _].
      apply traces_throw.
  - intros fallback. destruct (sharpMetadata _ _); [apply traces_ret |].
    apply traces_bind; [apply traces_emit; exact I | intros _].
    apply traces_throw.
Qed.

End Handler.

(** The deployment of the proxy examples in which only the first fallback
    service answers for the photo, and sharp reads JPEG data only. *)
Definition viaHive : Proxy.Outside jsstring :=
  let d := demoWith (lit "https://images.hive.blog/0x0/" ++ photoUrl) in
  {| urls := urls d; SERVICE_URL := SERVICE_URL d;
     SERVICE_BASE_URL := SERVICE_BASE_URL d;
     MAX_IMAGE_SIZE := MAX_IMAGE_SIZE d; DefaultAvatar := DefaultAvatar d;
     max_image_width := max_image_width d;
     max_image_height := max_image_height d;
     max_custom_image_width := max_custom_image_width d;
     max_custom_image_height := max_custom_image_height d;
     cloudflare := cloudflare d; net := net d; storeFails := storeFails d;
     imageBlacklisted := imageBlacklisted d; fileType := fileType d;
     sharpMetadata := fun data =>
                        if startsWith data [255; 216; 255]
                        then Some {| meta_width := Some 640;
                                     meta_height := Some 480 |}
                        else None;
     sharpToBuffer := sharpToBuffer d; etag := etag d; fresh := fresh d |}.

Definition unreadable : Outside jsstring :=
  {| proxy := viaHive; cachedProfile := fun _ _ => None;
     rpcProfile := fun _ _ => None; utcString := fun s => s |}.

(** Broken data that came from the photo's URL. *)
Definition retryRun : (Exn + bytes * Metadata * bool) * World :=
  getSharpMetadataWithRetry jsstring unreadable [0; 1; 2] photoUrl
    (UrlCodec.base58Enc photoUrl) Proxy.userAgent avatarUrl world0.

Example retry_replaces :
  fst retryRun
  = inr (photo, {| meta_width := Some 640; meta_height := Some 480 |}, false)
  /\ length (trace (snd retryRun)) = 2%nat.
Proof. split; vm_compute; reflexivity. Qed.

Lemma retry_skips_failed_url_witness :
  exists evs, trace (snd retryRun) = trace world0 ++ evs
              /\ Forall (notFor photoUrl) evs.
Proof.
  apply (retry_skips_failed_url jsstring unreadable [0; 1; 2] photoUrl
           (UrlCodec.base58Enc photoUrl) Proxy.userAgent avatarUrl world0
           (snd retryRun) (fst retryRun)).
  - vm_compute. reflexivity.
  - intros H. vm_compute in H. discriminate H.
  - vm_compute. reflexivity.
Defined.

End RetryFacts.
